(** * Cache reporting interface (lazyflow/operators/opCache.py) and the
      tiled 2D scene (volumina/imageScene2D.py)

    A shallow embedding of the two source files.  Python objects that are
    mutated in place are kept in an explicit state; calls into collaborators
    whose code is not part of the two files (the cache memory manager, the
    render thread, Qt) are recorded as events. *)

From Stdlib Require Import ZArith QArith Qcanon.
From stdpp Require Import base list strings.

Set Warnings "-register-all".

Open Scope Z_scope.

(** Python floats are carried as canonical rationals.  The progress a paint
    pass stores is carried as the exact quotient; it is only compared with
    1.0 and 0 and bounded by them.  The arithmetic of [DirtyIndicator.paint]
    rounds to the nearest double at each operation ([round64]). *)
Definition float : Type := Qc.

(** Exceptions raised by the modelled code. *)
Inductive Exn : Type :=
  | NameError (name : string)
  | ZeroDivisionError
  | IndexError
  | NotImplementedError (msg : string).

(** ** MemInfoNode *)

Module MemInfoNode.

(** [class MemInfoNode]: every attribute defaults to [None]; [__init__]
    gives the instance its own empty list of children. *)
Inductive t : Type := mk {
  type : option string;
  id : option nat;
  usedMemory : option Z;
  dtype : option string;
  roi : option string;
  fractionOfUsedMemoryDirty : option float;
  lastAccessTime : option float;
  name : option string;
  info : option string;
  children : list t
}.

Definition __init__ : t :=
  mk None None None None None None None None None [].

Definition set_report (rs : list t) (ty : string) (i : nat) (n : string)
    (m : t) : t :=
  mk (Some ty) (Some i) (usedMemory m) (dtype m) (roi m)
     (fractionOfUsedMemoryDirty m) (lastAccessTime m) (Some n) (info m) rs.

Definition set_observable (u : Z) (f : float) (m : t) : t :=
  mk (type m) (id m) (Some u) (dtype m) (roi m) (Some f)
     (lastAccessTime m) (name m) (info m) (children m).

Definition set_lastAccessTime (a : float) (m : t) : t :=
  mk (type m) (id m) (usedMemory m) (dtype m) (roi m)
     (fractionOfUsedMemoryDirty m) (Some a) (name m) (info m) (children m).

End MemInfoNode.

(** ** Operators and the cache class hierarchy *)

(** The classes a child or parent object can be an instance of:
    [Operator] (lazyflow.graph) and the three interfaces of opCache.py. *)
Inductive OpClass : Type :=
  | ClsOperator
  | ClsOpCache
  | ClsOpObservableCache
  | ClsOpManagedCache.

(** [isinstance(obj, C)] along OpCache <- OpObservableCache <- OpManagedCache. *)
Definition subclass (c base : OpClass) : bool :=
  match base, c with
  | ClsOperator, _ => true
  | ClsOpCache, (ClsOpCache | ClsOpObservableCache | ClsOpManagedCache) => true
  | ClsOpObservableCache, (ClsOpObservableCache | ClsOpManagedCache) => true
  | ClsOpManagedCache, ClsOpManagedCache => true
  | _, _ => false
  end.

Module Operator.

(** An operator object.  [Operator] itself is lazyflow.graph's; the
    attributes opCache.py reads are kept.  [cls] is the most specific of the
    four classes the object is an instance of and [typeName] stands for
    [type(self)].  The interface methods are abstract: a concrete class
    supplies a body, which is either its own ([Some v]: the value that body
    returns on this object) or a delegation to the interface's body
    ([None]).  [parent] is the class of [self.parent], the only thing
    [_after_init] looks at. *)
Inductive t : Type := mk {
  cls : OpClass;
  typeName : string;
  id : nat;
  name : string;
  parent : option OpClass;
  usedMemory_own : option Z;
  fractionOfUsedMemoryDirty_own : option float;
  lastAccessTime_own : option float;
  _last_access_time : float;
  freeMemory_own : option Z;
  children : list t
}.

Definition isinstance (o : t) (base : OpClass) : bool := subclass (cls o) base.

End Operator.

Module OpObservableCache.

(** The loop of [usedMemory]: [total] after visiting the children seen so
    far, given how [child.usedMemory()] dispatches. *)
Definition usedMemory_loop (dispatch : Operator.t -> Z)
    (children : list Operator.t) : Z :=
  fold_left
    (fun total child =>
       if Operator.isinstance child ClsOpObservableCache
       then total + dispatch child
       else total)
    children 0.

(** [child.usedMemory()] by dynamic dispatch, with the interface's body
    inlined: it accumulates [total] over the observable children and then
    returns the literal 0. *)
Fixpoint usedMemory (self : Operator.t) : Z :=
  match Operator.usedMemory_own self with
  | Some v => v
  | None =>
      let total :=
        fold_left
          (fun total child =>
             if Operator.isinstance child ClsOpObservableCache
             then total + usedMemory child
             else total)
          (Operator.children self) 0 in
      0
  end.

(** The value of the local variable [total] when the interface's body of
    [usedMemory] reaches its return statement. *)
Definition usedMemory_total (self : Operator.t) : Z :=
  usedMemory_loop usedMemory (Operator.children self).

Definition fractionOfUsedMemoryDirty (self : Operator.t) : float :=
  match Operator.fractionOfUsedMemoryDirty_own self with
  | Some v => v
  | None => 0%Qc
  end.

End OpObservableCache.

Module OpManagedCache.

Definition lastAccessTime (self : Operator.t) : float :=
  match Operator.lastAccessTime_own self with
  | Some v => v
  | None => Operator._last_access_time self
  end.

(** [freeMemory]: the bytes freed, or the exception raised. *)
Definition freeMemory (self : Operator.t) : Exn + Z :=
  match Operator.freeMemory_own self with
  | Some freed => inr freed
  | None => inl (NotImplementedError "No default implementation for freeMemory()")
  end.

End OpManagedCache.

(** ** generateReport *)

Module Report.

(** [OpCache.generateReport], given how [child.generateReport(r)]
    dispatches. *)
Definition OpCache_generateReport
    (dispatch : Operator.t -> MemInfoNode.t -> MemInfoNode.t)
    (self : Operator.t) (memInfoNode : MemInfoNode.t) : MemInfoNode.t :=
  let rs :=
    flat_map
      (fun child =>
         if negb (Operator.isinstance child ClsOpCache) then []
         else [dispatch child MemInfoNode.__init__])
      (Operator.children self) in
  MemInfoNode.set_report rs (Operator.typeName self) (Operator.id self)
    (Operator.name self) memInfoNode.

(** [OpObservableCache.generateReport]: the superclass first, then the
    two observable fields. *)
Definition OpObservableCache_generateReport
    (dispatch : Operator.t -> MemInfoNode.t -> MemInfoNode.t)
    (self : Operator.t) (memInfoNode : MemInfoNode.t) : MemInfoNode.t :=
  let memInfoNode := OpCache_generateReport dispatch self memInfoNode in
  MemInfoNode.set_observable (OpObservableCache.usedMemory self)
    (OpObservableCache.fractionOfUsedMemoryDirty self) memInfoNode.

(** [OpManagedCache.generateReport]: the superclass first, then the
    access time. *)
Definition OpManagedCache_generateReport
    (dispatch : Operator.t -> MemInfoNode.t -> MemInfoNode.t)
    (self : Operator.t) (memInfoNode : MemInfoNode.t) : MemInfoNode.t :=
  let memInfoNode := OpObservableCache_generateReport dispatch self memInfoNode in
  MemInfoNode.set_lastAccessTime (OpManagedCache.lastAccessTime self) memInfoNode.

(** [obj.generateReport(node)] by dynamic dispatch on the class of [obj].
    A plain operator has no such method; the code never calls it on one,
    and the node is returned as it is. *)
Fixpoint generateReport (self : Operator.t) (memInfoNode : MemInfoNode.t)
    {struct self} : MemInfoNode.t :=
  match Operator.cls self with
  | ClsOperator => memInfoNode
  | ClsOpCache => OpCache_generateReport generateReport self memInfoNode
  | ClsOpObservableCache =>
      OpObservableCache_generateReport generateReport self memInfoNode
  | ClsOpManagedCache =>
      OpManagedCache_generateReport generateReport self memInfoNode
  end.

End Report.

(** ** Registration with the cache memory manager *)

Module CacheMemoryManager.

(** The two registration calls of the manager (lazyflow's
    cacheMemoryManager module), by the id of the cache passed. *)
Inductive Call : Type :=
  | addFirstClassCache (cache : nat)
  | addCache (cache : nat).

End CacheMemoryManager.

Module OpCache.

(** What [_after_init] acts on: the state [Operator._after_init] works on,
    of some type [G], and the calls the manager singleton has received. *)
Record Process (G : Type) : Type := mkProcess {
  graph : G;
  manager : list CacheMemoryManager.Call
}.
Arguments mkProcess {G} graph manager.
Arguments graph {G} p.
Arguments manager {G} p.

Definition call {G} (c : CacheMemoryManager.Call) (w : Process G) : Process G :=
  mkProcess (graph w) (manager w ++ [c]).

(** [OpCache._after_init]; [Operator__after_init] is the overridden
    method of the superclass. *)
Definition _after_init {G}
    (Operator__after_init : Operator.t -> Process G -> Process G)
    (self : Operator.t) (w : Process G) : Process G :=
  let w := Operator__after_init self w in
  if match Operator.parent self with
     | None => true
     | Some parent => negb (subclass parent ClsOpCache)
     end
  then call (CacheMemoryManager.addFirstClassCache (Operator.id self)) w
  else call (CacheMemoryManager.addCache (Operator.id self)) w.

End OpCache.

(** ** Programs over mutable state

    A statement sequence is a function from the state before to the state
    after together with how it ended: normally, with an exception (the
    mutations made so far stay), or blocked for ever on a mutex that is
    already held. *)

Inductive Outcome (A : Type) : Type :=
  | Return (a : A)
  | Raise (e : Exn)
  | Blocked.
Arguments Return {A} a.
Arguments Raise {A} e.
Arguments Blocked {A}.

Definition Prog (St A : Type) : Type := St -> St * Outcome A.

#[global] Instance prog_ret {St} : MRet (Prog St) :=
  fun A a s => (s, Return a).

#[global] Instance prog_bind {St} : MBind (Prog St) :=
  fun A B k m s =>
    match m s with
    | (s', Return a) => k a s'
    | (s', Raise e) => (s', Raise e)
    | (s', Blocked) => (s', Blocked)
    end.

Definition raise {St A} (e : Exn) : Prog St A := fun s => (s, Raise e).
Definition gets {St A} (f : St -> A) : Prog St A := fun s => (s, Return (f s)).
Definition modify {St} (f : St -> St) : Prog St unit := fun s => (f s, Return tt).
Definition when {St} (b : bool) (m : Prog St unit) : Prog St unit :=
  if b then m else mret tt.

(** [for x in xs: body(x)] *)
Fixpoint forM_ {St X} (xs : list X) (body : X -> Prog St unit) : Prog St unit :=
  match xs with
  | [] => mret tt
  | x :: xs => body x;; forM_ xs body
  end.

(** [for x in xs: acc = body(acc, x)] for a loop that carries a local. *)
Fixpoint foldM {St X B} (body : B -> X -> Prog St B) (xs : list X) (acc : B)
    : Prog St B :=
  match xs with
  | [] => mret acc
  | x :: xs => acc' ← body acc x; foldM body xs acc'
  end.

(** [[f(x) for x in xs]] *)
Fixpoint mapM {St X B} (f : X -> Prog St B) (xs : list X) : Prog St (list B) :=
  match xs with
  | [] => mret []
  | x :: xs => y ← f x; ys ← mapM f xs; mret (y :: ys)
  end.

(** [for x in xs: body], where the body mutates the object [x] itself: the
    objects visited before an exception keep their mutations, the others
    are untouched. *)
Fixpoint forEach {X} (body : Prog X unit) (xs : list X) : list X * Outcome unit :=
  match xs with
  | [] => ([], Return tt)
  | x :: rest =>
      match body x with
      | (x', Return _) => let '(rest', o) := forEach body rest in (x' :: rest', o)
      | (x', Raise e) => (x' :: rest, Raise e)
      | (x', Blocked) => (x' :: rest, Blocked)
      end
  end.

(** Run a program on one component of a larger state. *)
Definition zoom {S T A} (get : S -> T) (set : T -> S -> S) (m : Prog T A)
    : Prog S A :=
  fun s => let '(t', o) := m (get s) in (set t' s, o).

(** ** Qt value types *)

Record QRect : Type := mkQRect {
  rect_x : Z; rect_y : Z; rect_width : Z; rect_height : Z }.

(** [QRect()], the null rectangle, the default argument of [_invalidateRect]. *)
Definition QRect_null : QRect := mkQRect 0 0 0 0.

Definition isValid (r : QRect) : bool :=
  (0 <? rect_width r) && (0 <? rect_height r).

Definition QPointF : Type := (float * float)%type.

Definition QPointF_sub (a b : QPointF) : QPointF :=
  ((a.1 - b.1)%Qc, (a.2 - b.2)%Qc).

Record QRectF : Type := mkQRectF {
  rectF_x : float; rectF_y : float; rectF_width : float; rectF_height : float }.

Definition topLeft (r : QRectF) : QPointF := (rectF_x r, rectF_y r).

Definition QPen : Type := Z.

(** A [QImage] buffer, by the painting calls made on it. *)
Inductive QImage : Type :=
  | Fill (pixel : Z)
  | DrawLine (img : QImage) (p1 p2 : QPointF) (pen : QPen).

(** ** Tiling and patches (volumina.tiling: only its interface is used) *)

Module Tiling.

(** Modelled from the spec: the class [Tiling] of volumina.tiling is not
    among the sources.  It maps geometric queries to tile ids; the attributes
    and methods imageScene2D.py uses are the fields, and a scene carries its
    tiling as it is given: nothing is assumed of the functions here. *)
Record t : Type := mk {
  len : nat;
  intersected : QRect -> list nat;
  intersectedF : QRectF -> list nat;
  containsF : QPointF -> option nat;
  rectF : list QRectF;
  _imageRectF : list QRectF
}.

End Tiling.

Module ImagePatch.

(** Modelled from the spec: the class [ImagePatch] of volumina.tiling is not
    among the sources.  A patch is one tile's image buffer with its three
    version counters and the mutex that guards them. *)
Record t : Type := mk {
  image : QImage;
  dataVer : Z;
  imgVer : Z;
  reqVer : Z;
  mutex : bool
}.

Definition set_image (v : QImage) (p : t) : t :=
  mk v (dataVer p) (imgVer p) (reqVer p) (mutex p).
Definition set_dataVer (v : Z) (p : t) : t :=
  mk (image p) v (imgVer p) (reqVer p) (mutex p).
Definition set_imgVer (v : Z) (p : t) : t :=
  mk (image p) (dataVer p) v (reqVer p) (mutex p).
Definition set_reqVer (v : Z) (p : t) : t :=
  mk (image p) (dataVer p) (imgVer p) v (mutex p).
Definition set_mutex (v : bool) (p : t) : t :=
  mk (image p) (dataVer p) (imgVer p) (reqVer p) v.

(** Modelled from the spec: [p.lock()] takes the patch's mutex, a [QMutex]
    that is not recursive; locking a held one never returns. *)
Definition lock : Prog t unit :=
  fun p => if mutex p then (p, Blocked) else (set_mutex true p, Return tt).

(** [p.unlock()] *)
Definition unlock : Prog t unit := modify (set_mutex false).

(** [p.dataVer += 1] *)
Definition bump_dataVer : Prog t unit :=
  modify (fun p => set_dataVer (dataVer p + 1) p).

(** [p.image.fill(0)] *)
Definition fill (pixel : Z) : Prog t unit := modify (set_image (Fill pixel)).

(** [p.imgVer = p.dataVer] *)
Definition mark_current : Prog t unit :=
  modify (fun p => set_imgVer (dataVer p) p).

(** [p.reqVer = p.dataVer] *)
Definition mark_requested : Prog t unit :=
  modify (fun p => set_reqVer (dataVer p) p).

(** The test of the progress loop and of [drawForeground]:
    [p.imgVer != p.dataVer]. *)
Definition isDirty (p : t) : bool := negb (imgVer p =? dataVer p).

(** The test of the request loop:
    [p.imgVer != p.dataVer and p.reqVer != p.dataVer]. *)
Definition needsRequest (p : t) : bool :=
  negb (imgVer p =? dataVer p) && negb (reqVer p =? dataVer p).

End ImagePatch.

(** ** The scene *)

(** Calls into the collaborators, in the order they are made: [cancelAll]
    and [requestPatch] of the render thread, [invalidate] of the Qt scene,
    [update] of the indicator item, and the images given to the painter. *)
Inductive Event : Type :=
  | CancelAll
  | RequestPatch (layerNr tileId : nat)
  | Invalidate (r : QRectF)
  | IndicatorUpdate
  | PaintImage (img : QImage).

(** The three kinds of tiled layers the scene holds. *)
Inductive Store : Type :=
  | ImageLayer (layerNr : nat)
  | CompositeLayer
  | BrushingLayer.

#[global] Instance Store_eq_dec : EqDecision Store.
Proof. solve_decision. Defined.

(** A reference to one patch object. *)
Definition PatchRef : Type := (Store * nat)%type.

(** The attributes of [ImageScene2D] (and of its [DirtyIndicator]) the
    methods below touch, with the module globals [volumina.verboseRequests]
    and [volumina.printLock]. *)
Record Scene : Type := mkScene {
  _tiling : Tiling.t;
  _imageLayers : list (list ImagePatch.t);
  _compositeLayer : list ImagePatch.t;
  _brushingLayer : list ImagePatch.t;
  _indicate : list float;
  _numLayers : nat;
  _updatableTiles : list nat;
  verboseRequests : bool;
  printLock : bool;
  events : list Event
}.

Definition set_imageLayers (v : list (list ImagePatch.t)) (s : Scene) : Scene :=
  mkScene (_tiling s) v (_compositeLayer s) (_brushingLayer s) (_indicate s)
    (_numLayers s) (_updatableTiles s) (verboseRequests s) (printLock s) (events s).
Definition set_compositeLayer (v : list ImagePatch.t) (s : Scene) : Scene :=
  mkScene (_tiling s) (_imageLayers s) v (_brushingLayer s) (_indicate s)
    (_numLayers s) (_updatableTiles s) (verboseRequests s) (printLock s) (events s).
Definition set_brushingLayer (v : list ImagePatch.t) (s : Scene) : Scene :=
  mkScene (_tiling s) (_imageLayers s) (_compositeLayer s) v (_indicate s)
    (_numLayers s) (_updatableTiles s) (verboseRequests s) (printLock s) (events s).
Definition set_indicate (v : list float) (s : Scene) : Scene :=
  mkScene (_tiling s) (_imageLayers s) (_compositeLayer s) (_brushingLayer s) v
    (_numLayers s) (_updatableTiles s) (verboseRequests s) (printLock s) (events s).
Definition set_updatableTiles (v : list nat) (s : Scene) : Scene :=
  mkScene (_tiling s) (_imageLayers s) (_compositeLayer s) (_brushingLayer s)
    (_indicate s) (_numLayers s) v (verboseRequests s) (printLock s) (events s).
Definition set_printLock (v : bool) (s : Scene) : Scene :=
  mkScene (_tiling s) (_imageLayers s) (_compositeLayer s) (_brushingLayer s)
    (_indicate s) (_numLayers s) (_updatableTiles s) (verboseRequests s) v (events s).
Definition set_events (v : list Event) (s : Scene) : Scene :=
  mkScene (_tiling s) (_imageLayers s) (_compositeLayer s) (_brushingLayer s)
    (_indicate s) (_numLayers s) (_updatableTiles s) (verboseRequests s)
    (printLock s) v.

Definition emit (e : Event) : Prog Scene unit :=
  modify (fun s => set_events (events s ++ [e]) s).

Definition patchAt (r : PatchRef) (s : Scene) : option ImagePatch.t :=
  match r.1 with
  | ImageLayer layerNr => _imageLayers s !! layerNr ≫= (.!! r.2)
  | CompositeLayer => _compositeLayer s !! r.2
  | BrushingLayer => _brushingLayer s !! r.2
  end.

Definition set_patch (r : PatchRef) (p : ImagePatch.t) (s : Scene) : Scene :=
  match r.1 with
  | ImageLayer layerNr =>
      set_imageLayers (alter (fun layer => <[r.2 := p]> layer) layerNr (_imageLayers s)) s
  | CompositeLayer => set_compositeLayer (<[r.2 := p]> (_compositeLayer s)) s
  | BrushingLayer => set_brushingLayer (<[r.2 := p]> (_brushingLayer s)) s
  end.

(** [p = layer[tileId]]: the reference, or [IndexError]. *)
Definition getitem (st : Store) (tileId : nat) : Prog Scene PatchRef :=
  fun s =>
    match patchAt (st, tileId) s with
    | Some _ => (s, Return (st, tileId))
    | None => (s, Raise IndexError)
    end.

(** A method call or attribute access on the patch object behind [r]. *)
Definition withPatch {A} (r : PatchRef) (m : Prog ImagePatch.t A) : Prog Scene A :=
  fun s =>
    match patchAt r s with
    | Some p => let '(p', o) := m p in (set_patch r p' s, o)
    | None => (s, Raise IndexError)
    end.

(** Modelled from the spec: [ImagePatch.paint(painter)] (volumina.tiling)
    reads the buffer under the patch's lock; the buffer is handed to the
    painter while the mutex is held. *)
Definition paint (r : PatchRef) : Prog Scene unit :=
  withPatch r ImagePatch.lock;;
  img ← withPatch r (gets ImagePatch.image);
  emit (PaintImage img);;
  withPatch r ImagePatch.unlock.

(** [volumina.printLock.acquire()] and [release()] *)
Definition printLock_acquire : Prog Scene unit :=
  fun s => if printLock s then (s, Blocked) else (set_printLock true s, Return tt).
Definition printLock_release : Prog Scene unit := modify (set_printLock false).

Module DirtyIndicator.

(** [setTileProgress]: the array store raises when [tileId] is out of range. *)
Definition setTileProgress (tileId : nat) (progress : float) : Prog Scene unit :=
  n ← gets (fun s => length (_indicate s));
  (if decide (tileId < n)%nat
   then modify (fun s => set_indicate (<[tileId := progress]> (_indicate s)) s)
   else raise IndexError);;
  emit IndicatorUpdate.

End DirtyIndicator.

Module ImageScene2D.

Definition _schedulePatchRedraw (tileId : nat) : Prog Scene unit :=
  rs ← gets (fun s => Tiling.rectF (_tiling s));
  match rs !! tileId with
  | Some r => emit (Invalidate r)
  | None => raise IndexError
  end.

Definition drawLine (fromPoint toPoint : QPointF) (pen : QPen) : Prog Scene unit :=
  tileId ← gets (fun s => Tiling.containsF (_tiling s) toPoint);
  match tileId with
  | None => mret tt
  | Some tileId =>
      p ← getitem BrushingLayer tileId;
      withPatch p ImagePatch.lock;;
      rs ← gets (fun s => Tiling._imageRectF (_tiling s));
      match rs !! tileId with
      | None => raise IndexError
      | Some r =>
          let tL := topLeft r in
          withPatch p (modify (fun p =>
            ImagePatch.set_image
              (DrawLine (ImagePatch.image p) (QPointF_sub fromPoint tL)
                 (QPointF_sub toPoint tL) pen) p));;
          withPatch p ImagePatch.bump_dataVer;;
          withPatch p ImagePatch.unlock;;
          _schedulePatchRedraw tileId
      end
  end.

(** The branch of [_invalidateRect] taken for an invalid rectangle. *)
Definition invalidate_everything : Prog Scene unit :=
  emit CancelAll;;
  modify (set_updatableTiles []);;
  zoom _brushingLayer set_brushingLayer
    (forEach
       (ImagePatch.lock;;
        ImagePatch.fill 0;;
        ImagePatch.mark_current;;
        ImagePatch.unlock));;
  zoom _imageLayers set_imageLayers
    (forEach
       (forEach
          (ImagePatch.lock;;
           ImagePatch.bump_dataVer;;
           ImagePatch.unlock))).

(** The body of the loop of [_invalidateRect] over the intersected tiles. *)
Definition invalidate_tile (tileId : nat) : Prog Scene unit :=
  DirtyIndicator.setTileProgress tileId 1%Qc;;
  p ← getitem CompositeLayer tileId;
  withPatch p ImagePatch.bump_dataVer;;
  _schedulePatchRedraw tileId.

Definition _invalidateRect (rect : QRect) : Prog Scene unit :=
  when (negb (isValid rect)) invalidate_everything;;
  tiles ← gets (fun s => Tiling.intersected (_tiling s) rect);
  forM_ tiles invalidate_tile.

(** The body of the loop of [_onLayerDirty]. *)
Definition dirty_tile (layerNr tileId : nat) : Prog Scene unit :=
  p ← getitem (ImageLayer layerNr) tileId;
  withPatch p ImagePatch.bump_dataVer.

Definition _onLayerDirty (layerNr : nat) (rect : QRect) : Prog Scene unit :=
  tiles ← gets (fun s => Tiling.intersected (_tiling s) rect);
  forM_ tiles (dirty_tile layerNr);;
  _invalidateRect rect.

Definition drawForeground (rect : QRectF) : Prog Scene unit :=
  patches ← gets (fun s => Tiling.intersectedF (_tiling s) rect);
  forM_ patches (fun tileId =>
    p ← getitem BrushingLayer tileId;
    current ← withPatch p (gets (fun p => ImagePatch.dataVer p =? ImagePatch.imgVer p));
    if current : bool then mret tt else paint p).

(** The debug line of [drawBackground].  Its argument tuple reads
    [self.objectName()], [layerNr], [p.tileId], [p.patchRectF.x()],
    [p.patchRectF.y()] and then [Np.patchRectF.width()]; no name [Np] is
    bound in the module, so the evaluation stops there. *)
Definition print_request_line : Prog Scene unit := raise (NameError "Np").

(** The body of the inner loop of the first loop nest of [drawBackground]:
    one tile, one layer. *)
Definition request_patch (tileId layerNr : nat) : Prog Scene unit :=
  p ← getitem (ImageLayer layerNr) tileId;
  withPatch p ImagePatch.lock;;
  due ← withPatch p (gets ImagePatch.needsRequest);
  when due
    (verbose ← gets verboseRequests;
     when verbose
       (printLock_acquire;;
        print_request_line;;
        printLock_release);;
     emit (RequestPatch layerNr tileId);;
     withPatch p ImagePatch.mark_requested);;
  withPatch p ImagePatch.unlock.

(** The inner loop of the progress computation. *)
Definition count_dirty (tileId : nat) (numDirtyLayers : nat) (layerNr : nat)
    : Prog Scene nat :=
  _p ← getitem (ImageLayer layerNr) tileId;
  withPatch _p ImagePatch.lock;;
  dirty ← withPatch _p (gets ImagePatch.isDirty);
  let numDirtyLayers := if dirty : bool then S numDirtyLayers else numDirtyLayers in
  withPatch _p ImagePatch.unlock;;
  mret numDirtyLayers.

(** [1.0 - numDirtyLayers/float(self._numLayers)] *)
Definition progress_of (numDirtyLayers numLayers : nat) : Prog Scene float :=
  if decide (numLayers = 0%nat) then raise ZeroDivisionError
  else mret (1 - Q2Qc (inject_Z (Z.of_nat numDirtyLayers))
                 / Q2Qc (inject_Z (Z.of_nat numLayers)))%Qc.

(** The body of the first loop of [drawBackground]: the layers of one
    tile, numbered as [enumerate] does. *)
Definition request_tile (tileId : nat) : Prog Scene unit :=
  n ← gets (fun s => length (_imageLayers s));
  forM_ (seq 0 n) (request_patch tileId).

(** The body of the last loop of [drawBackground]. *)
Definition tile_progress (tileId : nat) : Prog Scene unit :=
  n ← gets (fun s => length (_imageLayers s));
  numDirtyLayers ← foldM (count_dirty tileId) (seq 0 n) 0%nat;
  numLayers ← gets _numLayers;
  progress ← progress_of numDirtyLayers numLayers;
  DirtyIndicator.setTileProgress tileId progress.

Definition drawBackground (rect : QRectF) : Prog Scene unit :=
  patches ← gets (fun s => Tiling.intersectedF (_tiling s) rect);
  forM_ patches request_tile;;
  tiles ← mapM (getitem CompositeLayer) patches;
  forM_ (zip patches tiles) (fun '(tileId, p) => paint p);;
  forM_ patches tile_progress.

End ImageScene2D.

(** ** Well-formed scenes, version invariants, operation sequences *)

(** The scene as [_initializePatches] leaves it and as the methods keep it:
    every layer has one patch per tile, the tiling only reports tile ids it
    has, and no mutex is held between two methods. *)
Record wf (s : Scene) : Prop := mk_wf {
  wf_image :
    ∀ layerNr layer, _imageLayers s !! layerNr = Some layer →
      length layer = Tiling.len (_tiling s);
  wf_composite : length (_compositeLayer s) = Tiling.len (_tiling s);
  wf_brushing : length (_brushingLayer s) = Tiling.len (_tiling s);
  wf_indicate : length (_indicate s) = Tiling.len (_tiling s);
  wf_rectF : length (Tiling.rectF (_tiling s)) = Tiling.len (_tiling s);
  wf_imageRectF : length (Tiling._imageRectF (_tiling s)) = Tiling.len (_tiling s);
  wf_intersected :
    ∀ rect tileId, tileId ∈ Tiling.intersected (_tiling s) rect →
      (tileId < Tiling.len (_tiling s))%nat;
  wf_intersectedF :
    ∀ rect tileId, tileId ∈ Tiling.intersectedF (_tiling s) rect →
      (tileId < Tiling.len (_tiling s))%nat;
  wf_unlocked : ∀ r p, patchAt r s = Some p → ImagePatch.mutex p = false
}.

(** A patch is never ahead of its own data version. *)
Definition versions_ok (p : ImagePatch.t) : Prop :=
  ImagePatch.reqVer p ≤ ImagePatch.dataVer p ∧
  ImagePatch.imgVer p ≤ ImagePatch.dataVer p.

(** The freshly built state: the three counters of every patch agree. *)
Definition fresh (p : ImagePatch.t) : Prop :=
  ImagePatch.reqVer p = ImagePatch.dataVer p ∧
  ImagePatch.imgVer p = ImagePatch.dataVer p.

(** Staleness and a pending request, as read off the counters. *)
Definition stale (p : ImagePatch.t) : Prop :=
  ImagePatch.imgVer p ≠ ImagePatch.dataVer p.
Definition pending (p : ImagePatch.t) : Prop :=
  ImagePatch.reqVer p = ImagePatch.dataVer p ∧
  ImagePatch.imgVer p ≠ ImagePatch.dataVer p.

(** The compositor's operations. *)
Inductive Operation : Type :=
  | CallDrawLine (fromPoint toPoint : QPointF) (pen : QPen)
  | CallOnLayerDirty (layerNr : nat) (rect : QRect)
  | CallInvalidateRect (rect : QRect)
  | CallDrawBackground (rect : QRectF).

Definition perform (op : Operation) : Prog Scene unit :=
  match op with
  | CallDrawLine a b pen => ImageScene2D.drawLine a b pen
  | CallOnLayerDirty layerNr rect => ImageScene2D._onLayerDirty layerNr rect
  | CallInvalidateRect rect => ImageScene2D._invalidateRect rect
  | CallDrawBackground rect => ImageScene2D.drawBackground rect
  end.

(** The state after a sequence of operations; an operation that ends with
    an exception leaves its mutations behind. *)
Definition run (ops : list Operation) (s : Scene) : Scene :=
  fold_left (fun s op => (perform op s).1) ops s.

(** The requests a list of events holds, in order. *)
Definition requests (evs : list Event) : list (nat * nat) :=
  flat_map
    (fun e => match e with RequestPatch layerNr tileId => [(layerNr, tileId)] | _ => [] end)
    evs.

(** How often [cancelAll] was called. *)
Definition cancellations (evs : list Event) : nat :=
  length (List.filter (fun e => match e with CancelAll => true | _ => false end) evs).

(** ** Notions used in the statements *)

(** [preserves I m]: whatever way [m] ends, it leaves [I] standing. *)
Definition preserves {St A} (I : St -> Prop) (m : Prog St A) : Prop :=
  ∀ s, I s -> I (m s).1.

(** Every patch of every layer satisfies [versions_ok]. *)
Definition all_versions_ok (s : Scene) : Prop :=
  ∀ r p, patchAt r s = Some p -> versions_ok p.

(** The state [request_patch] leaves when its debug line raises. *)
Definition stuck_at (layerNr tileId : nat) (p : ImagePatch.t) (s : Scene) : Scene :=
  set_printLock true
    (set_patch (ImageLayer layerNr, tileId) (ImagePatch.set_mutex true p) s).

(** What the two reset loops of [_invalidateRect] do to one patch. *)
Definition cleared (p : ImagePatch.t) : ImagePatch.t :=
  ImagePatch.set_imgVer (ImagePatch.dataVer p) (ImagePatch.set_image (Fill 0) p).
Definition bumped (p : ImagePatch.t) : ImagePatch.t :=
  ImagePatch.set_dataVer (ImagePatch.dataVer p + 1) p.

(** The state after the reset block of a full invalidation. *)
Definition reset_state (s : Scene) : Scene :=
  set_imageLayers (map (map bumped) (_imageLayers s))
    (set_brushingLayer (map cleared (_brushingLayer s))
       (set_updatableTiles []
          (set_events (events s ++ [CancelAll]) s))).

(** What a visit of the request loop makes of a patch. *)
Definition visit (p : ImagePatch.t) : ImagePatch.t :=
  if ImagePatch.needsRequest p
  then ImagePatch.set_reqVer (ImagePatch.dataVer p) p
  else p.

(** The patches a pass over the tiles [ts] visits, in order. *)
Definition visits (n : nat) (ts : list nat) : list (nat * nat) :=
  flat_map (fun t => map (fun l => (l, t)) (seq 0 n)) ts.

(** The scene [s'] reached from [s] when the request loop has visited the
    patches [V] (pairs of layer number and tile id): the visited patches are
    [visit]ed, the requests issued are those of the visited patches that
    needed one, each once, and nothing else differs. *)
Record requested (s : Scene) (V : list (nat * nat)) (s' : Scene) : Prop := {
  rq_wf : wf s';
  rq_frame : s' = set_events (events s') (set_imageLayers (_imageLayers s') s);
  rq_layers : length (_imageLayers s') = length (_imageLayers s);
  rq_patch :
    ∀ l t p, patchAt (ImageLayer l, t) s = Some p ->
      patchAt (ImageLayer l, t) s'
        = Some (if bool_decide ((l, t) ∈ V) then visit p else p);
  rq_events :
    ∃ rs, events s' = events s ++ map (fun r => RequestPatch r.1 r.2) rs ∧
      NoDup rs ∧
      ∀ l t, (l, t) ∈ rs <->
        (l, t) ∈ V ∧
        ∃ p, patchAt (ImageLayer l, t) s = Some p ∧ ImagePatch.needsRequest p = true
}.

(** ** Concrete objects used to exercise the definitions *)

Module Example.

(** An observable cache whose own [usedMemory] reports 100 bytes, and a
    parent that relies on the interface's body. *)
Definition child_cache : Operator.t :=
  Operator.mk ClsOpObservableCache "OpArrayCache" 2 "child"
    (Some ClsOpObservableCache) (Some 100) None None 0%Qc None [].

Definition parent_cache : Operator.t :=
  Operator.mk ClsOpObservableCache "OpCacheWrapper" 1 "parent" None
    None None None 0%Qc None [child_cache].

(** A managed cache that supplies no [freeMemory] of its own, with a plain
    operator and a cache among its children. *)
Definition plain_child : Operator.t :=
  Operator.mk ClsOperator "OpReader" 3 "reader" (Some ClsOpManagedCache)
    None None None 0%Qc None [].

Definition managed_cache : Operator.t :=
  Operator.mk ClsOpManagedCache "OpBlockedCache" 4 "blocked" (Some ClsOperator)
    (Some 4096) None None 0%Qc None [plain_child; child_cache].

Definition Zf (z : Z) : float := Q2Qc (inject_Z z).

(** A plane of four tiles in a row, each 10 by 10. *)
Definition tiles : list nat := [0; 1; 2; 3]%nat.

Definition tileRectF (i : nat) : QRectF :=
  mkQRectF (Zf (10 * Z.of_nat i)) (Zf 0) (Zf 10) (Zf 10).

Definition overlaps (x w : Z) (i : nat) : bool :=
  (x <? 10 * (Z.of_nat i + 1)) && (10 * Z.of_nat i <? x + w).

Definition ltb (a b : float) : bool := negb (Qle_bool b a).

Definition overlapsF (x w : float) (i : nat) : bool :=
  ltb x (Zf (10 * (Z.of_nat i + 1))) && ltb (Zf (10 * Z.of_nat i)) (x + w)%Qc.

Definition tiling : Tiling.t :=
  Tiling.mk 4
    (fun r =>
       if isValid r then List.filter (overlaps (rect_x r) (rect_width r)) tiles
       else tiles)
    (fun r => List.filter (overlapsF (rectF_x r) (rectF_width r)) tiles)
    (fun pt =>
       List.find
         (fun i => Qle_bool (Zf (10 * Z.of_nat i)) pt.1
                   && ltb pt.1 (Zf (10 * (Z.of_nat i + 1))))
         tiles)
    (map tileRectF tiles)
    (map tileRectF tiles).

Definition blank : ImagePatch.t := ImagePatch.mk (Fill 0) 0 0 0 false.

(** Four tiles, two image layers, nothing requested yet. *)
Definition scene : Scene :=
  mkScene tiling [replicate 4 blank; replicate 4 blank] (replicate 4 blank)
    (replicate 4 blank) (replicate 4 0%Qc) 2 [] false false [].

(** The same scene before any layer is attached. *)
Definition empty_scene : Scene :=
  mkScene tiling [] (replicate 4 blank) (replicate 4 blank) (replicate 4 0%Qc)
    0 [] false false [].

(** Layer 1 has new data for tile 2 that was neither rendered nor
    requested; [verbose] is the value of [volumina.verboseRequests]. *)
Definition dirty : ImagePatch.t := ImagePatch.mk (Fill 0) 1 0 0 false.

Definition stale_scene (verbose : bool) : Scene :=
  mkScene tiling [replicate 4 blank; <[2%nat := dirty]> (replicate 4 blank)]
    (replicate 4 blank) (replicate 4 blank) (replicate 4 0%Qc) 2 [] verbose
    false [].

(** The rectangle of tile 2, in both coordinate types. *)
Definition tile2 : QRect := mkQRect 20 0 10 10.
Definition tile2F : QRectF := tileRectF 2.

End Example.

(** ** The report as a tree *)

Module ReportTree.

(** The nodes of a report: the node itself, then, child by child, the
    nodes below it. *)
Fixpoint nodes (r : MemInfoNode.t) : list MemInfoNode.t :=
  r :: flat_map nodes (MemInfoNode.children r).

(** The objects [generateReport] is called on when it starts at [self]:
    [self], then, child by child, what the call on a child that is an
    [OpCache] reaches. *)
Fixpoint caches (self : Operator.t) : list Operator.t :=
  self ::
  flat_map
    (fun child =>
       if Operator.isinstance child ClsOpCache then caches child else [])
    (Operator.children self).

(** The attributes of a node other than its children. *)
Definition fields (r : MemInfoNode.t) :=
  (MemInfoNode.type r, MemInfoNode.id r, MemInfoNode.name r,
   MemInfoNode.usedMemory r, MemInfoNode.fractionOfUsedMemoryDirty r,
   MemInfoNode.lastAccessTime r,
   MemInfoNode.dtype r, MemInfoNode.roi r, MemInfoNode.info r).

(** What the three levels of [generateReport] assign on a new node, by the
    interfaces [self] is an instance of. *)
Definition assigned (self : Operator.t) :=
  (Some (Operator.typeName self), Some (Operator.id self),
   Some (Operator.name self),
   (if Operator.isinstance self ClsOpObservableCache
    then Some (OpObservableCache.usedMemory self) else None),
   (if Operator.isinstance self ClsOpObservableCache
    then Some (OpObservableCache.fractionOfUsedMemoryDirty self) else None),
   (if Operator.isinstance self ClsOpManagedCache
    then Some (OpManagedCache.lastAccessTime self) else None),
   @None string, @None string, @None string).

End ReportTree.

(** ** The indicator's pie charts *)

(** The calls [DirtyIndicator.paint] makes on its [QPainter]. *)
Inductive PainterCall : Type :=
  | setOpacity (opacity : float)
  | save
  | setBrush (color : Z * Z * Z)
  | setPen (color : Z * Z * Z)
  | drawPie (rectangle : QRectF) (startAngle spanAngle : Z)
  | restore.

(** Arithmetic on doubles.  A finite double is a rational, and the result
    of an operation is the double nearest to the exact result, the one with
    the even mantissa when two are equally near (IEEE 754 binary64, round to
    nearest even).  Overflow to infinity and NaN are left out: the values
    the indicator computes with are far below [2^1024]. *)

(** The integer nearest to a rational, the even one of two equally near. *)
Definition round_half_even (q : Q) : Z :=
  let n := Qnum q in
  let d := Zpos (Qden q) in
  let f := n / d in
  match 2 * (n mod d) ?= d with
  | Lt => f
  | Gt => f + 1
  | Eq => if Z.even f then f else f + 1
  end.

(** For [q] other than 0, the exponent [e] with [2^e <= |q| < 2^(e+1)]. *)
Definition binade (q : Q) : Z :=
  let e := Z.log2 (Z.abs (Qnum q)) - Z.log2 (Zpos (Qden q)) in
  if Qle_bool (Qpower 2 e) (Z.abs (Qnum q) # Qden q) then e else e - 1.

(** The double nearest to [q]: a mantissa of 53 bits, and the spacing of the
    smallest normal numbers below them. *)
Definition round64 (q : Q) : Q :=
  if Qeq_bool q 0 then 0%Q
  else
    let ulp := Qpower 2 (Z.max (binade q) (-1022) - 52) in
    (inject_Z (round_half_even (q / ulp)) * ulp)%Q.

Definition fadd (a b : float) : float := Q2Qc (round64 (a + b)).
Definition fsub (a b : float) : float := Q2Qc (round64 (a - b)).
Definition fmul (a b : float) : float := Q2Qc (round64 (a * b)).
Definition fdiv (a b : float) : float := Q2Qc (round64 (a / b)).

(** [QRectF.center()] and the constructor [QRectF(topLeft, size)]. *)
Definition center (r : QRectF) : QPointF :=
  (fadd (rectF_x r) (fdiv (rectF_width r) (Q2Qc (inject_Z 2))),
   fadd (rectF_y r) (fdiv (rectF_height r) (Q2Qc (inject_Z 2)))).

Definition QRectF_at (topLeft size : QPointF) : QRectF :=
  mkQRectF topLeft.1 topLeft.2 size.1 size.2.

(** [int(x)]: the integer part, rounding towards zero. *)
Definition int (x : float) : Z := Z.quot (Qnum x) (Zpos (Qden x)).

(** [min(w, h)] of two floats: the first unless the second is smaller. *)
Definition float_min (w h : float) : float := if Qle_bool w h then w else h.

(** [DirtyIndicator.__init__]: [numpy.zeros(len(tiling))]. *)
Definition DirtyIndicator___init__ (tiling : Tiling.t) : list float :=
  replicate (Tiling.len tiling) 0%Qc.

(** The rectangle of the pie drawn on a tile with rectangle [p]:
    [QRectF(p.center()-QPointF(r/4,r/4), QSizeF(r/2, r/2))] with
    [r = min(w,h)]. *)
Definition pie_rectangle (p : QRectF) : QRectF :=
  let w := rectF_width p in
  let h := rectF_height p in
  let r := float_min w h in
  let c := center p in
  QRectF_at
    (fsub c.1 (fdiv r (Q2Qc (inject_Z 4))), fsub c.2 (fdiv r (Q2Qc (inject_Z 4))))
    (fdiv r (Q2Qc (inject_Z 2)), fdiv r (Q2Qc (inject_Z 2))).

(** The span of the pie, in sixteenths of a degree, at progress [v]:
    [min(360*16, int((1.0-v)*360.0) * 16)]. *)
Definition pie_spanAngle (v : float) : Z :=
  Z.min (360 * 16) (int (fmul (fsub 1%Qc v) (Q2Qc (inject_Z 360))) * 16).

(** [DirtyIndicator.paint], as a program on the list of calls the painter
    has received.  The indicator reads the tiling and the progress array the
    scene holds; reading the array past its end raises.  The local
    [doneColor] of the method is never used. *)
Definition DirtyIndicator_paint (s : Scene) : Prog (list PainterCall) unit :=
  let call := fun c : PainterCall => modify (fun calls => calls ++ [c]) in
  let dirtyColor := (255, 0, 0) in
  call (setOpacity (Q2Qc (1 # 2)));;
  call save;;
  call (setBrush dirtyColor);;
  call (setPen dirtyColor);;
  forM_ (zip (seq 0 (length (Tiling.rectF (_tiling s)))) (Tiling.rectF (_tiling s)))
    (fun '(i, p) =>
       match _indicate s !! i with
       | None => raise IndexError
       | Some v =>
           if Qc_eq_bool v 1%Qc then mret tt
           else
             let rectangle := pie_rectangle p in
             let startAngle := 0 * 16 in
             let spanAngle := pie_spanAngle v in
             call (drawPie rectangle startAngle spanAngle)
       end);;
  call restore.

(** The pies among the painter's calls, in order. *)
Definition pies (calls : list PainterCall) : list (QRectF * Z * Z) :=
  flat_map
    (fun c => match c with drawPie r a b => [(r, a, b)] | _ => [] end)
    calls.

(** The pie of one tile, if any, and the pies of all tiles, in tile order. *)
Definition pie_of (p : QRectF) (v : float) : list (QRectF * Z * Z) :=
  if Qc_eq_bool v 1%Qc then [] else [(pie_rectangle p, 0, pie_spanAngle v)].

Definition tile_pies (s : Scene) : list (QRectF * Z * Z) :=
  flat_map (fun '(p, v) => pie_of p v)
    (zip (Tiling.rectF (_tiling s)) (_indicate s)).

(** ** Notions used in the statements on the remaining methods *)

(** The images handed to the painter, in order. *)
Definition painted (evs : list Event) : list QImage :=
  flat_map (fun e => match e with PaintImage img => [img] | _ => [] end) evs.

(** The rectangles [QGraphicsScene.invalidate] was called with, in order. *)
Definition invalidated (evs : list Event) : list QRectF :=
  flat_map (fun e => match e with Invalidate r => [r] | _ => [] end) evs.

(** How often a tile id occurs in a list of tile ids. *)
Definition occurrences (tileId : nat) (ts : list nat) : nat :=
  length (List.filter (Nat.eqb tileId) ts).

(** The number of image layers whose patch on a tile has
    [imgVer != dataVer]. *)
Definition dirty_layers (s : Scene) (tileId : nat) : nat :=
  length
    (List.filter
       (fun layer =>
          match layer !! tileId with
          | Some p => ImagePatch.isDirty p
          | None => false
          end)
       (_imageLayers s)).

(** The value [1.0 - numDirtyLayers/float(numLayers)]. *)
Definition progress_value (numDirtyLayers numLayers : nat) : float :=
  (1 - Q2Qc (inject_Z (Z.of_nat numDirtyLayers))
       / Q2Qc (inject_Z (Z.of_nat numLayers)))%Qc.

(** What a stroke ending on a tile makes of the tile's brushing patch; [tL]
    is the top left corner of the tile's image rectangle. *)
Definition stroked (fromPoint toPoint tL : QPointF) (pen : QPen)
    (p : ImagePatch.t) : ImagePatch.t :=
  bumped
    (ImagePatch.set_image
       (DrawLine (ImagePatch.image p) (QPointF_sub fromPoint tL)
          (QPointF_sub toPoint tL) pen) p).

(** The buffers a foreground pass over the tiles [ts] paints: those of the
    brushing patches with [dataVer != imgVer], in order. *)
Definition strokes_to_paint (s : Scene) (ts : list nat) : list QImage :=
  flat_map
    (fun tileId =>
       match _brushingLayer s !! tileId with
       | Some p =>
           if ImagePatch.dataVer p =? ImagePatch.imgVer p then []
           else [ImagePatch.image p]
       | None => []
       end)
    ts.

(** The buffers of the composite patches on the tiles [ts], in order. *)
Definition composite_images (s : Scene) (ts : list nat) : list QImage :=
  flat_map
    (fun tileId =>
       match _compositeLayer s !! tileId with
       | Some p => [ImagePatch.image p]
       | None => []
       end)
    ts.

(** The calls the loop of [_invalidateRect] makes for the tiles [ts]:
    [update] of the indicator and [invalidate] of the tile's rectangle. *)
Definition tile_events (s : Scene) (ts : list nat) : list Event :=
  flat_map
    (fun tileId =>
       match Tiling.rectF (_tiling s) !! tileId with
       | Some r => [IndicatorUpdate; Invalidate r]
       | None => []
       end)
    ts.

(** What no operation changes: the tiling, the verbose flag, the layer
    count and the number of image layers. *)
Definition same_shape (s0 s : Scene) : Prop :=
  _tiling s = _tiling s0 ∧ verboseRequests s = verboseRequests s0 ∧
  _numLayers s = _numLayers s0 ∧
  length (_imageLayers s) = length (_imageLayers s0).

(** Every operation of a sequence, run from [s], returns. *)
Fixpoint all_return (ops : list Operation) (s : Scene) : Prop :=
  match ops with
  | [] => True
  | op :: ops => (perform op s).2 = Return tt ∧ all_return ops (perform op s).1
  end.

(** The arguments the scene's callers pass: a stroke ends on a tile the
    tiling has, and a dirty mark names a layer the scene has. *)
Definition admissible (s : Scene) (op : Operation) : Prop :=
  match op with
  | CallDrawLine _ toPoint _ =>
      ∀ tileId, Tiling.containsF (_tiling s) toPoint = Some tileId ->
        (tileId < Tiling.len (_tiling s))%nat
  | CallOnLayerDirty layerNr _ => (layerNr < length (_imageLayers s))%nat
  | _ => True
  end.

(** ** Creating operators *)

Module OperatorMetaClass.


End OperatorMetaClass.




(** ** More objects to exercise the definitions *)

Module Sample.

(** A cache that holds a plain operator, which in turn holds a cache, and
    next to it the managed cache of [Example]. *)
Definition hidden_cache : Operator.t :=
  Operator.mk ClsOpManagedCache "OpBlockedArrayCache" 7 "hidden"
    (Some ClsOperator) (Some 512) None None 0%Qc None [].

Definition wrapper : Operator.t :=
  Operator.mk ClsOperator "OpWrapper" 6 "wrapper" (Some ClsOpCache)
    None None None 0%Qc None [hidden_cache].

Definition root_cache : Operator.t :=
  Operator.mk ClsOpCache "OpCacheRoot" 5 "root" None
    None None None 0%Qc None [wrapper; Example.managed_cache].

(** The end points of a stroke inside tile 2. *)
Definition fromPoint : QPointF := (Example.Zf 22, Example.Zf 3).
Definition toPoint : QPointF := (Example.Zf 27, Example.Zf 8).

(** The scene of [Example] with a stroke on tile 2 that was not painted
    yet. *)
Definition stroke : ImagePatch.t :=
  ImagePatch.mk
    (DrawLine (Fill 0) (Example.Zf 2, Example.Zf 3) (Example.Zf 7, Example.Zf 8) 1)
    1 0 0 false.

Definition brushed_scene : Scene :=
  mkScene Example.tiling [replicate 4 Example.blank; replicate 4 Example.blank]
    (replicate 4 Example.blank) (<[2%nat := stroke]> (replicate 4 Example.blank))
    (replicate 4 0%Qc) 2 [] false false [].

(** A sequence of calls on the scene of [Example]. *)
Definition session : list Operation :=
  [CallOnLayerDirty 1 Example.tile2;
   CallDrawLine fromPoint toPoint 1;
   CallDrawBackground Example.tile2F;
   CallInvalidateRect QRect_null;
   CallDrawBackground Example.tile2F].

End Sample.

(** * Properties of the cache interfaces *)

Lemma flat_map_filter_map {A B} (keep : A -> bool) (f : A -> B) (l : list A) :
  flat_map (fun x => if negb (keep x) then [] else [f x]) l
  = map f (List.filter keep l).
Proof.
  induction l as [|x l IH]; simpl; [done|].
  destruct (keep x); simpl; by rewrite IH.
Qed.

(** The interface's body of [usedMemory] yields 0 whatever the children
    report. *)
Lemma usedMemory_default (self : Operator.t) :
  Operator.usedMemory_own self = None ->
  OpObservableCache.usedMemory self = 0.
Proof. destruct self as [? ? ? ? ? own ? ? ? ? ?]; simpl. by intros ->. Qed.

(** C1.  On a cache with one observable child that reports 100 bytes, the
    interface's body of [usedMemory] has accumulated [total = 100] and
    returns 0. *)
Theorem usedMemory_discards_total :
  OpObservableCache.usedMemory Example.parent_cache = 0 ∧
  OpObservableCache.usedMemory_total Example.parent_cache = 100 ∧
  0 ≤ OpObservableCache.usedMemory Example.parent_cache.
Proof. by vm_compute. Qed.

(** C6.  [generateReport] on a cache sets the node's type, id and name and
    makes its children the reports of the children that are caches, one each
    and in the children's order; each subclass runs its superclass's body and
    then sets its own fields, so the report of a managed cache carries
    [usedMemory], [fractionOfUsedMemoryDirty] and [lastAccessTime]. *)
Theorem generateReport_layers (self : Operator.t) (node : MemInfoNode.t) :
  Operator.isinstance self ClsOpCache = true ->
  let r := Report.generateReport self node in
  (MemInfoNode.type r = Some (Operator.typeName self) ∧
   MemInfoNode.id r = Some (Operator.id self) ∧
   MemInfoNode.name r = Some (Operator.name self) ∧
   MemInfoNode.children r =
     map (fun child => Report.generateReport child MemInfoNode.__init__)
       (List.filter (fun child => Operator.isinstance child ClsOpCache)
          (Operator.children self))) ∧
  (Operator.isinstance self ClsOpObservableCache = true ->
   MemInfoNode.usedMemory r = Some (OpObservableCache.usedMemory self) ∧
   MemInfoNode.fractionOfUsedMemoryDirty r
     = Some (OpObservableCache.fractionOfUsedMemoryDirty self)) ∧
  (Operator.isinstance self ClsOpManagedCache = true ->
   MemInfoNode.lastAccessTime r = Some (OpManagedCache.lastAccessTime self) ∧
   r = MemInfoNode.set_lastAccessTime (OpManagedCache.lastAccessTime self)
         (MemInfoNode.set_observable (OpObservableCache.usedMemory self)
            (OpObservableCache.fractionOfUsedMemoryDirty self)
            (Report.OpCache_generateReport Report.generateReport self node))).
Proof.
  intros Hcache r. subst r.
  destruct self as [c ty i n par um fr la lat fm ch].
  unfold Operator.isinstance in *; simpl in Hcache.
  destruct c; try discriminate; simpl;
    unfold Report.OpManagedCache_generateReport,
      Report.OpObservableCache_generateReport, Report.OpCache_generateReport;
    simpl; rewrite flat_map_filter_map;
    repeat split; try done; intros; discriminate.
Qed.

Lemma usedMemory_default_witness :
  OpObservableCache.usedMemory Example.parent_cache = 0.
Proof. exact (usedMemory_default Example.parent_cache eq_refl). Defined.

Lemma generateReport_layers_witness :
  MemInfoNode.children (Report.generateReport Example.managed_cache MemInfoNode.__init__)
  = [Report.generateReport Example.child_cache MemInfoNode.__init__] ∧
  MemInfoNode.usedMemory (Report.generateReport Example.managed_cache MemInfoNode.__init__)
  = Some 4096.
Proof.
  destruct (generateReport_layers Example.managed_cache MemInfoNode.__init__ eq_refl)
    as [(_ & _ & _ & Hch) [Hobs _]].
  split; [exact Hch | exact (proj1 (Hobs eq_refl))].
Defined.

(** C7.  [freeMemory] on a managed cache that supplies no body of its own
    ends with [NotImplementedError]; it does not return, and in particular
    does not return 0. *)
Theorem freeMemory_not_implemented (self : Operator.t) :
  Operator.freeMemory_own self = None ->
  OpManagedCache.freeMemory self
    = inl (NotImplementedError "No default implementation for freeMemory()") ∧
  ∀ freed : Z, OpManagedCache.freeMemory self ≠ inr freed.
Proof.
  intros H. unfold OpManagedCache.freeMemory. rewrite H. split; [done|].
  intros freed; discriminate.
Qed.

Lemma freeMemory_not_implemented_witness :
  OpManagedCache.freeMemory Example.managed_cache
    = inl (NotImplementedError "No default implementation for freeMemory()") ∧
  ∀ freed : Z, OpManagedCache.freeMemory Example.managed_cache ≠ inr freed.
Proof. exact (freeMemory_not_implemented Example.managed_cache eq_refl). Defined.

(** X15.  [_after_init] first runs the superclass's [_after_init] and then
    makes exactly one call to the manager: [addFirstClassCache] when the
    cache has no parent or a parent that is no cache, [addCache] otherwise.
    Provided the superclass's method does not call the manager itself, the
    manager has received that one call more and nothing else. *)
Theorem after_init_registers_once {G}
    (Operator__after_init : Operator.t -> OpCache.Process G -> OpCache.Process G)
    (self : Operator.t) (w : OpCache.Process G) :
  (∀ o w', OpCache.manager (Operator__after_init o w') = OpCache.manager w') ->
  let w1 := OpCache._after_init Operator__after_init self w in
  let firstClass :=
    match Operator.parent self with
    | None => true
    | Some parent => negb (subclass parent ClsOpCache)
    end in
  OpCache.graph w1 = OpCache.graph (Operator__after_init self w) ∧
  OpCache.manager w1 =
    OpCache.manager w ++
      [if firstClass then CacheMemoryManager.addFirstClassCache (Operator.id self)
       else CacheMemoryManager.addCache (Operator.id self)].
Proof.
  intros Hsuper. simpl. unfold OpCache._after_init.
  destruct (match Operator.parent self with None => true | Some p => _ end);
    simpl; by rewrite Hsuper.
Qed.

Lemma after_init_registers_once_witness :
  OpCache.manager
    (OpCache._after_init (fun _ w => w) Example.child_cache (OpCache.mkProcess tt []))
  = [CacheMemoryManager.addCache 2] ∧
  OpCache.manager
    (OpCache._after_init (fun _ w => w) Example.managed_cache (OpCache.mkProcess tt []))
  = [CacheMemoryManager.addFirstClassCache 4].
Proof.
  split.
  - exact (proj2 (after_init_registers_once (fun _ w => w) Example.child_cache
                    (OpCache.mkProcess tt []) (fun _ _ => eq_refl))).
  - exact (proj2 (after_init_registers_once (fun _ w => w) Example.managed_cache
                    (OpCache.mkProcess tt []) (fun _ _ => eq_refl))).
Defined.

(** ** Registration on creation *)








(** * Reasoning about programs *)

Lemma bind_unfold {St A B} (m : Prog St A) (k : A -> Prog St B) (s : St) :
  (m ≫= k) s =
    match m s with
    | (s', Return a) => k a s'
    | (s', Raise e) => (s', Raise e)
    | (s', Blocked) => (s', Blocked)
    end.
Proof. reflexivity. Qed.

Lemma bind_Return {St A B} (m : Prog St A) (k : A -> Prog St B) s s' a :
  m s = (s', Return a) -> (m ≫= k) s = k a s'.
Proof. intros H. by rewrite bind_unfold, H. Qed.

Lemma bind_Raise {St A B} (m : Prog St A) (k : A -> Prog St B) s s' e :
  m s = (s', Raise e) -> (m ≫= k) s = (s', Raise e).
Proof. intros H. by rewrite bind_unfold, H. Qed.

Lemma bind_inv_Return {St A B} (m : Prog St A) (k : A -> Prog St B) s s2 b :
  (m ≫= k) s = (s2, Return b) ->
  ∃ a s1, m s = (s1, Return a) ∧ k a s1 = (s2, Return b).
Proof.
  rewrite bind_unfold. destruct (m s) as [s1 [a|e|]]; intros H; [eauto|done|done].
Qed.

Lemma preserves_ret {St A} (I : St -> Prop) (a : A) : preserves I (mret a).
Proof. by intros s H. Qed.

Lemma preserves_raise {St A} (I : St -> Prop) (e : Exn) :
  preserves I (raise e : Prog St A).
Proof. by intros s H. Qed.

Lemma preserves_gets {St A} (I : St -> Prop) (f : St -> A) : preserves I (gets f).
Proof. by intros s H. Qed.

Lemma preserves_modify {St} (I : St -> Prop) (f : St -> St) :
  (∀ s, I s -> I (f s)) -> preserves I (modify f).
Proof. intros Hf s H. by apply Hf. Qed.

Lemma preserves_bind {St A B} (I : St -> Prop) (m : Prog St A) (k : A -> Prog St B) :
  preserves I m -> (∀ a, preserves I (k a)) -> preserves I (m ≫= k).
Proof.
  intros Hm Hk s H. rewrite bind_unfold. specialize (Hm s H).
  destruct (m s) as [s1 [a|e|]]; simpl in *; [by apply Hk|done|done].
Qed.

Lemma preserves_when {St} (I : St -> Prop) (b : bool) (m : Prog St unit) :
  preserves I m -> preserves I (when b m).
Proof. destruct b; [done|]. intros _. apply preserves_ret. Qed.

Lemma preserves_forM_ {St X} (I : St -> Prop) (xs : list X) (body : X -> Prog St unit) :
  (∀ x, preserves I (body x)) -> preserves I (forM_ xs body).
Proof.
  intros Hb. induction xs as [|x xs IH]; simpl; [apply preserves_ret|].
  apply preserves_bind; [apply Hb | by intros _].
Qed.

Lemma preserves_foldM {St X B} (I : St -> Prop) (body : B -> X -> Prog St B) xs acc :
  (∀ b x, preserves I (body b x)) -> preserves I (foldM body xs acc).
Proof.
  intros Hb. revert acc. induction xs as [|x xs IH]; intros acc; simpl;
    [apply preserves_ret|].
  apply preserves_bind; [apply Hb | intros b; apply IH].
Qed.

Lemma preserves_mapM {St X B} (I : St -> Prop) (f : X -> Prog St B) xs :
  (∀ x, preserves I (f x)) -> preserves I (mapM f xs).
Proof.
  intros Hf. induction xs as [|x xs IH]; simpl; [apply preserves_ret|].
  apply preserves_bind; [apply Hf | intros y].
  apply preserves_bind; [apply IH | intros ys; apply preserves_ret].
Qed.

(** The objects a [forEach] loop has walked over: each one is the result of
    the body on the object that was there, or still that object. *)
Lemma forEach_Forall2 {X} (R : X -> X -> Prop) (body : Prog X unit) (xs : list X) :
  (∀ x, R x x) -> (∀ x, R x (body x).1) -> Forall2 R xs (forEach body xs).1.
Proof.
  intros Hrefl Hb. induction xs as [|x xs IH]; simpl; [constructor|].
  specialize (Hb x). destruct (body x) as [x' [[]|e|]]; simpl in *.
  - destruct (forEach body xs) as [rest' o]; simpl in *. by constructor.
  - constructor; [done|]. by apply Forall2_same_length_lookup_2; [|intros ??? -> [= ->]].
  - constructor; [done|]. by apply Forall2_same_length_lookup_2; [|intros ??? -> [= ->]].
Qed.

(** A [forEach] loop whose body returns on every object is a [map]. *)
Lemma forEach_map {X} (f : X -> X) (body : Prog X unit) (xs : list X) :
  (∀ x, x ∈ xs -> body x = (f x, Return tt)) ->
  forEach body xs = (map f xs, Return tt).
Proof.
  induction xs as [|x xs IH]; intros Hb; simpl; [done|].
  rewrite (Hb x) by left. rewrite IH; [done|].
  intros y Hy. apply Hb. by right.
Qed.

(** * Patches of a scene *)

Lemma patchAt_set_patch_eq r p s :
  is_Some (patchAt r s) -> patchAt r (set_patch r p s) = Some p.
Proof.
  destruct r as [[l| |] t]; unfold patchAt, set_patch; simpl; intros [q Hq].
  - rewrite list_lookup_alter_eq.
    destruct (_imageLayers s !! l) as [layer|]; simpl in *; [|done].
    apply list_lookup_insert_eq. by eapply lookup_lt_Some.
  - apply list_lookup_insert_eq. by eapply lookup_lt_Some.
  - apply list_lookup_insert_eq. by eapply lookup_lt_Some.
Qed.

Lemma patchAt_set_patch_ne r r' p s :
  r ≠ r' -> patchAt r' (set_patch r p s) = patchAt r' s.
Proof.
  destruct r as [[l| |] t], r' as [[l'| |] t']; unfold patchAt, set_patch;
    simpl; intros Hne; try done.
  - destruct (decide (l = l')) as [->|Hl].
    + rewrite list_lookup_alter_eq.
      destruct (_imageLayers s !! l') as [layer|]; simpl; [|done].
      apply list_lookup_insert_ne. congruence.
    + by rewrite list_lookup_alter_ne.
  - apply list_lookup_insert_ne. congruence.
  - apply list_lookup_insert_ne. congruence.
Qed.

(** Every patch of the scene after a store is the stored one or was there
    before. *)
Lemma patchAt_set_patch_inv r r' p q s :
  patchAt r' (set_patch r p s) = Some q -> q = p ∨ patchAt r' s = Some q.
Proof.
  destruct (decide (r = r')) as [<-|Hne].
  - destruct (patchAt r s) as [p0|] eqn:E.
    + rewrite patchAt_set_patch_eq by eauto. intros [= ->]. by left.
    + intros H. right. rewrite <- H. clear H.
      destruct r as [[l| |] t]; unfold patchAt, set_patch in *; simpl in *.
      * rewrite list_lookup_alter_eq.
        destruct (_imageLayers s !! l) as [layer|]; simpl in *; [|done].
        rewrite list_insert_ge; [done|]. by apply lookup_ge_None.
      * rewrite list_insert_ge; [done|]. by apply lookup_ge_None.
      * rewrite list_insert_ge; [done|]. by apply lookup_ge_None.
  - rewrite patchAt_set_patch_ne by done. by right.
Qed.

Lemma set_patch_id r p s : patchAt r s = Some p -> set_patch r p s = s.
Proof.
  destruct s, r as [[l| |] t]; unfold patchAt, set_patch; simpl; intros H.
  - unfold set_imageLayers; simpl. f_equal.
    apply list_eq. intros i. destruct (decide (l = i)) as [<-|Hne].
    + rewrite list_lookup_alter_eq.
      destruct (_ !! l) as [layer|]; simpl in *; [|done].
      by rewrite list_insert_id.
    + by rewrite list_lookup_alter_ne.
  - unfold set_compositeLayer; simpl. by rewrite list_insert_id.
  - unfold set_brushingLayer; simpl. by rewrite list_insert_id.
Qed.

Lemma set_patch_set_patch r p1 p2 s :
  set_patch r p2 (set_patch r p1 s) = set_patch r p2 s.
Proof.
  destruct s, r as [[l| |] t]; unfold set_patch; simpl.
  - unfold set_imageLayers; simpl. f_equal.
    rewrite list_alter_alter_eq. apply list_alter_ext; [|done].
    intros layer _. simpl. apply list_insert_insert_eq.
  - unfold set_compositeLayer; simpl. by rewrite list_insert_insert_eq.
  - unfold set_brushingLayer; simpl. by rewrite list_insert_insert_eq.
Qed.

Lemma set_patch_set_events r p evs s :
  set_patch r p (set_events evs s) = set_events evs (set_patch r p s).
Proof. by destruct r as [[l| |] t]. Qed.

Lemma set_patch_set_printLock r p b s :
  set_patch r p (set_printLock b s) = set_printLock b (set_patch r p s).
Proof. by destruct r as [[l| |] t]. Qed.

Lemma patchAt_set_events r evs s : patchAt r (set_events evs s) = patchAt r s.
Proof. by destruct r as [[l| |] t]. Qed.

Lemma patchAt_set_printLock r b s : patchAt r (set_printLock b s) = patchAt r s.
Proof. by destruct r as [[l| |] t]. Qed.

Lemma patchAt_set_indicate r v s : patchAt r (set_indicate v s) = patchAt r s.
Proof. by destruct r as [[l| |] t]. Qed.

Lemma patchAt_set_updatableTiles r v s :
  patchAt r (set_updatableTiles v s) = patchAt r s.
Proof. by destruct r as [[l| |] t]. Qed.

Lemma events_set_patch r p s : events (set_patch r p s) = events s.
Proof. by destruct r as [[l| |] t]. Qed.

Lemma verboseRequests_set_patch r p s :
  verboseRequests (set_patch r p s) = verboseRequests s.
Proof. by destruct r as [[l| |] t]. Qed.

Lemma printLock_set_patch r p s : printLock (set_patch r p s) = printLock s.
Proof. by destruct r as [[l| |] t]. Qed.

Lemma getitem_run st tileId p s :
  patchAt (st, tileId) s = Some p ->
  getitem st tileId s = (s, Return (st, tileId)).
Proof. intros H. unfold getitem. by rewrite H. Qed.

Lemma withPatch_run {A} r (m : Prog ImagePatch.t A) p s :
  patchAt r s = Some p -> withPatch r m s = (set_patch r (m p).1 s, (m p).2).
Proof. intros H. unfold withPatch. rewrite H. by destruct (m p). Qed.

Lemma set_mutex_unlocked p v :
  ImagePatch.mutex p = v -> ImagePatch.set_mutex v p = p.
Proof. destruct p; simpl. by intros ->. Qed.

Lemma patchAt_set_patch_Some r p q s :
  patchAt r s = Some q -> patchAt r (set_patch r p s) = Some p.
Proof. intros H. apply patchAt_set_patch_eq. eauto. Qed.

Lemma withPatch_Return {A} r (m : Prog ImagePatch.t A) p p' a s :
  patchAt r s = Some p -> m p = (p', Return a) ->
  withPatch r m s = (set_patch r p' s, Return a).
Proof. intros H Hm. rewrite (withPatch_run _ _ _ _ H). by rewrite Hm. Qed.

Lemma lock_run p :
  ImagePatch.mutex p = false ->
  ImagePatch.lock p = (ImagePatch.set_mutex true p, Return tt).
Proof. unfold ImagePatch.lock. by intros ->. Qed.

Lemma needsRequest_set_mutex v p :
  ImagePatch.needsRequest (ImagePatch.set_mutex v p) = ImagePatch.needsRequest p.
Proof. reflexivity. Qed.

Lemma isDirty_set_mutex v p :
  ImagePatch.isDirty (ImagePatch.set_mutex v p) = ImagePatch.isDirty p.
Proof. reflexivity. Qed.

Lemma set_mutex_set_mutex v w p :
  ImagePatch.set_mutex v (ImagePatch.set_mutex w p) = ImagePatch.set_mutex v p.
Proof. reflexivity. Qed.

Lemma bind_assoc {St A B C} (m : Prog St A) (k : A -> Prog St B)
    (k' : B -> Prog St C) s :
  ((m ≫= k) ≫= k') s = (m ≫= λ a, k a ≫= k') s.
Proof. rewrite !bind_unfold. by destruct (m s) as [s1 [a|e|]]. Qed.

#[global] Arguments patchAt : simpl never.
#[global] Arguments set_patch : simpl never.

Create Rewrite HintDb scene.
#[global] Hint Rewrite set_patch_set_patch set_patch_set_events
  set_patch_set_printLock patchAt_set_events patchAt_set_printLock
  patchAt_set_indicate patchAt_set_updatableTiles events_set_patch
  verboseRequests_set_patch printLock_set_patch needsRequest_set_mutex
  isDirty_set_mutex set_mutex_set_mutex : scene.

(** Find the patch behind a reference in a state built from stores. *)
Ltac patch_fact :=
  solve [ eassumption
        | eapply patchAt_set_patch_Some; patch_fact
        | autorewrite with scene; eassumption
        | autorewrite with scene; eapply patchAt_set_patch_Some; patch_fact ].

(** Run the first statement of a sequence that returns. *)
Ltac step :=
  rewrite ?bind_assoc;
  erewrite bind_Return;
  [ | solve [ eapply getitem_run; patch_fact
            | eapply withPatch_Return;
              [ patch_fact
              | first [ apply lock_run; simpl; eassumption | reflexivity ] ]
            | reflexivity ] ];
  simpl.

(** * The request loop of [drawBackground] *)

(** A patch that is current or already requested is locked, tested and
    unlocked: nothing changes. *)
Lemma request_patch_skip tileId layerNr p s :
  patchAt (ImageLayer layerNr, tileId) s = Some p ->
  ImagePatch.mutex p = false ->
  ImagePatch.needsRequest p = false ->
  ImageScene2D.request_patch tileId layerNr s = (s, Return tt).
Proof.
  intros Hp Hm Hn. unfold ImageScene2D.request_patch.
  step. step. step. rewrite needsRequest_set_mutex, Hn. simpl. step.
  erewrite withPatch_Return; [|patch_fact|reflexivity]. simpl.
  autorewrite with scene.
  rewrite set_mutex_unlocked by done. by rewrite set_patch_id.
Qed.

(** A stale patch not yet requested at its data version, verbose flag off:
    one request is issued and [reqVer] becomes [dataVer]. *)
Lemma request_patch_issue tileId layerNr p s :
  patchAt (ImageLayer layerNr, tileId) s = Some p ->
  ImagePatch.mutex p = false ->
  ImagePatch.needsRequest p = true ->
  verboseRequests s = false ->
  ImageScene2D.request_patch tileId layerNr s
  = (set_events (events s ++ [RequestPatch layerNr tileId])
       (set_patch (ImageLayer layerNr, tileId)
          (ImagePatch.set_reqVer (ImagePatch.dataVer p) p) s),
     Return tt).
Proof.
  intros Hp Hm Hn Hv. unfold ImageScene2D.request_patch.
  step. step. step. rewrite needsRequest_set_mutex, Hn. simpl.
  step. autorewrite with scene. rewrite Hv. simpl. repeat step.
  erewrite withPatch_Return; [|patch_fact|reflexivity]. simpl.
  autorewrite with scene. do 3 f_equal.
  destruct p; simpl in *; by subst.
Qed.

(** The same patch with the verbose flag on: the debug line raises
    [NameError] with the patch's mutex and the print lock held, before the
    request is issued and before [reqVer] is set. *)
Lemma request_patch_verbose tileId layerNr p s :
  patchAt (ImageLayer layerNr, tileId) s = Some p ->
  ImagePatch.mutex p = false ->
  ImagePatch.needsRequest p = true ->
  verboseRequests s = true ->
  printLock s = false ->
  ImageScene2D.request_patch tileId layerNr s
  = (set_printLock true
       (set_patch (ImageLayer layerNr, tileId) (ImagePatch.set_mutex true p) s),
     Raise (NameError "Np")).
Proof.
  intros Hp Hm Hn Hv Hl. unfold ImageScene2D.request_patch.
  step. step. step. rewrite needsRequest_set_mutex, Hn. simpl.
  step. autorewrite with scene. rewrite Hv. simpl.
  rewrite ?bind_assoc. erewrite bind_Return.
  2:{ unfold printLock_acquire. autorewrite with scene. by rewrite Hl. }
  reflexivity.
Qed.

(** * Well-formed scenes *)

Lemma wf_image_patch s layerNr tileId :
  wf s -> (layerNr < length (_imageLayers s))%nat ->
  (tileId < Tiling.len (_tiling s))%nat ->
  ∃ p, patchAt (ImageLayer layerNr, tileId) s = Some p ∧ ImagePatch.mutex p = false.
Proof.
  intros Hwf Hl Ht.
  destruct (lookup_lt_is_Some_2 _ _ Hl) as [layer Hlayer].
  pose proof (wf_image s Hwf _ _ Hlayer) as Hlen.
  destruct (lookup_lt_is_Some_2 layer tileId) as [p Hp]; [lia|].
  assert (patchAt (ImageLayer layerNr, tileId) s = Some p) as H.
  { unfold patchAt; simpl. by rewrite Hlayer. }
  exists p. split; [done|]. by eapply wf_unlocked.
Qed.

Lemma wf_composite_patch s tileId :
  wf s -> (tileId < Tiling.len (_tiling s))%nat ->
  ∃ p, patchAt (CompositeLayer, tileId) s = Some p ∧ ImagePatch.mutex p = false.
Proof.
  intros Hwf Ht.
  destruct (lookup_lt_is_Some_2 (_compositeLayer s) tileId) as [p Hp].
  { rewrite (wf_composite s Hwf). lia. }
  exists p. split; [exact Hp|]. exact (wf_unlocked s Hwf (CompositeLayer, tileId) p Hp).
Qed.

(** A scene is well formed when its tiling is and its lists have the right
    lengths and hold unlocked patches only. *)
Lemma wf_from_lists s :
  (∀ rect tileId, tileId ∈ Tiling.intersected (_tiling s) rect ->
     (tileId < Tiling.len (_tiling s))%nat) ->
  (∀ rect tileId, tileId ∈ Tiling.intersectedF (_tiling s) rect ->
     (tileId < Tiling.len (_tiling s))%nat) ->
  Forall (fun layer => length layer = Tiling.len (_tiling s) ∧
            Forall (fun p => ImagePatch.mutex p = false) layer) (_imageLayers s) ->
  length (_compositeLayer s) = Tiling.len (_tiling s) ->
  Forall (fun p => ImagePatch.mutex p = false) (_compositeLayer s) ->
  length (_brushingLayer s) = Tiling.len (_tiling s) ->
  Forall (fun p => ImagePatch.mutex p = false) (_brushingLayer s) ->
  length (_indicate s) = Tiling.len (_tiling s) ->
  length (Tiling.rectF (_tiling s)) = Tiling.len (_tiling s) ->
  length (Tiling._imageRectF (_tiling s)) = Tiling.len (_tiling s) ->
  wf s.
Proof.
  intros Hi HiF Himg Hc Hcu Hb Hbu Hind Hr Hir.
  rewrite Forall_lookup in Himg. rewrite Forall_lookup in Hcu, Hbu.
  split; try done.
  - intros l layer Hl. by destruct (Himg _ _ Hl).
  - intros [[l| |] t] p; unfold patchAt; simpl.
    + destruct (_imageLayers s !! l) as [layer|] eqn:E; simpl; [|done].
      intros Hp. destruct (Himg _ _ E) as [_ Hu].
      rewrite Forall_lookup in Hu. by apply (Hu _ _ Hp).
    + apply Hcu.
    + apply Hbu.
Qed.

Lemma Example_tiling_intersected rect tileId :
  tileId ∈ Tiling.intersected Example.tiling rect -> (tileId < 4)%nat.
Proof.
  unfold Example.tiling; cbn [Tiling.intersected]. intros H.
  assert (tileId ∈ Example.tiles) as Hin.
  { destruct (isValid rect); [|done].
    apply list_elem_of_In in H. apply List.filter_In in H.
    apply list_elem_of_In. tauto. }
  unfold Example.tiles in Hin.
  repeat (apply elem_of_cons in Hin as [->|Hin]; [lia|]).
  by apply elem_of_nil in Hin.
Qed.

Lemma Example_tiling_intersectedF rect tileId :
  tileId ∈ Tiling.intersectedF Example.tiling rect -> (tileId < 4)%nat.
Proof.
  unfold Example.tiling; cbn [Tiling.intersectedF]. intros H.
  assert (tileId ∈ Example.tiles) as Hin.
  { apply list_elem_of_In in H. apply List.filter_In in H.
    apply list_elem_of_In. tauto. }
  unfold Example.tiles in Hin.
  repeat (apply elem_of_cons in Hin as [->|Hin]; [lia|]).
  by apply elem_of_nil in Hin.
Qed.

Ltac example_wf :=
  apply wf_from_lists;
  [ apply Example_tiling_intersected
  | apply Example_tiling_intersectedF
  | repeat constructor .. ].

Lemma Example_scene_wf : wf Example.scene.
Proof. example_wf. Qed.

Lemma Example_empty_scene_wf : wf Example.empty_scene.
Proof. example_wf. Qed.

Lemma Example_stale_scene_wf verbose : wf (Example.stale_scene verbose).
Proof. example_wf. Qed.

(** * The verbose request loop *)

(** With the verbose flag on, the layers of one tile are walked without any
    change up to the first patch that needs a request; there the walk ends
    with [NameError]. *)
Lemma request_layers_verbose tileId ls s :
  wf s -> verboseRequests s = true -> printLock s = false ->
  (tileId < Tiling.len (_tiling s))%nat ->
  (∀ l, l ∈ ls -> (l < length (_imageLayers s))%nat) ->
  (forM_ ls (ImageScene2D.request_patch tileId) s = (s, Return tt) ∧
   ∀ l p, l ∈ ls -> patchAt (ImageLayer l, tileId) s = Some p ->
     ImagePatch.needsRequest p = false)
  ∨ (∃ l p, l ∈ ls ∧ patchAt (ImageLayer l, tileId) s = Some p ∧
       ImagePatch.needsRequest p = true ∧
       forM_ ls (ImageScene2D.request_patch tileId) s
       = (stuck_at l tileId p s, Raise (NameError "Np"))).
Proof.
  intros Hwf Hv Hl Ht. induction ls as [|l ls IH]; intros Hls.
  - left. split; [done|]. intros l p Hin. by apply elem_of_nil in Hin.
  - destruct (wf_image_patch s l tileId Hwf) as (p & Hp & Hm); [apply Hls; left|done|].
    destruct (ImagePatch.needsRequest p) eqn:Hn.
    + right. exists l, p. split; [left|]. split; [done|]. split; [done|].
      simpl. erewrite bind_Raise; [done|]. by apply request_patch_verbose.
    + destruct IH as [[Hrun Hnone]|(l' & p' & Hin & Hp' & Hn' & Hrun)].
      { intros l' Hin. apply Hls. by right. }
      * left. split.
        -- simpl. erewrite bind_Return; [exact Hrun|]. by eapply request_patch_skip.
        -- intros l' p' Hin Hp'. apply elem_of_cons in Hin as [->|Hin].
           ++ congruence.
           ++ by eapply Hnone.
      * right. exists l', p'. split; [by right|]. split; [done|]. split; [done|].
        simpl. erewrite bind_Return; [exact Hrun|]. by eapply request_patch_skip.
Qed.

Lemma request_tiles_verbose ts s :
  wf s -> verboseRequests s = true -> printLock s = false ->
  (∀ t, t ∈ ts -> (t < Tiling.len (_tiling s))%nat) ->
  let loop :=
    forM_ ts ImageScene2D.request_tile in
  (loop s = (s, Return tt) ∧
   ∀ l t p, t ∈ ts -> patchAt (ImageLayer l, t) s = Some p ->
     ImagePatch.needsRequest p = false)
  ∨ (∃ l t p, t ∈ ts ∧ patchAt (ImageLayer l, t) s = Some p ∧
       ImagePatch.needsRequest p = true ∧
       loop s = (stuck_at l t p s, Raise (NameError "Np"))).
Proof.
  intros Hwf Hv Hl. induction ts as [|t ts IH]; intros Hts loop; subst loop.
  - left. split; [done|]. intros l t p Hin. by apply elem_of_nil in Hin.
  - destruct (request_layers_verbose t (seq 0 (length (_imageLayers s))) s)
      as [[Hrun Hnone]|(l & p & Hin & Hp & Hn & Hrun)]; try done.
    { apply Hts. left. }
    { intros l Hin. apply elem_of_seq in Hin. lia. }
    + destruct IH as [[Hrun' Hnone']|(l' & t' & p' & Hin & Hp' & Hn' & Hrun')].
      { intros t' Hin. apply Hts. by right. }
      * left. split.
        -- simpl. erewrite bind_Return; [exact Hrun'|].
           unfold ImageScene2D.request_tile.
           erewrite bind_Return; [exact Hrun|done].
        -- intros l' t' p' Hin Hp'. apply elem_of_cons in Hin as [->|Hin].
           ++ eapply Hnone; [|done]. apply elem_of_seq.
              assert (is_Some (_imageLayers s !! l')) as Hsome.
              { unfold patchAt in Hp'; simpl in Hp'.
                destruct (_imageLayers s !! l'); [eauto|done]. }
              apply lookup_lt_is_Some in Hsome. lia.
           ++ by eapply Hnone'.
      * right. exists l', t', p'. split; [by right|]. split; [done|]. split; [done|].
        simpl. erewrite bind_Return; [exact Hrun'|].
        unfold ImageScene2D.request_tile.
           erewrite bind_Return; [exact Hrun|done].
    + right. exists l, t, p. split; [left|]. split; [done|]. split; [done|].
      simpl. erewrite bind_Raise; [done|].
      unfold ImageScene2D.request_tile.
           erewrite bind_Return; [exact Hrun|done].
Qed.

(** C9.  With [volumina.verboseRequests] set, a paint pass over tiles of
    which some image-layer patch has [imgVer != dataVer] and
    [reqVer != dataVer] ends with [NameError] for the name [Np]: at the
    first such patch in iteration order, after locking it and taking the
    print lock.  The pass stops there: nothing was requested, the patch's
    counters are as before, and its mutex and the print lock stay held. *)
Theorem drawBackground_verbose_NameError s rect layerNr tileId p :
  wf s -> verboseRequests s = true -> printLock s = false ->
  tileId ∈ Tiling.intersectedF (_tiling s) rect ->
  patchAt (ImageLayer layerNr, tileId) s = Some p ->
  ImagePatch.needsRequest p = true ->
  ∃ l t q,
    t ∈ Tiling.intersectedF (_tiling s) rect ∧
    patchAt (ImageLayer l, t) s = Some q ∧
    ImagePatch.needsRequest q = true ∧
    ImageScene2D.drawBackground rect s
      = (stuck_at l t q s, Raise (NameError "Np")) ∧
    events (stuck_at l t q s) = events s ∧
    printLock (stuck_at l t q s) = true ∧
    patchAt (ImageLayer l, t) (stuck_at l t q s)
      = Some (ImagePatch.set_mutex true q) ∧
    ImagePatch.reqVer (ImagePatch.set_mutex true q) ≠
      ImagePatch.dataVer (ImagePatch.set_mutex true q).
Proof.
  intros Hwf Hv Hl Hin Hp Hn.
  destruct (request_tiles_verbose (Tiling.intersectedF (_tiling s) rect) s)
    as [[_ Hnone]|(l & t & q & Hin' & Hq & Hn' & Hrun)]; try done.
  { intros t. apply (wf_intersectedF s Hwf). }
  { rewrite (Hnone _ _ _ Hin Hp) in Hn. done. }
  exists l, t, q. split_and!; [done|done|done| | | | |].
  - unfold ImageScene2D.drawBackground.
    erewrite bind_Return by reflexivity.
    erewrite bind_Raise; [done|exact Hrun].
  - unfold stuck_at. simpl. by autorewrite with scene.
  - reflexivity.
  - unfold stuck_at. autorewrite with scene. by eapply patchAt_set_patch_Some.
  - simpl. unfold ImagePatch.needsRequest in Hn'.
    apply andb_true_iff in Hn' as [_ Hr]. apply negb_true_iff in Hr.
    by apply Z.eqb_neq in Hr.
Qed.

Lemma drawBackground_verbose_NameError_witness :
  ∃ l t q,
    t ∈ Tiling.intersectedF (_tiling (Example.stale_scene true)) Example.tile2F ∧
    patchAt (ImageLayer l, t) (Example.stale_scene true) = Some q ∧
    ImagePatch.needsRequest q = true ∧
    ImageScene2D.drawBackground Example.tile2F (Example.stale_scene true)
      = (stuck_at l t q (Example.stale_scene true), Raise (NameError "Np")) ∧
    events (stuck_at l t q (Example.stale_scene true))
      = events (Example.stale_scene true) ∧
    printLock (stuck_at l t q (Example.stale_scene true)) = true ∧
    patchAt (ImageLayer l, t) (stuck_at l t q (Example.stale_scene true))
      = Some (ImagePatch.set_mutex true q) ∧
    ImagePatch.reqVer (ImagePatch.set_mutex true q) ≠
      ImagePatch.dataVer (ImagePatch.set_mutex true q).
Proof.
  apply (drawBackground_verbose_NameError (Example.stale_scene true)
           Example.tile2F 1 2 Example.dirty).
  - apply Example_stale_scene_wf.
  - reflexivity.
  - reflexivity.
  - vm_compute. left.
  - reflexivity.
  - reflexivity.
Defined.

(** * What every operation preserves

    [I] is a property of scenes that depends on the patches only through a
    property [J] that each of them has, and on nothing else the operations
    write.  Every operation preserves such an [I], however it ends. *)

Section Preservation.

Variable I : Scene -> Prop.
Variable J : ImagePatch.t -> Prop.

Hypothesis I_patch : ∀ r p s, I s -> J p -> I (set_patch r p s).
Hypothesis I_lookup : ∀ r p s, I s -> patchAt r s = Some p -> J p.
Hypothesis I_events : ∀ v s, I s -> I (set_events v s).
Hypothesis I_printLock : ∀ v s, I s -> I (set_printLock v s).
Hypothesis I_indicate : ∀ v s, I s -> I (set_indicate v s).
Hypothesis I_updatableTiles : ∀ v s, I s -> I (set_updatableTiles v s).
Hypothesis I_brushingLayer :
  ∀ v s, I s -> Forall2 (fun p q => J p -> J q) (_brushingLayer s) v ->
    I (set_brushingLayer v s).
Hypothesis I_imageLayers :
  ∀ v s, I s -> Forall2 (Forall2 (fun p q => J p -> J q)) (_imageLayers s) v ->
    I (set_imageLayers v s).
Hypothesis J_mutex : ∀ v p, J p -> J (ImagePatch.set_mutex v p).
Hypothesis J_image : ∀ v p, J p -> J (ImagePatch.set_image v p).
Hypothesis J_bump :
  ∀ p, J p -> J (ImagePatch.set_dataVer (ImagePatch.dataVer p + 1) p).
Hypothesis J_current :
  ∀ p, J p -> J (ImagePatch.set_imgVer (ImagePatch.dataVer p) p).
Hypothesis J_requested :
  ∀ p, J p -> J (ImagePatch.set_reqVer (ImagePatch.dataVer p) p).

Lemma preserves_getitem st tileId : preserves I (getitem st tileId).
Proof using Type.
  intros s H. unfold getitem. by destruct (patchAt (st, tileId) s).
Qed.

Lemma preserves_withPatch {A} r (m : Prog ImagePatch.t A) :
  preserves J m -> preserves I (withPatch r m).
Proof using I_patch I_lookup.
  intros Hm s H. unfold withPatch. destruct (patchAt r s) as [p|] eqn:E; [|done].
  specialize (Hm p (I_lookup _ _ _ H E)). destruct (m p) as [p' o]; simpl in *.
  by apply I_patch.
Qed.

Lemma preserves_lock : preserves J ImagePatch.lock.
Proof using J_mutex.
  intros p H. unfold ImagePatch.lock. destruct (ImagePatch.mutex p); simpl; auto.
Qed.

Lemma preserves_unlock : preserves J ImagePatch.unlock.
Proof using J_mutex. intros p H. apply J_mutex, H. Qed.

Lemma preserves_bump_dataVer : preserves J ImagePatch.bump_dataVer.
Proof using J_bump. intros p H. apply J_bump, H. Qed.

Lemma preserves_fill pixel : preserves J (ImagePatch.fill pixel).
Proof using J_image. intros p H. apply J_image, H. Qed.

Lemma preserves_mark_current : preserves J ImagePatch.mark_current.
Proof using J_current. intros p H. apply J_current, H. Qed.

Lemma preserves_mark_requested : preserves J ImagePatch.mark_requested.
Proof using J_requested. intros p H. apply J_requested, H. Qed.

Lemma preserves_emit e : preserves I (emit e).
Proof using I_events. intros s H. apply I_events, H. Qed.

Lemma preserves_printLock_acquire : preserves I printLock_acquire.
Proof using I_printLock.
  intros s H. unfold printLock_acquire. destruct (printLock s); simpl; auto.
Qed.

Lemma preserves_printLock_release : preserves I printLock_release.
Proof using I_printLock. intros s H. apply I_printLock, H. Qed.

Lemma preserves_forEach (body : Prog ImagePatch.t unit) :
  preserves J body ->
  preserves I (zoom _brushingLayer set_brushingLayer (forEach body)).
Proof using I_brushingLayer.
  intros Hb s H. unfold zoom.
  pose proof (forEach_Forall2 (fun p q => J p -> J q) body (_brushingLayer s)
                (fun _ H => H) Hb) as HF.
  destruct (forEach body (_brushingLayer s)) as [v o]; simpl in *.
  by apply I_brushingLayer.
Qed.

Lemma preserves_forEach_forEach (body : Prog ImagePatch.t unit) :
  preserves J body ->
  preserves I (zoom _imageLayers set_imageLayers (forEach (forEach body))).
Proof using I_imageLayers.
  intros Hb s H. unfold zoom.
  pose proof (forEach_Forall2 (Forall2 (fun p q => J p -> J q)) (forEach body)
                (_imageLayers s)) as HF.
  destruct (forEach (forEach body) (_imageLayers s)) as [v o]; simpl in *.
  apply I_imageLayers; [done|]. apply HF.
  - intros layer. apply Forall2_same_length_lookup_2; [done|].
    by intros i p q -> [= ->].
  - intros layer. by apply forEach_Forall2.
Qed.

(** Take a program apart down to the statements covered above. *)
Ltac preserve :=
  repeat first
    [ apply preserves_ret | apply preserves_raise | apply preserves_gets
    | apply preserves_emit | apply preserves_getitem
    | apply preserves_printLock_acquire | apply preserves_printLock_release
    | apply preserves_lock | apply preserves_unlock
    | apply preserves_bump_dataVer | apply preserves_fill
    | apply preserves_mark_current | apply preserves_mark_requested
    | apply preserves_forEach | apply preserves_forEach_forEach
    | apply preserves_withPatch
    | apply preserves_when
    | apply preserves_bind; [|intros ?]
    | apply preserves_forM_; intros ?
    | apply preserves_foldM; intros ? ?
    | apply preserves_mapM; intros ?
    | match goal with
      | |- preserves _ (match ?x with _ => _ end) => destruct x
      | |- preserves _ (let '(_, _) := ?x in _) => destruct x
      end ].

Lemma preserves_setTileProgress tileId progress :
  preserves I (DirtyIndicator.setTileProgress tileId progress).
Proof using I_indicate I_events.
  unfold DirtyIndicator.setTileProgress. preserve.
  apply preserves_modify. intros s H. by apply I_indicate.
Qed.

Lemma preserves_schedulePatchRedraw tileId :
  preserves I (ImageScene2D._schedulePatchRedraw tileId).
Proof using I_events. unfold ImageScene2D._schedulePatchRedraw. preserve. Qed.

Lemma preserves_paint r : preserves I (paint r).
Proof using I_patch I_lookup I_events J_mutex. unfold paint. preserve. Qed.

Lemma preserves_request_patch tileId layerNr :
  preserves I (ImageScene2D.request_patch tileId layerNr).
Proof using I_patch I_lookup I_events I_printLock J_mutex J_requested.
  unfold ImageScene2D.request_patch, ImageScene2D.print_request_line. preserve.
Qed.

Lemma preserves_count_dirty tileId acc layerNr :
  preserves I (ImageScene2D.count_dirty tileId acc layerNr).
Proof using I_patch I_lookup J_mutex. unfold ImageScene2D.count_dirty. preserve. Qed.

Lemma preserves_progress_of numDirtyLayers numLayers :
  preserves I (ImageScene2D.progress_of numDirtyLayers numLayers).
Proof using Type. unfold ImageScene2D.progress_of. preserve. Qed.

Lemma preserves_drawBackground rect : preserves I (ImageScene2D.drawBackground rect).
Proof using I_patch I_lookup I_events I_printLock I_indicate J_mutex J_requested.
  unfold ImageScene2D.drawBackground. preserve.
  all: first [ apply preserves_progress_of
             | apply preserves_modify; intros s H; by apply I_indicate ].
Qed.

Lemma preserves_drawLine a b pen : preserves I (ImageScene2D.drawLine a b pen).
Proof using I_patch I_lookup I_events J_mutex J_image J_bump.
  unfold ImageScene2D.drawLine. preserve.
  all: apply preserves_modify; intros p H; by apply J_image.
Qed.

Lemma preserves_invalidateRect rect : preserves I (ImageScene2D._invalidateRect rect).
Proof using All.
  unfold ImageScene2D._invalidateRect. preserve.
  all: apply preserves_modify; intros s H;
    first [ by apply I_updatableTiles | by apply I_indicate ].
Qed.

Lemma preserves_onLayerDirty layerNr rect :
  preserves I (ImageScene2D._onLayerDirty layerNr rect).
Proof using All.
  unfold ImageScene2D._onLayerDirty. preserve.
  all: apply preserves_modify; intros s H;
    first [ by apply I_updatableTiles | by apply I_indicate ].
Qed.

Lemma preserves_perform op : preserves I (perform op).
Proof using All.
  destruct op; simpl.
  - apply preserves_drawLine.
  - apply preserves_onLayerDirty.
  - apply preserves_invalidateRect.
  - apply preserves_drawBackground.
Qed.

Lemma preserves_run ops s : I s -> I (run ops s).
Proof using All.
  unfold run. revert s. induction ops as [|op ops IH]; intros s H; simpl; [done|].
  apply IH. by apply preserves_perform.
Qed.

End Preservation.

(** * The version invariant *)

Lemma patches_Forall (P : ImagePatch.t -> Prop) s :
  Forall (Forall P) (_imageLayers s) ->
  Forall P (_compositeLayer s) -> Forall P (_brushingLayer s) ->
  ∀ r p, patchAt r s = Some p -> P p.
Proof.
  intros Hi Hc Hb [[l| |] t] p; unfold patchAt; simpl.
  - destruct (_imageLayers s !! l) as [layer|] eqn:E; simpl; [|done].
    intros Hp. rewrite Forall_lookup in Hi. specialize (Hi _ _ E).
    rewrite Forall_lookup in Hi. by apply (Hi _ _ Hp).
  - rewrite Forall_lookup in Hc. apply Hc.
  - rewrite Forall_lookup in Hb. apply Hb.
Qed.

Lemma all_versions_ok_perform op s :
  all_versions_ok s -> all_versions_ok (perform op s).1.
Proof.
  apply (preserves_perform all_versions_ok versions_ok); unfold all_versions_ok.
  - intros r p s' H Hp r' q Hq.
    apply patchAt_set_patch_inv in Hq as [->|Hq]; [done|by eapply H].
  - intros r p s' H Hp. by eapply H.
  - intros v s' H r p. rewrite patchAt_set_events. apply H.
  - intros v s' H r p. rewrite patchAt_set_printLock. apply H.
  - intros v s' H r p. rewrite patchAt_set_indicate. apply H.
  - intros v s' H r p. rewrite patchAt_set_updatableTiles. apply H.
  - intros v s' H HF [[l| |] t] q; unfold patchAt; simpl.
    + apply (H (ImageLayer l, t)).
    + apply (H (CompositeLayer, t)).
    + intros Hq. destruct (Forall2_lookup_r _ _ _ _ _ HF Hq) as (p & Hp & HR).
      apply HR. by apply (H (BrushingLayer, t)).
  - intros v s' H HF [[l| |] t] q; unfold patchAt; simpl.
    + destruct (v !! l) as [layer'|] eqn:E; simpl; [|done]. intros Hq.
      destruct (Forall2_lookup_r _ _ _ _ _ HF E) as (layer & Hlayer & HF').
      destruct (Forall2_lookup_r _ _ _ _ _ HF' Hq) as (p & Hp & HR).
      apply HR. apply (H (ImageLayer l, t)). unfold patchAt; simpl.
      by rewrite Hlayer.
    + apply (H (CompositeLayer, t)).
    + apply (H (BrushingLayer, t)).
  - intros v [] [? ?]; split; simpl in *; lia.
  - intros v [] [? ?]; split; simpl in *; lia.
  - intros [] [? ?]; split; simpl in *; lia.
  - intros [] [? ?]; split; simpl in *; lia.
  - intros [] [? ?]; split; simpl in *; lia.
Qed.

(** C5.  From a state whose patches all have three equal counters, after
    any sequence of [drawLine], [_onLayerDirty], [_invalidateRect] and
    [drawBackground] calls, however each of them ended, every patch of every
    layer has [reqVer <= dataVer] and [imgVer <= dataVer]; each single call
    preserves this.  Staleness, [imgVer != dataVer], is the test the
    progress loop counts by, and a request is pending, [reqVer == dataVer]
    and [imgVer != dataVer], exactly on the stale patches the request loop
    passes over; the request loop makes a patch it requests pending. *)
Theorem versions_invariant (s : Scene) :
  (∀ r p, patchAt r s = Some p -> fresh p) ->
  (∀ ops r p, patchAt r (run ops s) = Some p -> versions_ok p) ∧
  (∀ op s', all_versions_ok s' -> all_versions_ok (perform op s').1) ∧
  (∀ p, stale p <-> ImagePatch.isDirty p = true) ∧
  (∀ p, pending p <->
     ImagePatch.isDirty p = true ∧ ImagePatch.needsRequest p = false) ∧
  (∀ p, ImagePatch.needsRequest p = true ->
     pending (ImagePatch.set_reqVer (ImagePatch.dataVer p) p)).
Proof.
  intros Hfresh. split_and!.
  - intros ops. unfold run.
    assert (all_versions_ok s) as H.
    { intros r p Hp. destruct (Hfresh r p Hp) as [H1 H2].
      unfold versions_ok. lia. }
    clear Hfresh. revert s H. induction ops as [|op ops IH]; intros s H; simpl; [done|].
    apply IH. by apply all_versions_ok_perform.
  - intros op s'. apply all_versions_ok_perform.
  - intros [img d i r m]. unfold stale, ImagePatch.isDirty; simpl.
    destruct (Z.eqb_spec i d); simpl; intuition congruence.
  - intros [img d i r m].
    unfold pending, ImagePatch.isDirty, ImagePatch.needsRequest; simpl.
    destruct (Z.eqb_spec i d), (Z.eqb_spec r d); simpl; intuition congruence.
  - intros [img d i r m].
    unfold pending, ImagePatch.needsRequest; simpl.
    destruct (Z.eqb_spec i d), (Z.eqb_spec r d); simpl; intuition congruence.
Qed.

Lemma versions_invariant_witness :
  (∀ ops r p, patchAt r (run ops Example.scene) = Some p -> versions_ok p) ∧
  (∀ op s', all_versions_ok s' -> all_versions_ok (perform op s').1) ∧
  (∀ p, stale p <-> ImagePatch.isDirty p = true) ∧
  (∀ p, pending p <->
     ImagePatch.isDirty p = true ∧ ImagePatch.needsRequest p = false) ∧
  (∀ p, ImagePatch.needsRequest p = true ->
     pending (ImagePatch.set_reqVer (ImagePatch.dataVer p) p)).
Proof.
  apply (versions_invariant Example.scene).
  apply patches_Forall; repeat constructor.
Defined.

(** * The paint and progress loops of [drawBackground] *)

Lemma paint_run r p s :
  patchAt r s = Some p -> ImagePatch.mutex p = false ->
  paint r s = (set_events (events s ++ [PaintImage (ImagePatch.image p)]) s, Return tt).
Proof.
  intros Hp Hm. unfold paint. step. step. step.
  erewrite withPatch_Return; [|patch_fact|reflexivity]. simpl.
  autorewrite with scene. rewrite set_mutex_unlocked by done.
  by rewrite (set_patch_id _ _ _ Hp).
Qed.

Lemma requests_app evs evs' : requests (evs ++ evs') = requests evs ++ requests evs'.
Proof. unfold requests. apply flat_map_app. Qed.

Lemma cancellations_app evs evs' :
  cancellations (evs ++ evs') = (cancellations evs + cancellations evs')%nat.
Proof. unfold cancellations. by rewrite List.filter_app, length_app. Qed.

Lemma set_events_set_events v w s : set_events v (set_events w s) = set_events v s.
Proof. by destruct s. Qed.

Lemma set_events_id s : set_events (events s) s = s.
Proof. by destruct s. Qed.

(** Painting a list of unlocked patches only tells the painter. *)
Lemma paint_loop (prs : list (nat * PatchRef)) s :
  (∀ t r, (t, r) ∈ prs ->
     ∃ p, patchAt r s = Some p ∧ ImagePatch.mutex p = false) ->
  ∃ evs,
    forM_ prs (fun '(tileId, p) => paint p) s
      = (set_events (events s ++ evs) s, Return tt) ∧
    requests evs = [] ∧ cancellations evs = 0%nat.
Proof.
  revert s. induction prs as [|[t r] prs IH]; intros s Hall.
  - exists []. simpl. by rewrite app_nil_r, set_events_id.
  - destruct (Hall t r) as (p & Hp & Hm); [left|].
    destruct (IH (set_events (events s ++ [PaintImage (ImagePatch.image p)]) s))
      as (evs & Hrun & Hreq & Hcan).
    { intros t' r' Hin. destruct (Hall t' r') as (p' & Hp' & Hm'); [by right|].
      exists p'. by rewrite patchAt_set_events. }
    exists (PaintImage (ImagePatch.image p) :: evs). split; [|done].
    simpl. erewrite bind_Return by (by apply paint_run).
    rewrite Hrun. simpl. rewrite set_events_set_events.
    by rewrite <- app_assoc.
Qed.

Lemma mapM_getitem st ts s :
  (∀ t, t ∈ ts -> is_Some (patchAt (st, t) s)) ->
  mapM (getitem st) ts s = (s, Return (map (fun t => (st, t)) ts)).
Proof.
  induction ts as [|t ts IH]; intros Hall; [done|].
  destruct (Hall t) as [p Hp]; [left|].
  simpl. erewrite bind_Return by (by eapply getitem_run).
  erewrite bind_Return; [done|]. apply IH. intros t' Hin. apply Hall. by right.
Qed.

(** One step of the dirty count leaves the scene as it was. *)
Lemma count_dirty_run tileId acc layerNr p s :
  patchAt (ImageLayer layerNr, tileId) s = Some p ->
  ImagePatch.mutex p = false ->
  ImageScene2D.count_dirty tileId acc layerNr s
  = (s, Return (if ImagePatch.isDirty p then S acc else acc)).
Proof.
  intros Hp Hm. unfold ImageScene2D.count_dirty. step. step. step. step.
  autorewrite with scene. rewrite set_mutex_unlocked by done.
  rewrite (set_patch_id _ _ _ Hp). done.
Qed.

Lemma count_dirty_loop tileId ls acc s :
  wf s -> (tileId < Tiling.len (_tiling s))%nat ->
  (∀ l, l ∈ ls -> (l < length (_imageLayers s))%nat) ->
  ∃ n, foldM (ImageScene2D.count_dirty tileId) ls acc s = (s, Return n).
Proof.
  intros Hwf Ht. revert acc. induction ls as [|l ls IH]; intros acc Hls.
  - by exists acc.
  - destruct (wf_image_patch s l tileId Hwf) as (p & Hp & Hm); [apply Hls; left|done|].
    destruct (IH (if ImagePatch.isDirty p then S acc else acc)) as [n Hn].
    { intros l' Hin. apply Hls. by right. }
    exists n. simpl. erewrite bind_Return by (by apply count_dirty_run). done.
Qed.

(** * [drawBackground] without layers *)

Lemma numLayers_set_patch r p s : _numLayers (set_patch r p s) = _numLayers s.
Proof. by destruct r as [[l| |] t]. Qed.

(** The parts of [drawBackground] before the division leave [_numLayers]
    alone, however they end. *)
Lemma numLayers_stable (n : nat) :
  let I := fun s => _numLayers s = n in
  (∀ t l, preserves I (ImageScene2D.request_patch t l)) ∧
  (∀ st t, preserves I (getitem st t)) ∧
  (∀ r, preserves I (paint r)) ∧
  (∀ t acc l, preserves I (ImageScene2D.count_dirty t acc l)).
Proof.
  intros I. split_and!.
  - intros t l.
    apply (preserves_request_patch I (fun _ => True)); subst I; simpl; try done.
    intros r p s H _. by rewrite numLayers_set_patch.
  - intros st t. apply preserves_getitem.
  - intros r. apply (preserves_paint I (fun _ => True)); subst I; simpl; try done.
    intros r' p s H _. by rewrite numLayers_set_patch.
  - intros t acc l.
    apply (preserves_count_dirty I (fun _ => True)); subst I; simpl; try done.
    intros r p s H _. by rewrite numLayers_set_patch.
Qed.

(** With [_numLayers = 0], one round of the progress loop cannot return. *)
Lemma progress_round_no_layers tileId s s' a :
  _numLayers s = 0%nat ->
  ImageScene2D.tile_progress tileId s ≠ (s', Return a).
Proof.
  intros H0 Hrun.
  apply bind_inv_Return in Hrun as (n & s1 & [= <- <-] & Hrun).
  apply bind_inv_Return in Hrun as (k & s2 & Hfold & Hrun).
  apply bind_inv_Return in Hrun as (nl & s3 & [= <- <-] & Hrun).
  apply bind_inv_Return in Hrun as (pr & s4 & Hprog & _).
  assert (_numLayers s2 = 0%nat) as H2.
  { pose proof (preserves_foldM (fun s => _numLayers s = 0%nat)
                  (ImageScene2D.count_dirty tileId)
                  (seq 0 (length (_imageLayers s))) 0%nat) as HP.
    specialize (HP (fun b x => proj2 (proj2 (proj2 (numLayers_stable 0))) tileId b x) s H0).
    by rewrite Hfold in HP. }
  rewrite H2 in Hprog. unfold ImageScene2D.progress_of in Hprog. simpl in Hprog.
  discriminate.
Qed.

(** C10.  With [_numLayers = 0], a paint pass over a region that meets at
    least one tile never completes: the progress computation of the first
    tile divides by the layer count.  On a well-formed scene without image
    layers the pass ends with [ZeroDivisionError]. *)
Theorem drawBackground_no_layers (s : Scene) (rect : QRectF) :
  _numLayers s = 0%nat ->
  Tiling.intersectedF (_tiling s) rect ≠ [] ->
  (∀ a, (ImageScene2D.drawBackground rect s).2 ≠ Return a) ∧
  (wf s -> _imageLayers s = [] ->
   (ImageScene2D.drawBackground rect s).2 = Raise ZeroDivisionError).
Proof.
  intros H0 Hne. split.
  - intros a Hret.
    destruct (ImageScene2D.drawBackground rect s) as [s' o] eqn:Hrun.
    simpl in Hret. subst o. unfold ImageScene2D.drawBackground in Hrun.
    destruct (numLayers_stable 0) as (Hreq & Hget & Hpaint & _).
    apply bind_inv_Return in Hrun as (ts & s0 & [= <- <-] & Hrun).
    apply bind_inv_Return in Hrun as ([] & s1 & Hloop1 & Hrun).
    apply bind_inv_Return in Hrun as (tiles & s2 & Hmap & Hrun).
    apply bind_inv_Return in Hrun as ([] & s3 & Hloop2 & Hrun).
    assert (_numLayers s1 = 0%nat) as H1.
    { assert (preserves (fun s => _numLayers s = 0%nat)
        (forM_ (Tiling.intersectedF (_tiling s) rect) ImageScene2D.request_tile))
        as HP.
      { apply preserves_forM_. intros t. unfold ImageScene2D.request_tile.
        apply preserves_bind; [apply preserves_gets|].
        intros n. apply preserves_forM_. apply Hreq. }
      specialize (HP s H0). by rewrite Hloop1 in HP. }
    assert (_numLayers s2 = 0%nat) as H2.
    { pose proof (preserves_mapM (fun s => _numLayers s = 0%nat)
                    (getitem CompositeLayer)
                    (Tiling.intersectedF (_tiling s) rect)
                    (Hget CompositeLayer) s1 H1) as HP.
      by rewrite Hmap in HP. }
    assert (_numLayers s3 = 0%nat) as H3.
    { assert (preserves (fun s => _numLayers s = 0%nat)
        (forM_ (zip (Tiling.intersectedF (_tiling s) rect) tiles)
           (fun '(tileId, p) => paint p))) as HP.
      { apply preserves_forM_. intros [t r]. apply Hpaint. }
      specialize (HP s2 H2). by rewrite Hloop2 in HP. }
    destruct (Tiling.intersectedF (_tiling s) rect) as [|t ts]; [done|].
    simpl in Hrun.
    apply bind_inv_Return in Hrun as ([] & s4 & Hround & _).
    by eapply progress_round_no_layers.
  - intros Hwf Hnil. unfold ImageScene2D.drawBackground.
    erewrite bind_Return by reflexivity.
    assert (∀ ts, forM_ ts ImageScene2D.request_tile s = (s, Return tt)) as Hloop1.
    { induction ts as [|t ts IH]; [done|]. simpl.
      erewrite bind_Return; [exact IH|]. unfold ImageScene2D.request_tile.
      erewrite bind_Return by reflexivity. by rewrite Hnil. }
    erewrite bind_Return by apply Hloop1.
    erewrite bind_Return.
    2:{ apply mapM_getitem. intros t Hin.
        destruct (wf_composite_patch s t Hwf) as (p & Hp & _); [|by eauto].
        by eapply wf_intersectedF. }
    destruct (paint_loop
                (zip (Tiling.intersectedF (_tiling s) rect)
                   (map (fun t => (CompositeLayer, t))
                      (Tiling.intersectedF (_tiling s) rect))) s)
      as (evs & Hpaint & _).
    { intros t r Hin. apply elem_of_zip_r in Hin.
      apply list_elem_of_fmap in Hin as (t' & -> & Hin).
      apply (wf_composite_patch s t' Hwf). by eapply wf_intersectedF. }
    erewrite bind_Return by exact Hpaint.
    destruct (Tiling.intersectedF (_tiling s) rect) as [|t ts]; [done|].
    simpl.
    unfold ImageScene2D.tile_progress, ImageScene2D.progress_of, mbind, prog_bind,
      mret, prog_ret, gets; simpl.
    rewrite Hnil; simpl. by rewrite H0.
Qed.

Lemma drawBackground_no_layers_witness :
  (∀ a, (ImageScene2D.drawBackground Example.tile2F Example.empty_scene).2 ≠ Return a) ∧
  (ImageScene2D.drawBackground Example.tile2F Example.empty_scene).2
    = Raise ZeroDivisionError.
Proof.
  destruct (drawBackground_no_layers Example.empty_scene Example.tile2F) as [H1 H2].
  - reflexivity.
  - vm_compute. discriminate.
  - split; [exact H1|]. apply H2; [apply Example_empty_scene_wf|reflexivity].
Defined.

(** * Full invalidation *)

Lemma clear_patch_run p :
  ImagePatch.mutex p = false ->
  (ImagePatch.lock;; ImagePatch.fill 0;; ImagePatch.mark_current;; ImagePatch.unlock) p
  = (cleared p, Return tt).
Proof.
  intros Hm. erewrite bind_Return by (by apply lock_run).
  destruct p; simpl in *; by subst.
Qed.

Lemma bump_patch_run p :
  ImagePatch.mutex p = false ->
  (ImagePatch.lock;; ImagePatch.bump_dataVer;; ImagePatch.unlock) p
  = (bumped p, Return tt).
Proof.
  intros Hm. erewrite bind_Return by (by apply lock_run).
  destruct p; simpl in *; by subst.
Qed.

Lemma zoom_Return {S T A} (get : S -> T) (set : T -> S -> S) (m : Prog T A) s t a :
  m (get s) = (t, Return a) -> zoom get set m s = (set t s, Return a).
Proof. intros H. unfold zoom. by rewrite H. Qed.

Lemma reset_run s :
  wf s ->
  ImageScene2D.invalidate_everything s = (reset_state s, Return tt).
Proof.
  intros Hwf. unfold ImageScene2D.invalidate_everything.
  erewrite bind_Return by reflexivity.
  erewrite bind_Return by reflexivity.
  erewrite bind_Return.
  2:{ apply zoom_Return. apply (forEach_map cleared). simpl.
      intros p Hin. apply clear_patch_run.
      apply list_elem_of_lookup in Hin as [i Hi].
      exact (wf_unlocked s Hwf (BrushingLayer, i) p Hi). }
  erewrite zoom_Return; [reflexivity|].
  apply (forEach_map (map bumped)). simpl.
  intros layer Hin. apply (forEach_map bumped).
  intros p Hp. apply bump_patch_run.
  apply list_elem_of_lookup in Hin as [l Hl].
  apply list_elem_of_lookup in Hp as [i Hi].
  apply (wf_unlocked s Hwf (ImageLayer l, i) p).
  unfold patchAt; simpl. by rewrite Hl.
Qed.

Lemma invalidate_tile_run tileId p r s :
  (tileId < length (_indicate s))%nat ->
  _compositeLayer s !! tileId = Some p ->
  Tiling.rectF (_tiling s) !! tileId = Some r ->
  ImageScene2D.invalidate_tile tileId s
  = (set_events (events s ++ [IndicatorUpdate; Invalidate r])
       (set_compositeLayer (<[tileId := bumped p]> (_compositeLayer s))
          (set_indicate (<[tileId := 1%Qc]> (_indicate s)) s)),
     Return tt).
Proof.
  intros Hi Hp Hr. unfold ImageScene2D.invalidate_tile, DirtyIndicator.setTileProgress,
    ImageScene2D._schedulePatchRedraw.
  rewrite ?bind_assoc. erewrite bind_Return by reflexivity. simpl.
  destruct (decide (tileId < length (_indicate s))%nat); [|done].
  rewrite ?bind_assoc. erewrite bind_Return by reflexivity.
  erewrite bind_Return by reflexivity.
  erewrite bind_Return.
  2:{ eapply getitem_run. unfold patchAt. simpl. exact Hp. }
  erewrite bind_Return.
  2:{ eapply withPatch_Return; [|reflexivity]. unfold patchAt. simpl. exact Hp. }
  erewrite bind_Return by reflexivity. simpl. rewrite Hr.
  unfold emit, modify, set_patch; simpl. rewrite <- app_assoc. reflexivity.
Qed.

(** The tile loop only writes the indicator, the composite layer and the
    event list; it cancels and requests nothing, and every tile it visits
    has its progress set to 1. *)
Lemma invalidate_tiles_run ts s :
  (∀ t, t ∈ ts -> (t < length (_indicate s))%nat ∧
     (t < length (_compositeLayer s))%nat ∧
     (t < length (Tiling.rectF (_tiling s)))%nat) ->
  ∃ s',
    forM_ ts ImageScene2D.invalidate_tile s = (s', Return tt) ∧
    _brushingLayer s' = _brushingLayer s ∧
    _imageLayers s' = _imageLayers s ∧
    (∃ evs, events s' = events s ++ evs ∧ cancellations evs = 0%nat ∧
       requests evs = []) ∧
    (∀ t, t ∈ ts ∨ _indicate s !! t = Some 1%Qc -> _indicate s' !! t = Some 1%Qc).
Proof.
  revert s. induction ts as [|t ts IH]; intros s Hall.
  - exists s. split_and!; try done.
    + exists []. by rewrite app_nil_r.
    + intros t [Hin|H]; [by apply elem_of_nil in Hin|done].
  - destruct (Hall t) as (Hi & Hc & Hr); [left|].
    apply lookup_lt_is_Some_2 in Hc as [p Hp].
    apply lookup_lt_is_Some_2 in Hr as [r Hr].
    pose proof (invalidate_tile_run t p r s Hi Hp Hr) as Hrun.
    set (s1 := set_events (events s ++ [IndicatorUpdate; Invalidate r])
                 (set_compositeLayer (<[t := bumped p]> (_compositeLayer s))
                    (set_indicate (<[t := 1%Qc]> (_indicate s)) s))) in *.
    destruct (IH s1) as (s' & Hloop & Hb & Hl & (evs & Hev & Hcan & Hreq) & Hind).
    { intros t' Hin. destruct (Hall t') as (Hi' & Hc' & Hr'); [by right|].
      subst s1; simpl. by rewrite !length_insert. }
    exists s'. split_and!.
    + simpl. erewrite bind_Return; [exact Hloop|exact Hrun].
    + by rewrite Hb.
    + by rewrite Hl.
    + exists ([IndicatorUpdate; Invalidate r] ++ evs). split_and!.
      * rewrite Hev. subst s1; simpl. by rewrite <- app_assoc.
      * by rewrite cancellations_app, Hcan.
      * by rewrite requests_app, Hreq.
    + intros t' Hin. apply Hind.
      destruct (decide (t' = t)) as [->|Hne].
      * right. subst s1; simpl. by apply list_lookup_insert_eq.
      * destruct Hin as [Hin|Hone].
        -- apply elem_of_cons in Hin as [->|Hin]; [done|by left].
        -- right. subst s1; simpl. by rewrite list_lookup_insert_ne.
Qed.

(** The whole of a full invalidation on a well-formed scene. *)
Lemma invalidateRect_full_run s rect :
  wf s -> isValid rect = false ->
  ∃ s',
    ImageScene2D._invalidateRect rect s = (s', Return tt) ∧
    _brushingLayer s' = map cleared (_brushingLayer s) ∧
    _imageLayers s' = map (map bumped) (_imageLayers s) ∧
    (∃ evs, events s' = events s ++ CancelAll :: evs ∧
       cancellations evs = 0%nat ∧ requests evs = []) ∧
    (∀ t, t ∈ Tiling.intersected (_tiling s) rect -> _indicate s' !! t = Some 1%Qc).
Proof.
  intros Hwf Hrect.
  destruct (invalidate_tiles_run (Tiling.intersected (_tiling s) rect) (reset_state s))
    as (s' & Hloop & Hb & Hl & (evs & Hev & Hcan & Hreq) & Hind).
  { intros t Hin. apply (wf_intersected s Hwf) in Hin. simpl.
    rewrite (wf_indicate s Hwf), (wf_composite s Hwf), (wf_rectF s Hwf). done. }
  exists s'. split_and!.
  - unfold ImageScene2D._invalidateRect. rewrite Hrect. simpl.
    erewrite bind_Return by (by apply reset_run).
    erewrite bind_Return by reflexivity. exact Hloop.
  - by rewrite Hb.
  - by rewrite Hl.
  - exists evs. split_and!; try done. rewrite Hev. simpl. by rewrite <- app_assoc.
  - intros t Hin. apply Hind. by left.
Qed.

(** C4.  A full invalidation of a well-formed scene returns; it calls
    [cancelAll] once and only once; every patch of the brushing layer ends
    with a blank buffer and [imgVer = dataVer]; and every patch of every
    image layer ends with [dataVer] one higher, nothing else changed. *)
Theorem invalidateRect_full_effects (s : Scene) (rect : QRect) :
  wf s -> isValid rect = false ->
  let r := ImageScene2D._invalidateRect rect s in
  r.2 = Return tt ∧
  (∃ evs, events r.1 = events s ++ evs ∧ cancellations evs = 1%nat) ∧
  _brushingLayer r.1 = map cleared (_brushingLayer s) ∧
  (∀ p, p ∈ _brushingLayer r.1 ->
     ImagePatch.image p = Fill 0 ∧ ImagePatch.imgVer p = ImagePatch.dataVer p) ∧
  _imageLayers r.1 = map (map bumped) (_imageLayers s) ∧
  (∀ layerNr tileId p, patchAt (ImageLayer layerNr, tileId) s = Some p ->
     patchAt (ImageLayer layerNr, tileId) r.1
       = Some (ImagePatch.set_dataVer (ImagePatch.dataVer p + 1) p)).
Proof.
  intros Hwf Hrect.
  destruct (invalidateRect_full_run s rect Hwf Hrect)
    as (s' & Hrun & Hb & Hl & (evs & Hev & Hcan & _) & _).
  simpl. rewrite Hrun. simpl. split_and!; try done.
  - exists (CancelAll :: evs). split; [done|].
    unfold cancellations in *. simpl. by rewrite Hcan.
  - intros p. rewrite Hb. intros Hin.
    apply list_elem_of_fmap in Hin as (q & -> & _). done.
  - intros l t p. unfold patchAt. simpl. rewrite Hl, list_lookup_fmap.
    destruct (_imageLayers s !! l) as [layer|]; simpl; [|done].
    rewrite list_lookup_fmap. by intros ->.
Qed.

Lemma invalidateRect_full_effects_witness :
  let r := ImageScene2D._invalidateRect QRect_null (Example.stale_scene false) in
  r.2 = Return tt ∧
  (∃ evs, events r.1 = events (Example.stale_scene false) ++ evs ∧
     cancellations evs = 1%nat) ∧
  _brushingLayer r.1 = map cleared (_brushingLayer (Example.stale_scene false)) ∧
  (∀ p, p ∈ _brushingLayer r.1 ->
     ImagePatch.image p = Fill 0 ∧ ImagePatch.imgVer p = ImagePatch.dataVer p) ∧
  _imageLayers r.1 = map (map bumped) (_imageLayers (Example.stale_scene false)) ∧
  (∀ layerNr tileId p,
     patchAt (ImageLayer layerNr, tileId) (Example.stale_scene false) = Some p ->
     patchAt (ImageLayer layerNr, tileId) r.1
       = Some (ImagePatch.set_dataVer (ImagePatch.dataVer p + 1) p)).
Proof.
  apply (invalidateRect_full_effects (Example.stale_scene false) QRect_null).
  - apply Example_stale_scene_wf.
  - reflexivity.
Defined.

(** After a full invalidation of the example scene the progress of each of
    the four tiles is 1, not 0. *)
Lemma invalidateRect_full_progress_not_zero :
  _indicate (ImageScene2D._invalidateRect QRect_null Example.scene).1
    = [1; 1; 1; 1]%Qc ∧
  _indicate (ImageScene2D._invalidateRect QRect_null Example.scene).1 !! 0%nat
    ≠ Some 0%Qc.
Proof. split; [by vm_compute|]. vm_compute. discriminate. Qed.

(** * Well-formedness is kept by the writes of a paint pass *)

Lemma wf_set_events v s : wf s -> wf (set_events v s).
Proof.
  intros [H1 H2 H3 H4 H5 H6 H7 H8 H9]. split; try done.
  all: intros r p; rewrite patchAt_set_events; apply H9.
Qed.

Lemma wf_set_indicate v s :
  wf s -> length v = length (_indicate s) -> wf (set_indicate v s).
Proof.
  intros [H1 H2 H3 H4 H5 H6 H7 H8 H9] Hlen. split; try done.
  all: first [ simpl; by rewrite Hlen
             | intros r p; rewrite patchAt_set_indicate; apply H9 ].
Qed.

Lemma wf_set_patch r p p' s :
  wf s -> patchAt r s = Some p -> ImagePatch.mutex p' = false ->
  wf (set_patch r p' s).
Proof.
  intros Hwf Hp Hm. pose proof Hwf as [H1 H2 H3 H4 H5 H6 H7 H8 H9].
  split.
  - destruct r as [[l| |] t]; unfold set_patch; simpl; try done.
    intros l' layer. destruct (decide (l = l')) as [<-|Hne].
    + rewrite list_lookup_alter_eq.
      destruct (_imageLayers s !! l) as [layer0|] eqn:E; simpl; [|done].
      intros [= <-]. rewrite length_insert. by eapply H1.
    + rewrite list_lookup_alter_ne by done. apply H1.
  - destruct r as [[l| |] t]; unfold set_patch; simpl; try done.
    by rewrite length_insert.
  - destruct r as [[l| |] t]; unfold set_patch; simpl; try done.
    by rewrite length_insert.
  - by destruct r as [[l| |] t].
  - by destruct r as [[l| |] t].
  - by destruct r as [[l| |] t].
  - by destruct r as [[l| |] t].
  - by destruct r as [[l| |] t].
  - intros r' q Hq. apply patchAt_set_patch_inv in Hq as [->|Hq]; [done|].
    by eapply H9.
Qed.

Lemma tiling_set_patch r p s : _tiling (set_patch r p s) = _tiling s.
Proof. by destruct r as [[l| |] t]. Qed.

Lemma length_imageLayers_set_patch r p s :
  length (_imageLayers (set_patch r p s)) = length (_imageLayers s).
Proof.
  destruct r as [[l| |] t]; unfold set_patch; simpl; try done.
  apply length_alter.
Qed.

(** * The request loop, verbose flag off *)

Lemma needsRequest_visit p : ImagePatch.needsRequest (visit p) = false.
Proof.
  unfold visit. destruct (ImagePatch.needsRequest p) eqn:E; [|done].
  unfold ImagePatch.needsRequest; simpl. rewrite Z.eqb_refl. simpl.
  apply andb_false_r.
Qed.

Lemma mutex_visit p : ImagePatch.mutex (visit p) = ImagePatch.mutex p.
Proof. unfold visit. by destruct (ImagePatch.needsRequest p). Qed.

Lemma frame_layers_events s s' E L :
  s' = set_events (events s') (set_imageLayers (_imageLayers s') s) ->
  set_events E (set_imageLayers L s') = set_events E (set_imageLayers L s).
Proof. intros H. by rewrite H. Qed.

Lemma requested_start s : wf s -> requested s [] s.
Proof.
  intros Hwf. split; try done.
  - by destruct s.
  - exists []. split; [by rewrite app_nil_r|]. split; [constructor|].
    intros l t. split; [intros H; by apply elem_of_nil in H|].
    intros [H _]. by apply elem_of_nil in H.
Qed.

Lemma requested_step s V s' l t :
  wf s -> verboseRequests s = false ->
  requested s V s' ->
  (l < length (_imageLayers s))%nat -> (t < Tiling.len (_tiling s))%nat ->
  ∃ s'', ImageScene2D.request_patch t l s' = (s'', Return tt) ∧
    requested s (V ++ [(l, t)]) s''.
Proof.
  intros Hwf Hv [Hwf' Hframe Hlen Hpatch (rs & Hev & Hnd & Hrs)] Hl Ht.
  destruct (wf_image_patch s l t Hwf Hl Ht) as (p & Hp & Hm).
  pose proof (Hpatch l t p Hp) as Hp'.
  assert (verboseRequests s' = false) as Hv'.
  { rewrite Hframe. simpl. done. }
  destruct (bool_decide ((l, t) ∈ V)) eqn:Hvis.
  - (* visited before: nothing happens *)
    exists s'. split.
    { eapply request_patch_skip; [exact Hp'| |apply needsRequest_visit].
      by rewrite mutex_visit. }
    split; try done.
    + intros l0 t0 p0 Hp0. rewrite (Hpatch l0 t0 p0 Hp0).
      apply bool_decide_eq_true in Hvis.
      destruct (bool_decide ((l0, t0) ∈ V)) eqn:E.
      * rewrite bool_decide_eq_true_2; [done|].
        apply bool_decide_eq_true in E. apply elem_of_app. by left.
      * rewrite bool_decide_eq_false_2; [done|].
        apply bool_decide_eq_false in E. intros Hin.
        apply elem_of_app in Hin as [Hin|Hin]; [done|].
        apply list_elem_of_singleton in Hin as [= -> ->]. done.
    + exists rs. split; [done|]. split; [done|].
      apply bool_decide_eq_true in Hvis.
      intros l0 t0. rewrite Hrs. split.
      * intros [Hin H]. split; [|done]. apply elem_of_app. by left.
      * intros [Hin H]. split; [|done].
        apply elem_of_app in Hin as [Hin|Hin]; [done|].
        apply list_elem_of_singleton in Hin as [= -> ->]. done.
  - (* first visit *)
    apply bool_decide_eq_false in Hvis.
    assert (∀ l0 t0, (l0, t0) ∈ V ++ [(l, t)] <-> (l0, t0) ∈ V ∨ (l0, t0) = (l, t))
      as Hmem.
    { intros l0 t0. rewrite elem_of_app, list_elem_of_singleton. done. }
    destruct (ImagePatch.needsRequest p) eqn:Hn.
    + (* a request is issued *)
      exists (set_events (events s' ++ [RequestPatch l t])
                (set_patch (ImageLayer l, t)
                   (ImagePatch.set_reqVer (ImagePatch.dataVer p) p) s')).
      split; [by apply request_patch_issue|].
      split.
      * apply wf_set_events. by eapply wf_set_patch.
      * unfold set_patch; simpl. by apply frame_layers_events.
      * simpl. by rewrite length_alter.
      * intros l0 t0 p0 Hp0. rewrite patchAt_set_events.
        destruct (decide ((l0, t0) = (l, t))) as [[= -> ->]|Hne].
        -- rewrite bool_decide_eq_true_2 by (apply Hmem; by right).
           rewrite (patchAt_set_patch_Some _ _ _ _ Hp').
           assert (p0 = p) as -> by congruence.
           unfold visit. by rewrite Hn.
        -- rewrite patchAt_set_patch_ne by congruence.
           rewrite (Hpatch l0 t0 p0 Hp0).
           destruct (bool_decide ((l0, t0) ∈ V)) eqn:E.
           ++ rewrite bool_decide_eq_true_2; [done|].
              apply bool_decide_eq_true in E. apply Hmem. by left.
           ++ rewrite bool_decide_eq_false_2; [done|].
              apply bool_decide_eq_false in E. rewrite Hmem. intros [?|?]; done.
      * exists (rs ++ [(l, t)]). split_and!.
        -- simpl. rewrite Hev, map_app, <- app_assoc. done.
        -- apply NoDup_app. split; [done|]. split; [|apply NoDup_singleton].
           intros [l0 t0] Hin Hin'. apply list_elem_of_singleton in Hin' as [= -> ->].
           apply Hrs in Hin as [Hin _]. done.
        -- intros l0 t0. rewrite elem_of_app, list_elem_of_singleton, Hrs, Hmem.
           split.
           ++ intros [[Hin Hex]|[= -> ->]]; [split; [by left|done]|].
              split; [by right|]. by exists p.
           ++ intros [[Hin|[= -> ->]] Hex]; [left; by split|by right].
    + (* current or already requested: nothing happens *)
      exists s'. split; [by eapply request_patch_skip|].
      split; try done.
      * intros l0 t0 p0 Hp0. rewrite (Hpatch l0 t0 p0 Hp0).
        destruct (decide ((l0, t0) = (l, t))) as [[= -> ->]|Hne].
        -- rewrite bool_decide_eq_false_2 by done.
           rewrite bool_decide_eq_true_2 by (apply Hmem; by right).
           assert (p0 = p) as -> by congruence.
           unfold visit. by rewrite Hn.
        -- destruct (bool_decide ((l0, t0) ∈ V)) eqn:E.
           ++ rewrite bool_decide_eq_true_2; [done|].
              apply bool_decide_eq_true in E. apply Hmem. by left.
           ++ rewrite bool_decide_eq_false_2; [done|].
              apply bool_decide_eq_false in E. rewrite Hmem. intros [?|?]; done.
      * exists rs. split; [done|]. split; [done|].
        intros l0 t0. rewrite Hrs, Hmem. split.
        -- intros [Hin H]. split; [by left|done].
        -- intros [[Hin|[= -> ->]] Hex]; [by split|].
           destruct Hex as (p0 & Hp0 & Hn0). congruence.
Qed.

Lemma request_layers_run s V s' t ls :
  wf s -> verboseRequests s = false -> requested s V s' ->
  (t < Tiling.len (_tiling s))%nat ->
  (∀ l, l ∈ ls -> (l < length (_imageLayers s))%nat) ->
  ∃ s'', forM_ ls (ImageScene2D.request_patch t) s' = (s'', Return tt) ∧
    requested s (V ++ map (fun l => (l, t)) ls) s''.
Proof.
  intros Hwf Hv Hreq Ht. revert V s' Hreq.
  induction ls as [|l ls IH]; intros V s' Hreq Hls.
  - exists s'. split; [done|]. simpl. by rewrite app_nil_r.
  - destruct (requested_step s V s' l t Hwf Hv Hreq) as (s1 & Hrun & Hreq1);
      [apply Hls; left|done|].
    destruct (IH (V ++ [(l, t)]) s1 Hreq1) as (s2 & Hrun2 & Hreq2).
    { intros l' Hin. apply Hls. by right. }
    exists s2. split.
    + simpl. erewrite bind_Return; [exact Hrun2|exact Hrun].
    + simpl. by rewrite <- app_assoc in Hreq2.
Qed.

Lemma elem_of_visits n ts l t : (l, t) ∈ visits n ts <-> t ∈ ts ∧ (l < n)%nat.
Proof.
  unfold visits. rewrite list_elem_of_In, in_flat_map. split.
  - intros (t' & Hin & Hmap). apply in_map_iff in Hmap as (l' & [= <- <-] & Hl).
    apply in_seq in Hl. split; [by apply list_elem_of_In|lia].
  - intros [Hin Hl]. exists t. split; [by apply list_elem_of_In|].
    apply in_map_iff. exists l. split; [done|]. apply in_seq. lia.
Qed.

Lemma request_tiles_run s V s' ts :
  wf s -> verboseRequests s = false -> requested s V s' ->
  (∀ t, t ∈ ts -> (t < Tiling.len (_tiling s))%nat) ->
  ∃ s'',
    forM_ ts ImageScene2D.request_tile s' = (s'', Return tt) ∧
    requested s (V ++ visits (length (_imageLayers s)) ts) s''.
Proof.
  intros Hwf Hv. revert V s'.
  induction ts as [|t ts IH]; intros V s' Hreq Hts.
  - exists s'. split; [done|]. simpl. by rewrite app_nil_r.
  - destruct (request_layers_run s V s' t (seq 0 (length (_imageLayers s))) Hwf Hv Hreq)
      as (s1 & Hrun & Hreq1).
    { apply Hts. left. }
    { intros l Hin. apply elem_of_seq in Hin. lia. }
    destruct (IH _ s1 Hreq1) as (s2 & Hrun2 & Hreq2).
    { intros t' Hin. apply Hts. by right. }
    exists s2. split.
    + simpl. erewrite bind_Return; [exact Hrun2|].
      unfold ImageScene2D.request_tile.
      erewrite bind_Return by reflexivity. simpl.
      by rewrite (rq_layers _ _ _ Hreq).
    + unfold visits in *. simpl. by rewrite <- app_assoc in Hreq2.
Qed.

Lemma requests_map rs : requests (map (fun r => RequestPatch r.1 r.2) rs) = rs.
Proof. induction rs as [|[l t] rs IH]; simpl; [done|]. by rewrite IH. Qed.

(** * The display loops leave patches and requests alone *)

Lemma progress_round_run tileId s :
  wf s -> _numLayers s ≠ 0%nat -> (tileId < Tiling.len (_tiling s))%nat ->
  ∃ progress,
    ImageScene2D.tile_progress tileId s
    = (set_events (events s ++ [IndicatorUpdate])
         (set_indicate (<[tileId := progress]> (_indicate s)) s),
       Return tt).
Proof.
  intros Hwf Hn Ht.
  destruct (count_dirty_loop tileId (seq 0 (length (_imageLayers s))) 0%nat s Hwf Ht)
    as [k Hk].
  { intros l Hin. apply elem_of_seq in Hin. lia. }
  exists (1 - Q2Qc (inject_Z (Z.of_nat k)) / Q2Qc (inject_Z (Z.of_nat (_numLayers s))))%Qc.
  unfold ImageScene2D.tile_progress.
  erewrite bind_Return by reflexivity.
  erewrite bind_Return by exact Hk.
  erewrite bind_Return by reflexivity.
  erewrite bind_Return.
  2:{ unfold ImageScene2D.progress_of. by destruct (decide (_numLayers s = 0%nat)). }
  unfold DirtyIndicator.setTileProgress.
  erewrite bind_Return by reflexivity. simpl.
  destruct (decide (tileId < length (_indicate s))%nat) as [|Hge].
  - reflexivity.
  - rewrite (wf_indicate s Hwf) in Hge. done.
Qed.

Lemma progress_loop_run ts s :
  wf s -> _numLayers s ≠ 0%nat ->
  (∀ t, t ∈ ts -> (t < Tiling.len (_tiling s))%nat) ->
  ∃ ind evs,
    forM_ ts ImageScene2D.tile_progress s
    = (set_events (events s ++ evs) (set_indicate ind s), Return tt) ∧
    length ind = length (_indicate s) ∧
    requests evs = [] ∧ cancellations evs = 0%nat.
Proof.
  revert s. induction ts as [|t ts IH]; intros s Hwf Hn Hts.
  - exists (_indicate s), []. split_and!; try done.
    simpl. rewrite app_nil_r. by destruct s.
  - destruct (progress_round_run t s Hwf Hn) as [pr Hround]; [apply Hts; left|].
    set (s1 := set_events (events s ++ [IndicatorUpdate])
                 (set_indicate (<[t := pr]> (_indicate s)) s)) in *.
    destruct (IH s1) as (ind & evs & Hloop & Hlen & Hreq & Hcan).
    { apply wf_set_events, wf_set_indicate; [done|]. by rewrite length_insert. }
    { done. }
    { intros t' Hin. apply Hts. by right. }
    exists ind, (IndicatorUpdate :: evs). split_and!.
    + simpl. erewrite bind_Return; [|exact Hround]. rewrite Hloop.
      subst s1. simpl. by rewrite <- app_assoc.
    + rewrite Hlen. subst s1. simpl. by rewrite length_insert.
    + done.
    + done.
Qed.

(** The second and third loop of [drawBackground] on a well-formed scene
    with at least one layer: they return, and they only tell the painter
    and the indicator. *)
Lemma display_run ts s :
  wf s -> _numLayers s ≠ 0%nat ->
  (∀ t, t ∈ ts -> (t < Tiling.len (_tiling s))%nat) ->
  ∃ ind evs,
    (tiles ← mapM (getitem CompositeLayer) ts;
     forM_ (zip ts tiles) (fun '(tileId, p) => paint p);;
     forM_ ts ImageScene2D.tile_progress) s
    = (set_events (events s ++ evs) (set_indicate ind s), Return tt) ∧
    length ind = length (_indicate s) ∧
    requests evs = [] ∧ cancellations evs = 0%nat.
Proof.
  intros Hwf Hn Hts.
  destruct (paint_loop (zip ts (map (fun t => (CompositeLayer, t)) ts)) s)
    as (evs1 & Hpaint & Hreq1 & Hcan1).
  { intros t r Hin. apply elem_of_zip_r in Hin.
    apply list_elem_of_fmap in Hin as (t' & -> & Hin).
    apply (wf_composite_patch s t' Hwf). by apply Hts. }
  destruct (progress_loop_run ts (set_events (events s ++ evs1) s))
    as (ind & evs2 & Hloop & Hlen & Hreq2 & Hcan2).
  { by apply wf_set_events. }
  { done. }
  { done. }
  exists ind, (evs1 ++ evs2). split_and!.
  - erewrite bind_Return.
    2:{ apply mapM_getitem. intros t Hin.
        destruct (wf_composite_patch s t Hwf) as (p & Hp & _); [by apply Hts|by eauto]. }
    erewrite bind_Return by exact Hpaint. rewrite Hloop.
    simpl. by rewrite <- app_assoc.
  - done.
  - by rewrite requests_app, Hreq1, Hreq2.
  - by rewrite cancellations_app, Hcan1, Hcan2.
Qed.

(** * Dirty marks *)

Lemma bump_twice p (k : nat) :
  ImagePatch.set_dataVer
    (ImagePatch.dataVer (bumped p) + Z.of_nat k) (bumped p)
  = ImagePatch.set_dataVer (ImagePatch.dataVer p + Z.of_nat (S k)) p.
Proof. destruct p; unfold bumped, ImagePatch.set_dataVer; simpl. f_equal. lia. Qed.




(** * The requests of a paint pass *)

(** A paint pass on a well-formed scene with the verbose flag off and at
    least one layer: where it ends and what it has requested. *)
Lemma drawBackground_pass (s : Scene) (rect : QRectF) :
  wf s -> verboseRequests s = false -> _numLayers s ≠ 0%nat ->
  ∃ s' rs,
    ImageScene2D.drawBackground rect s = (s', Return tt) ∧
    wf s' ∧ _tiling s' = _tiling s ∧ verboseRequests s' = false ∧
    _numLayers s' = _numLayers s ∧
    length (_imageLayers s') = length (_imageLayers s) ∧
    (∃ evs, events s' = events s ++ evs ∧ requests evs = rs) ∧
    NoDup rs ∧
    (∀ l t, (l, t) ∈ rs <->
       t ∈ Tiling.intersectedF (_tiling s) rect ∧
       ∃ p, patchAt (ImageLayer l, t) s = Some p ∧
            ImagePatch.needsRequest p = true) ∧
    (∀ l t p, patchAt (ImageLayer l, t) s = Some p ->
       patchAt (ImageLayer l, t) s'
         = Some (if bool_decide (t ∈ Tiling.intersectedF (_tiling s) rect)
                 then visit p else p)).
Proof.
  intros Hwf Hv Hn. set (patches := Tiling.intersectedF (_tiling s) rect).
  destruct (request_tiles_run s [] s patches Hwf Hv (requested_start s Hwf))
    as (s1 & Hrun1 & [Hwf1 Hframe Hlen Hpatch (rs & Hev & Hnd & Hrs)]).
  { apply (wf_intersectedF s Hwf). }
  assert (_numLayers s1 = _numLayers s) as Hn1 by (by rewrite Hframe).
  assert (_tiling s1 = _tiling s) as Ht1 by (by rewrite Hframe).
  assert (verboseRequests s1 = false) as Hv1 by (by rewrite Hframe).
  destruct (display_run patches s1 Hwf1) as (ind & evs & Hrun2 & Hind & Hreq & _).
  { by rewrite Hn1. }
  { intros t Hin. rewrite Ht1. by apply (wf_intersectedF s Hwf rect). }
  exists (set_events (events s1 ++ evs) (set_indicate ind s1)), rs. split_and!.
  - unfold ImageScene2D.drawBackground.
    erewrite bind_Return by reflexivity.
    erewrite bind_Return by exact Hrun1. exact Hrun2.
  - by apply wf_set_events, wf_set_indicate.
  - done.
  - done.
  - done.
  - done.
  - exists (map (fun r => RequestPatch r.1 r.2) rs ++ evs). split.
    + simpl. by rewrite Hev, <- app_assoc.
    + by rewrite requests_app, requests_map, Hreq, app_nil_r.
  - done.
  - intros l t. rewrite Hrs. simpl. rewrite elem_of_visits. split.
    + intros [[Hin _] Hex]. done.
    + intros [Hin (p & Hp & Hnp)]. split; [|by exists p]. split; [done|].
      unfold patchAt in Hp; simpl in Hp. apply lookup_lt_is_Some.
      destruct (_imageLayers s !! l); [eauto|done].
  - intros l t p Hp. rewrite patchAt_set_events, patchAt_set_indicate.
    rewrite (Hpatch l t p Hp). simpl. f_equal.
    assert (l < length (_imageLayers s))%nat as Hl.
    { unfold patchAt in Hp; simpl in Hp. apply lookup_lt_is_Some.
      destruct (_imageLayers s !! l); [eauto|done]. }
    destruct (bool_decide (t ∈ patches)) eqn:E.
    + rewrite bool_decide_eq_true_2; [done|].
      apply bool_decide_eq_true in E. by apply elem_of_visits.
    + rewrite bool_decide_eq_false_2; [done|].
      apply bool_decide_eq_false in E. rewrite elem_of_visits. tauto.
Qed.

(** * The report as a whole *)

(** Induction on operators, with the statement for every child at hand. *)
Lemma Operator_children_ind (P : Operator.t -> Prop) :
  (∀ o, Forall P (Operator.children o) -> P o) -> ∀ o, P o.
Proof.
  intros step. fix IH 1. intros o. apply step.
  destruct o as [? ? ? ? ? ? ? ? ? ? ch]. simpl.
  induction ch as [|c ch IHch]; constructor; [apply IH | exact IHch].
Qed.

Lemma nodes_unfold r :
  ReportTree.nodes r = r :: flat_map ReportTree.nodes (MemInfoNode.children r).
Proof. by destruct r. Qed.

Lemma caches_unfold self :
  ReportTree.caches self
  = self ::
    flat_map
      (fun child =>
         if Operator.isinstance child ClsOpCache then ReportTree.caches child else [])
      (Operator.children self).
Proof. by destruct self. Qed.

Lemma generateReport_fields self node :
  Operator.isinstance self ClsOpCache = true ->
  ReportTree.fields node = ReportTree.fields MemInfoNode.__init__ ->
  ReportTree.fields (Report.generateReport self node) = ReportTree.assigned self.
Proof.
  destruct self as [c ? ? ? ? ? ? ? ? ? ch], node. unfold ReportTree.fields. simpl.
  intros Hc [= -> -> -> -> -> -> -> -> ->]. by destruct c.
Qed.

Lemma generateReport_children self node :
  Operator.isinstance self ClsOpCache = true ->
  MemInfoNode.children (Report.generateReport self node)
  = flat_map
      (fun child =>
         if Operator.isinstance child ClsOpCache
         then [Report.generateReport child MemInfoNode.__init__] else [])
      (Operator.children self).
Proof.
  destruct self as [c ? ? ? ? ? ? ? ? ? ch]. intros Hc.
  destruct c; try discriminate; simpl;
    apply flat_map_ext; intros child; by destruct (Operator.cls child).
Qed.

Lemma report_nodes self :
  Operator.isinstance self ClsOpCache = true ->
  map ReportTree.fields
    (ReportTree.nodes (Report.generateReport self MemInfoNode.__init__))
  = map ReportTree.assigned (ReportTree.caches self).
Proof.
  induction self as [self IH] using Operator_children_ind. intros Hc.
  rewrite nodes_unfold, caches_unfold, generateReport_children by done.
  cbn [map]. f_equal; [by apply generateReport_fields|].
  induction IH as [|c ch Hhd _ IHch]; [done|].
  cbn [flat_map]. destruct (Operator.isinstance c ClsOpCache) eqn:Hcc.
  - cbn [app flat_map]. rewrite !map_app, Hhd, IHch by done. done.
  - done.
Qed.

(** X2.  The report [generateReport] builds for a cache on a new node is a
    tree with one node for the cache and one for every operator reached from
    it through children that are instances of [OpCache], in the depth-first
    order of the children lists.  A node holds the type, id and name of its
    cache, [usedMemory] and [fractionOfUsedMemoryDirty] if the cache is
    observable, [lastAccessTime] if it is managed, and neither [dtype],
    [roi] nor [info].  What sits below a child that is no [OpCache] is left
    out: a cache with no cache among its children reports a single node. *)
Theorem generateReport_tree (self : Operator.t) :
  Operator.isinstance self ClsOpCache = true ->
  let report := Report.generateReport self MemInfoNode.__init__ in
  map ReportTree.fields (ReportTree.nodes report)
    = map ReportTree.assigned (ReportTree.caches self) ∧
  length (ReportTree.nodes report) = length (ReportTree.caches self) ∧
  (Forall (fun child => Operator.isinstance child ClsOpCache = false)
     (Operator.children self) ->
   ReportTree.nodes report = [report]).
Proof.
  intros Hc report. pose proof (report_nodes self Hc) as Hnodes.
  split; [exact Hnodes|]. split.
  - apply (f_equal length) in Hnodes. by rewrite !length_map in Hnodes.
  - intros Hplain. subst report. rewrite nodes_unfold, generateReport_children by done.
    induction Hplain as [|c ch Hcc _ IH]; [done|].
    cbn [flat_map]. rewrite Hcc. exact IH.
Qed.

(** X3.  [generateReport] assigns and never accumulates: called again on
    the node it has filled it leaves the node as it is; the children it
    stores do not depend on what the node held before; and the report of a
    managed cache erases every figure the node carried from the report of
    another cache. *)
Theorem generateReport_overwrites (self : Operator.t) (node : MemInfoNode.t) :
  Operator.isinstance self ClsOpCache = true ->
  Report.generateReport self (Report.generateReport self node)
    = Report.generateReport self node ∧
  MemInfoNode.children (Report.generateReport self node)
    = MemInfoNode.children (Report.generateReport self MemInfoNode.__init__) ∧
  (Operator.isinstance self ClsOpManagedCache = true ->
   ∀ other, Operator.isinstance other ClsOpCache = true ->
     Report.generateReport self (Report.generateReport other node)
     = Report.generateReport self node).
Proof.
  intros Hc. split_and!.
  - destruct self as [c ? ? ? ? ? ? ? ? ? ?]. by destruct c.
  - by rewrite !generateReport_children.
  - intros Hm other Ho.
    destruct self as [c ? ? ? ? ? ? ? ? ? ?]. destruct c; try discriminate.
    destruct other as [c' ? ? ? ? ? ? ? ? ? ?]. by destruct c'.
Qed.

(** * Brush strokes *)

Lemma tiling_set_events v s : _tiling (set_events v s) = _tiling s.
Proof. reflexivity. Qed.

Lemma drawLine_run a b pen t p r tR s :
  Tiling.containsF (_tiling s) b = Some t ->
  patchAt (BrushingLayer, t) s = Some p -> ImagePatch.mutex p = false ->
  Tiling._imageRectF (_tiling s) !! t = Some r ->
  Tiling.rectF (_tiling s) !! t = Some tR ->
  ImageScene2D.drawLine a b pen s
  = (set_events (events s ++ [Invalidate tR])
       (set_patch (BrushingLayer, t) (stroked a b (topLeft r) pen p) s),
     Return tt).
Proof.
  intros Hc Hp Hm Hr HtR. unfold ImageScene2D.drawLine.
  erewrite bind_Return by reflexivity. rewrite Hc.
  step. step.
  erewrite bind_Return by reflexivity. rewrite tiling_set_patch, Hr.
  step. step. step.
  unfold ImageScene2D._schedulePatchRedraw.
  erewrite bind_Return by reflexivity.
  autorewrite with scene. rewrite !tiling_set_patch, HtR.
  unfold emit, modify. autorewrite with scene.
  do 3 f_equal. unfold stroked, bumped. by destruct p; simpl in *; subst.
Qed.

Lemma brush_current t p s :
  patchAt (BrushingLayer, t) s = Some p ->
  ImagePatch.dataVer p = ImagePatch.imgVer p ->
  (p ← getitem BrushingLayer t;
   current ← withPatch p (gets (fun p => ImagePatch.dataVer p =? ImagePatch.imgVer p));
   if current : bool then mret tt else paint p) s = (s, Return tt).
Proof.
  intros Hp Hcur. step. step. rewrite set_patch_id by done.
  by rewrite Hcur, Z.eqb_refl.
Qed.

Lemma brush_stale t p s :
  patchAt (BrushingLayer, t) s = Some p -> ImagePatch.mutex p = false ->
  ImagePatch.dataVer p ≠ ImagePatch.imgVer p ->
  (p ← getitem BrushingLayer t;
   current ← withPatch p (gets (fun p => ImagePatch.dataVer p =? ImagePatch.imgVer p));
   if current : bool then mret tt else paint p) s
  = (set_events (events s ++ [PaintImage (ImagePatch.image p)]) s, Return tt).
Proof.
  intros Hp Hm Hcur. step. step. rewrite set_patch_id by done.
  apply Z.eqb_neq in Hcur. rewrite Hcur. by apply paint_run.
Qed.

Lemma strokes_to_paint_set_events v s ts :
  strokes_to_paint (set_events v s) ts = strokes_to_paint s ts.
Proof. reflexivity. Qed.

Lemma foreground_loop ts s :
  (∀ t, t ∈ ts ->
     ∃ p, patchAt (BrushingLayer, t) s = Some p ∧ ImagePatch.mutex p = false) ->
  forM_ ts (fun tileId =>
    p ← getitem BrushingLayer tileId;
    current ← withPatch p (gets (fun p => ImagePatch.dataVer p =? ImagePatch.imgVer p));
    if current : bool then mret tt else paint p) s
  = (set_events (events s ++ map PaintImage (strokes_to_paint s ts)) s, Return tt).
Proof.
  revert s. induction ts as [|t ts IH]; intros s Hall.
  - simpl. by rewrite app_nil_r, set_events_id.
  - destruct (Hall t) as (p & Hp & Hm); [left|].
    assert (Hb : _brushingLayer s !! t = Some p) by exact Hp.
    cbn [forM_ strokes_to_paint flat_map]. rewrite Hb.
    destruct (Z.eq_dec (ImagePatch.dataVer p) (ImagePatch.imgVer p)) as [Hcur|Hcur].
    + erewrite bind_Return by (by eapply brush_current).
      rewrite IH by (intros t' Hin; apply Hall; by right).
      apply Z.eqb_eq in Hcur. by rewrite Hcur.
    + erewrite bind_Return by (by eapply brush_stale).
      rewrite IH.
      2:{ intros t' Hin. destruct (Hall t') as (p' & Hp' & Hm'); [by right|].
          exists p'. by rewrite patchAt_set_events. }
      apply Z.eqb_neq in Hcur. rewrite Hcur.
      rewrite set_events_set_events. cbn [events set_events].
      rewrite strokes_to_paint_set_events. cbn [map app].
      by rewrite <- app_assoc.
Qed.

Lemma wf_brushing_patch s tileId :
  wf s -> (tileId < Tiling.len (_tiling s))%nat ->
  ∃ p, patchAt (BrushingLayer, tileId) s = Some p ∧ ImagePatch.mutex p = false.
Proof.
  intros Hwf Hlt. rewrite <- (wf_brushing s Hwf) in Hlt.
  apply lookup_lt_is_Some_2 in Hlt as [p Hp]. exists p. split; [exact Hp|].
  exact (wf_unlocked s Hwf (BrushingLayer, tileId) p Hp).
Qed.

Lemma drawForeground_run rect s :
  wf s ->
  ImageScene2D.drawForeground rect s
  = (set_events
       (events s ++
          map PaintImage
            (strokes_to_paint s (Tiling.intersectedF (_tiling s) rect))) s,
     Return tt).
Proof.
  intros Hwf. unfold ImageScene2D.drawForeground.
  erewrite bind_Return by reflexivity.
  apply foreground_loop. intros t Hin.
  apply wf_brushing_patch; [done|]. by eapply wf_intersectedF.
Qed.

Lemma painted_app evs evs' : painted (evs ++ evs') = painted evs ++ painted evs'.
Proof. unfold painted. by rewrite flat_map_app. Qed.

Lemma painted_map imgs : painted (map PaintImage imgs) = imgs.
Proof. induction imgs as [|i imgs IH]; [done|]. simpl. by rewrite IH. Qed.

(** X4.  [drawLine] on a well-formed scene, for an end point the tiling
    maps to none or to one of its tiles, returns.  With the end point on no
    tile the scene is unchanged.  Otherwise only the brushing patch of the
    tile of the end point changes: the line is drawn into its buffer in the
    coordinates of that tile's image rectangle, wherever the start point
    lies, its [dataVer] goes up by one, [imgVer] and [reqVer] stay and the
    mutex is released again; one [invalidate] of the tile's rectangle is
    issued, the progress array is untouched and the scene stays
    well-formed. *)
Theorem drawLine_effects (s : Scene) (fromPoint toPoint : QPointF) (pen : QPen) :
  wf s ->
  (∀ tileId, Tiling.containsF (_tiling s) toPoint = Some tileId ->
     (tileId < Tiling.len (_tiling s))%nat) ->
  let s' := (ImageScene2D.drawLine fromPoint toPoint pen s).1 in
  (ImageScene2D.drawLine fromPoint toPoint pen s).2 = Return tt ∧
  match Tiling.containsF (_tiling s) toPoint with
  | None => s' = s
  | Some tileId =>
      ∃ p r tR,
        patchAt (BrushingLayer, tileId) s = Some p ∧
        Tiling._imageRectF (_tiling s) !! tileId = Some r ∧
        Tiling.rectF (_tiling s) !! tileId = Some tR ∧
        patchAt (BrushingLayer, tileId) s'
          = Some (stroked fromPoint toPoint (topLeft r) pen p) ∧
        (∀ ref, ref ≠ (BrushingLayer, tileId) -> patchAt ref s' = patchAt ref s) ∧
        events s' = events s ++ [Invalidate tR] ∧
        _indicate s' = _indicate s ∧
        wf s'
  end.
Proof.
  intros Hwf Hin s'. subst s'.
  destruct (Tiling.containsF (_tiling s) toPoint) as [t|] eqn:Hc.
  - specialize (Hin t eq_refl).
    destruct (wf_brushing_patch s t Hwf Hin) as (p & Hp & Hm).
    assert (∃ r, Tiling._imageRectF (_tiling s) !! t = Some r) as [r Hr].
    { apply lookup_lt_is_Some_2. by rewrite (wf_imageRectF s Hwf). }
    assert (∃ tR, Tiling.rectF (_tiling s) !! t = Some tR) as [tR HtR].
    { apply lookup_lt_is_Some_2. by rewrite (wf_rectF s Hwf). }
    rewrite (drawLine_run fromPoint toPoint pen t p r tR s) by done.
    split; [done|]. exists p, r, tR. cbn [fst]. split_and!; try done.
    + rewrite patchAt_set_events. by eapply patchAt_set_patch_Some.
    + intros ref Hne. rewrite patchAt_set_events. by apply patchAt_set_patch_ne.
    + apply wf_set_events. eapply wf_set_patch; [done|exact Hp|].
      unfold stroked, bumped. simpl. exact Hm.
  - unfold ImageScene2D.drawLine. erewrite bind_Return by reflexivity.
    by rewrite Hc.
Qed.

Lemma Example_tiling_containsF pt t :
  Tiling.containsF Example.tiling pt = Some t -> (t < 4)%nat.
Proof.
  unfold Example.tiling; cbn [Tiling.containsF]. intros Hfind.
  apply find_some in Hfind as [Hin _]. apply list_elem_of_In in Hin.
  unfold Example.tiles in Hin.
  repeat (apply elem_of_cons in Hin as [->|Hin]; [lia|]).
  by apply elem_of_nil in Hin.
Qed.

(** X5.  [drawForeground] on a well-formed scene returns, hands the painter
    the buffers of exactly the brushing patches on the intersected tiles
    whose [dataVer] differs from [imgVer], in tile order, and changes
    nothing else: no counter is written, so the next pass paints the same
    buffers again. *)
Theorem drawForeground_paints_strokes (s : Scene) (rect : QRectF) :
  wf s ->
  let strokes := strokes_to_paint s (Tiling.intersectedF (_tiling s) rect) in
  let s' := (ImageScene2D.drawForeground rect s).1 in
  (ImageScene2D.drawForeground rect s).2 = Return tt ∧
  s' = set_events (events s ++ map PaintImage strokes) s ∧
  (∀ ref, patchAt ref s' = patchAt ref s) ∧
  (ImageScene2D.drawForeground rect s').2 = Return tt ∧
  events (ImageScene2D.drawForeground rect s').1
    = events s' ++ map PaintImage strokes.
Proof.
  intros Hwf strokes s'. subst strokes s'.
  rewrite (drawForeground_run rect s Hwf). cbn [fst snd].
  split_and!; try done.
  - rewrite drawForeground_run by by apply wf_set_events. done.
  - rewrite drawForeground_run by by apply wf_set_events. done.
Qed.

(** * Invalidation, tile by tile *)

Lemma occurrences_cons t t' ts :
  occurrences t (t' :: ts)
  = if decide (t = t') then S (occurrences t ts) else occurrences t ts.
Proof.
  unfold occurrences. cbn [List.filter].
  destruct (decide (t = t')) as [->|Hne].
  - by rewrite Nat.eqb_refl.
  - apply Nat.eqb_neq in Hne. by rewrite Hne.
Qed.

Lemma occurrences_not_in t ts : t ∉ ts -> occurrences t ts = 0%nat.
Proof.
  induction ts as [|t' ts IH]; [done|]. intros Hnin.
  apply not_elem_of_cons in Hnin as [Hne Hnin].
  rewrite occurrences_cons. destruct (decide (t = t')); [done|]. by apply IH.
Qed.

Lemma occurrences_in t ts : t ∈ ts -> (1 ≤ occurrences t ts)%nat.
Proof.
  induction ts as [|t' ts IH]; intros Hin; [by apply elem_of_nil in Hin|].
  rewrite occurrences_cons. destruct (decide (t = t')); [lia|].
  apply elem_of_cons in Hin as [?|Hin]; [done|]. by apply IH.
Qed.

Lemma invalidate_tiles_exact ts s :
  wf s -> (∀ t, t ∈ ts -> (t < Tiling.len (_tiling s))%nat) ->
  ∃ s',
    forM_ ts ImageScene2D.invalidate_tile s = (s', Return tt) ∧
    wf s' ∧
    s' = set_events (events s ++ tile_events s ts)
           (set_compositeLayer (_compositeLayer s')
              (set_indicate (_indicate s') s)) ∧
    (∀ t p, _compositeLayer s !! t = Some p ->
       _compositeLayer s' !! t
       = Some (ImagePatch.set_dataVer
                 (ImagePatch.dataVer p + Z.of_nat (occurrences t ts)) p)) ∧
    (∀ t, _indicate s' !! t
          = if bool_decide (t ∈ ts) then Some 1%Qc else _indicate s !! t).
Proof.
  revert s. induction ts as [|t ts IH]; intros s Hwf Hall.
  - exists s. split_and!; try done.
    + simpl. rewrite app_nil_r. by destruct s.
    + intros t p Hp. rewrite Hp. unfold occurrences; simpl.
      rewrite Z.add_0_r. by destruct p.
  - assert (Ht : (t < Tiling.len (_tiling s))%nat) by (apply Hall; left).
    destruct (wf_composite_patch s t Hwf Ht) as (p & Hp & Hm).
    assert (Hpc : _compositeLayer s !! t = Some p) by exact Hp.
    assert (∃ r, Tiling.rectF (_tiling s) !! t = Some r) as [r Hr].
    { apply lookup_lt_is_Some_2. by rewrite (wf_rectF s Hwf). }
    assert (Hi : (t < length (_indicate s))%nat) by by rewrite (wf_indicate s Hwf).
    pose proof (invalidate_tile_run t p r s Hi Hp Hr) as Hrun.
    set (s1 := set_events (events s ++ [IndicatorUpdate; Invalidate r])
                 (set_compositeLayer (<[t := bumped p]> (_compositeLayer s))
                    (set_indicate (<[t := 1%Qc]> (_indicate s)) s))) in *.
    assert (Hwf1 : wf s1).
    { subst s1. apply wf_set_events.
      change (set_compositeLayer (<[t:=bumped p]> (_compositeLayer s))
                (set_indicate (<[t:=1%Qc]> (_indicate s)) s))
        with (set_patch (CompositeLayer, t) (bumped p)
                (set_indicate (<[t:=1%Qc]> (_indicate s)) s)).
      eapply wf_set_patch.
      - apply wf_set_indicate; [done|]. by rewrite length_insert.
      - rewrite patchAt_set_indicate. exact Hp.
      - exact Hm. }
    destruct (IH s1 Hwf1) as (s' & Hloop & Hwf' & Hframe & Hcomp & Hind).
    { intros t' Hin. apply Hall. by right. }
    exists s'. split_and!.
    + simpl. erewrite bind_Return; [exact Hloop|exact Hrun].
    + done.
    + rewrite Hframe at 1. subst s1. cbn [tile_events flat_map].
      unfold tile_events at 1. cbn [_tiling set_events set_compositeLayer set_indicate events].
      rewrite Hr. rewrite <- app_assoc. reflexivity.
    + intros t' p' Hp'. rewrite occurrences_cons.
      destruct (decide (t' = t)) as [->|Hne].
      * rewrite Hpc in Hp'. injection Hp' as <-.
        rewrite (Hcomp t (bumped p)).
        2:{ subst s1; simpl. apply list_lookup_insert_eq. by eapply lookup_lt_Some. }
        by rewrite bump_twice.
      * apply Hcomp. subst s1; simpl. by rewrite list_lookup_insert_ne.
    + intros t'. rewrite Hind.
      destruct (decide (t' = t)) as [->|Hne].
      * rewrite (bool_decide_eq_true_2 (t ∈ t :: ts)) by left.
        case_bool_decide; [done|].
        subst s1; simpl. by apply list_lookup_insert_eq.
      * subst s1; simpl. rewrite list_lookup_insert_ne by done.
        rewrite (bool_decide_ext (t' ∈ t :: ts) (t' ∈ ts)); [done|].
        rewrite elem_of_cons. intuition.
Qed.

Lemma wf_reset_state s : wf s -> wf (reset_state s).
Proof.
  intros Hwf. apply wf_from_lists; unfold reset_state; simpl.
  - exact (wf_intersected s Hwf).
  - exact (wf_intersectedF s Hwf).
  - apply Forall_forall. intros layer Hin.
    apply list_elem_of_fmap in Hin as (layer0 & -> & Hin).
    apply list_elem_of_lookup in Hin as [l Hl]. split.
    + rewrite length_map. exact (wf_image s Hwf l layer0 Hl).
    + apply Forall_forall. intros p Hp.
      apply list_elem_of_fmap in Hp as (p0 & -> & Hp0).
      apply list_elem_of_lookup in Hp0 as [i Hi]. simpl.
      apply (wf_unlocked s Hwf (ImageLayer l, i) p0).
      unfold patchAt; simpl. by rewrite Hl.
  - exact (wf_composite s Hwf).
  - apply Forall_forall. intros p Hp.
    apply list_elem_of_lookup in Hp as [i Hi].
    exact (wf_unlocked s Hwf (CompositeLayer, i) p Hi).
  - rewrite length_map. exact (wf_brushing s Hwf).
  - apply Forall_forall. intros p Hp.
    apply list_elem_of_fmap in Hp as (p0 & -> & Hp0).
    apply list_elem_of_lookup in Hp0 as [i Hi]. simpl.
    exact (wf_unlocked s Hwf (BrushingLayer, i) p0 Hi).
  - exact (wf_indicate s Hwf).
  - exact (wf_rectF s Hwf).
  - exact (wf_imageRectF s Hwf).
Qed.

(** The whole of [_invalidateRect] on a well-formed scene: the reset block
    when the rectangle is not valid, then the tiles. *)
Lemma invalidateRect_exact rect s :
  wf s ->
  let s0 := if isValid rect then s else reset_state s in
  let ts := Tiling.intersected (_tiling s) rect in
  ∃ s',
    ImageScene2D._invalidateRect rect s = (s', Return tt) ∧
    wf s' ∧
    s' = set_events (events s0 ++ tile_events s ts)
           (set_compositeLayer (_compositeLayer s')
              (set_indicate (_indicate s') s0)) ∧
    (∀ t p, _compositeLayer s !! t = Some p ->
       _compositeLayer s' !! t
       = Some (ImagePatch.set_dataVer
                 (ImagePatch.dataVer p + Z.of_nat (occurrences t ts)) p)) ∧
    (∀ t, _indicate s' !! t
          = if bool_decide (t ∈ ts) then Some 1%Qc else _indicate s !! t).
Proof.
  intros Hwf s0 ts.
  assert (Hwf0 : wf s0) by (subst s0; destruct (isValid rect); [done|by apply wf_reset_state]).
  assert (Hrun : (when (negb (isValid rect)) ImageScene2D.invalidate_everything) s
                 = (s0, Return tt)).
  { subst s0. destruct (isValid rect); simpl; [done|by apply reset_run]. }
  assert (Ht0 : _tiling s0 = _tiling s) by (subst s0; by destruct (isValid rect)).
  destruct (invalidate_tiles_exact ts s0 Hwf0) as (s' & Hloop & Hwf' & Hframe & Hcomp & Hind).
  { intros t Hin. rewrite Ht0. by eapply wf_intersected. }
  exists s'. split_and!; try done.
  - unfold ImageScene2D._invalidateRect.
    erewrite bind_Return by exact Hrun.
    erewrite bind_Return by reflexivity. rewrite Ht0. exact Hloop.
  - rewrite Hframe at 1. unfold tile_events. by rewrite Ht0.
  - intros t p Hp. apply Hcomp. subst s0. by destruct (isValid rect).
  - intros t. rewrite Hind. subst s0. by destruct (isValid rect).
Qed.

Lemma tile_events_quiet s ts :
  cancellations (tile_events s ts) = 0%nat ∧ requests (tile_events s ts) = [] ∧
  painted (tile_events s ts) = [].
Proof.
  induction ts as [|t ts (IH1 & IH2 & IH3)]; [done|].
  unfold tile_events in *. cbn [flat_map].
  rewrite cancellations_app, requests_app, painted_app, IH1, IH2, IH3.
  by destruct (Tiling.rectF (_tiling s) !! t).
Qed.

Lemma invalidated_app evs evs' :
  invalidated (evs ++ evs') = invalidated evs ++ invalidated evs'.
Proof. unfold invalidated. by rewrite flat_map_app. Qed.

Lemma tile_events_invalidated s ts :
  (∀ t, t ∈ ts -> (t < length (Tiling.rectF (_tiling s)))%nat) ->
  map Some (invalidated (tile_events s ts))
  = map (fun t => Tiling.rectF (_tiling s) !! t) ts.
Proof.
  induction ts as [|t ts IH]; intros Hall; [done|].
  unfold tile_events in *. cbn [flat_map map].
  rewrite invalidated_app, map_app, IH by (intros t' Hin; apply Hall; by right).
  destruct (lookup_lt_is_Some_2 (Tiling.rectF (_tiling s)) t) as [r Hr];
    [apply Hall; left|].
  by rewrite Hr.
Qed.

(** X6.  [_invalidateRect] with a valid rectangle on a well-formed scene
    returns; it cancels no request and issues none, leaves the image layers,
    the brushing layer and the updatable tiles alone, raises [dataVer] of the
    composite patch of a tile by the number of times the tiling lists the
    tile, issues one [invalidate] per listed tile, in order, with the tile's
    rectangle, and sets the progress of the intersected tiles, and of no
    other tile, to 1.0. *)
Theorem invalidateRect_partial_effects (s : Scene) (rect : QRect) :
  wf s -> isValid rect = true ->
  let ts := Tiling.intersected (_tiling s) rect in
  let s' := (ImageScene2D._invalidateRect rect s).1 in
  (ImageScene2D._invalidateRect rect s).2 = Return tt ∧
  _imageLayers s' = _imageLayers s ∧
  _brushingLayer s' = _brushingLayer s ∧
  _updatableTiles s' = _updatableTiles s ∧
  (∃ evs, events s' = events s ++ evs ∧
     cancellations evs = 0%nat ∧ requests evs = [] ∧
     map Some (invalidated evs) = map (fun t => Tiling.rectF (_tiling s) !! t) ts) ∧
  (∀ t p, patchAt (CompositeLayer, t) s = Some p ->
     patchAt (CompositeLayer, t) s'
     = Some (ImagePatch.set_dataVer
               (ImagePatch.dataVer p + Z.of_nat (occurrences t ts)) p)) ∧
  (∀ t, _indicate s' !! t
        = if bool_decide (t ∈ ts) then Some 1%Qc else _indicate s !! t).
Proof.
  intros Hwf Hvalid ts s'. subst s'.
  destruct (invalidateRect_exact rect s Hwf) as (s' & Hrun & Hwf' & Hframe & Hcomp & Hind).
  rewrite Hvalid in Hframe. rewrite Hrun. cbn [fst snd].
  split_and!; try done.
  - by rewrite Hframe.
  - by rewrite Hframe.
  - by rewrite Hframe.
  - exists (tile_events s ts). destruct (tile_events_quiet s ts) as (Hc & Hr & _).
    split_and!; try done.
    + by rewrite Hframe.
    + apply tile_events_invalidated. intros t Hin.
      rewrite (wf_rectF s Hwf). by eapply wf_intersected.
Qed.

(** * A stroke and the foreground pass *)

Lemma map_replicate {A B} (f : A -> B) (n : nat) (x : A) :
  map f (replicate n x) = replicate n (f x).
Proof. induction n as [|n IH]; [done|]. simpl. by rewrite IH. Qed.

Lemma strokes_after_stroke t p p' ts s s' :
  _brushingLayer s !! t = Some p ->
  _brushingLayer s' = <[t := p']> (_brushingLayer s) ->
  ImagePatch.dataVer p' ≠ ImagePatch.imgVer p' ->
  (∀ q, q ∈ _brushingLayer s -> ImagePatch.dataVer q = ImagePatch.imgVer q) ->
  strokes_to_paint s' ts = replicate (occurrences t ts) (ImagePatch.image p').
Proof.
  intros Hp Hb Hne Hcur. induction ts as [|t' ts IH]; [done|].
  rewrite occurrences_cons. unfold strokes_to_paint in *. cbn [flat_map].
  rewrite IH, Hb. destruct (decide (t = t')) as [<-|Hnet].
  - rewrite list_lookup_insert_eq by by eapply lookup_lt_Some.
    apply Z.eqb_neq in Hne. by rewrite Hne.
  - rewrite list_lookup_insert_ne by done.
    destruct (_brushingLayer s !! t') as [q|] eqn:Hq; [|done].
    rewrite (Hcur q) by by eapply list_elem_of_lookup_2.
    by rewrite Z.eqb_refl.
Qed.

Lemma strokes_after_reset ts s s' :
  _brushingLayer s' = map cleared (_brushingLayer s) ->
  strokes_to_paint s' ts = [].
Proof.
  intros Hb. induction ts as [|t ts IH]; [done|].
  unfold strokes_to_paint in *. cbn [flat_map]. rewrite IH, Hb, app_nil_r.
  rewrite list_lookup_fmap. destruct (_brushingLayer s !! t) as [q|]; [|done].
  simpl. by rewrite Z.eqb_refl.
Qed.

(** X7.  On a well-formed scene whose brushing patches are all current,
    after a stroke that ends on a tile the foreground pass paints the buffer
    with the line, once for each time the tiling lists that tile, and no
    other buffer; after a full invalidation the brushing buffers are blank
    and current, and the foreground pass paints nothing and leaves the scene
    as it is. *)
Theorem stroke_shown_until_reset (s : Scene) (fromPoint toPoint : QPointF)
    (pen : QPen) (tileId : nat) (rect : QRectF) (reset : QRect) :
  wf s ->
  Tiling.containsF (_tiling s) toPoint = Some tileId ->
  (tileId < Tiling.len (_tiling s))%nat ->
  (∀ q, q ∈ _brushingLayer s -> ImagePatch.dataVer q = ImagePatch.imgVer q) ->
  isValid reset = false ->
  let s1 := (ImageScene2D.drawLine fromPoint toPoint pen s).1 in
  let s2 := (ImageScene2D._invalidateRect reset s1).1 in
  ∃ p r,
    patchAt (BrushingLayer, tileId) s = Some p ∧
    Tiling._imageRectF (_tiling s) !! tileId = Some r ∧
    let buffer :=
      DrawLine (ImagePatch.image p) (QPointF_sub fromPoint (topLeft r))
        (QPointF_sub toPoint (topLeft r)) pen in
    ImageScene2D.drawForeground rect s1
      = (set_events
           (events s1 ++
              replicate (occurrences tileId (Tiling.intersectedF (_tiling s) rect))
                (PaintImage buffer)) s1,
         Return tt) ∧
    (ImageScene2D._invalidateRect reset s1).2 = Return tt ∧
    (∀ q, q ∈ _brushingLayer s2 ->
       ImagePatch.image q = Fill 0 ∧ ImagePatch.imgVer q = ImagePatch.dataVer q) ∧
    ImageScene2D.drawForeground rect s2 = (s2, Return tt).
Proof.
  intros Hwf Hc Hlt Hcur Hreset s1 s2.
  destruct (wf_brushing_patch s tileId Hwf Hlt) as (p & Hp & Hm).
  assert (∃ r, Tiling._imageRectF (_tiling s) !! tileId = Some r) as [r Hr].
  { apply lookup_lt_is_Some_2. by rewrite (wf_imageRectF s Hwf). }
  assert (∃ tR, Tiling.rectF (_tiling s) !! tileId = Some tR) as [tR HtR].
  { apply lookup_lt_is_Some_2. by rewrite (wf_rectF s Hwf). }
  pose proof (drawLine_run fromPoint toPoint pen tileId p r tR s Hc Hp Hm Hr HtR) as Hrun.
  assert (Hs1 : s1 = set_events (events s ++ [Invalidate tR])
                       (set_patch (BrushingLayer, tileId)
                          (stroked fromPoint toPoint (topLeft r) pen p) s))
    by (subst s1; by rewrite Hrun).
  assert (Hwf1 : wf s1).
  { rewrite Hs1. apply wf_set_events. by eapply wf_set_patch. }
  assert (Ht1 : _tiling s1 = _tiling s) by by rewrite Hs1.
  exists p, r. split; [done|]. split; [done|]. cbn zeta.
  destruct (invalidateRect_exact reset s1 Hwf1)
    as (s' & Hrun2 & Hwf2 & Hframe & _ & _).
  rewrite Hreset in Hframe.
  assert (Hs2 : s2 = s') by (subst s2; by rewrite Hrun2).
  assert (Hb2 : _brushingLayer s2 = map cleared (_brushingLayer s1))
    by (rewrite Hs2, Hframe; reflexivity).
  split_and!.
  - rewrite (drawForeground_run rect s1 Hwf1), Ht1.
    rewrite (strokes_after_stroke tileId p
               (stroked fromPoint toPoint (topLeft r) pen p) _ s s1);
      [|exact Hp|by rewrite Hs1| |done].
    2:{ assert (Hpc := Hcur p (list_elem_of_lookup_2 _ _ _ Hp)). simpl. lia. }
    by rewrite map_replicate.
  - by rewrite Hrun2.
  - intros q Hq. rewrite Hb2 in Hq.
    by apply list_elem_of_fmap in Hq as (q0 & -> & _).
  - rewrite (drawForeground_run rect s2) by by rewrite Hs2.
    rewrite (strokes_after_reset _ s1 s2 Hb2). cbn [map].
    by rewrite app_nil_r, set_events_id.
Qed.

(** * Dirty marks, counted *)

Lemma set_dataVer_0 p :
  ImagePatch.set_dataVer (ImagePatch.dataVer p + Z.of_nat 0) p = p.
Proof. destruct p. unfold ImagePatch.set_dataVer. simpl. by rewrite Z.add_0_r. Qed.

Lemma dirty_loop_exact l ts s :
  wf s -> (l < length (_imageLayers s))%nat ->
  (∀ t, t ∈ ts -> (t < Tiling.len (_tiling s))%nat) ->
  ∃ s',
    forM_ ts (ImageScene2D.dirty_tile l) s = (s', Return tt) ∧
    wf s' ∧ s' = set_imageLayers (_imageLayers s') s ∧
    length (_imageLayers s') = length (_imageLayers s) ∧
    ∀ l' t p, patchAt (ImageLayer l', t) s = Some p ->
      patchAt (ImageLayer l', t) s'
      = Some (if decide (l' = l)
              then ImagePatch.set_dataVer
                     (ImagePatch.dataVer p + Z.of_nat (occurrences t ts)) p
              else p).
Proof.
  intros Hwf Hl. revert s Hwf Hl.
  induction ts as [|t0 ts IH]; intros s Hwf Hl Hts.
  - exists s. split_and!; try done; [by destruct s|].
    intros l' t p Hp. rewrite Hp. unfold occurrences; simpl.
    rewrite set_dataVer_0. by destruct (decide (l' = l)).
  - destruct (wf_image_patch s l t0 Hwf Hl) as (q0 & Hq0 & Hm0); [apply Hts; left|].
    set (s1 := set_patch (ImageLayer l, t0) (bumped q0) s).
    assert (wf s1) as Hwf1 by (by eapply wf_set_patch).
    destruct (IH s1 Hwf1) as (s' & Hrun & Hwf' & Hframe & Hlen & Hpatch).
    { subst s1. by rewrite length_imageLayers_set_patch. }
    { intros t Hin. subst s1. rewrite tiling_set_patch. apply Hts. by right. }
    exists s'. split_and!.
    + simpl. erewrite bind_Return; [exact Hrun|].
      unfold ImageScene2D.dirty_tile.
      erewrite bind_Return by (by eapply getitem_run).
      by erewrite withPatch_Return.
    + done.
    + rewrite Hframe at 1. subst s1. unfold set_patch. reflexivity.
    + rewrite Hlen. subst s1. apply length_imageLayers_set_patch.
    + intros l' t p Hp. rewrite occurrences_cons.
      destruct (decide ((ImageLayer l', t) = (ImageLayer l, t0))) as [Heq|Hne].
      * injection Heq as -> ->. assert (p = q0) as -> by congruence.
        rewrite (Hpatch l t0 (bumped q0)) by (subst s1; by eapply patchAt_set_patch_Some).
        rewrite !decide_True by done. by rewrite bump_twice.
      * rewrite (Hpatch l' t p) by (subst s1; by rewrite patchAt_set_patch_ne).
        destruct (decide (l' = l)) as [->|]; [|done].
        rewrite decide_False by congruence. done.
Qed.

Lemma patchAt_reset_state l t s :
  patchAt (ImageLayer l, t) (reset_state s) = bumped <$> patchAt (ImageLayer l, t) s.
Proof.
  unfold patchAt, reset_state; simpl. rewrite list_lookup_fmap.
  destruct (_imageLayers s !! l) as [layer|]; simpl; [|done].
  by rewrite list_lookup_fmap.
Qed.

Lemma bumped_plus p (k : nat) :
  bumped (ImagePatch.set_dataVer (ImagePatch.dataVer p + Z.of_nat k) p)
  = ImagePatch.set_dataVer (ImagePatch.dataVer p + Z.of_nat (k + 1)) p.
Proof.
  destruct p. unfold bumped, ImagePatch.set_dataVer. simpl. f_equal. lia.
Qed.

(** The whole of [_onLayerDirty] for a layer the scene has. *)
Lemma onLayerDirty_exact l rect s :
  wf s -> (l < length (_imageLayers s))%nat ->
  let ts := Tiling.intersected (_tiling s) rect in
  ∃ s',
    ImageScene2D._onLayerDirty l rect s = (s', Return tt) ∧
    wf s' ∧
    (∀ l' t p, patchAt (ImageLayer l', t) s = Some p ->
       patchAt (ImageLayer l', t) s'
       = Some (ImagePatch.set_dataVer
                 (ImagePatch.dataVer p +
                  Z.of_nat ((if decide (l' = l) then occurrences t ts else 0) +
                            (if isValid rect then 0 else 1))) p)) ∧
    (∀ t p, patchAt (CompositeLayer, t) s = Some p ->
       patchAt (CompositeLayer, t) s'
       = Some (ImagePatch.set_dataVer
                 (ImagePatch.dataVer p + Z.of_nat (occurrences t ts)) p)) ∧
    _brushingLayer s'
      = (if isValid rect then _brushingLayer s else map cleared (_brushingLayer s)) ∧
    events s'
      = events s ++ (if isValid rect then [] else [CancelAll]) ++ tile_events s ts.
Proof.
  intros Hwf Hl ts.
  destruct (dirty_loop_exact l ts s Hwf Hl) as (s1 & Hrun1 & Hwf1 & Hframe1 & Hlen1 & Hpatch1).
  { intros t Hin. by eapply wf_intersected. }
  assert (Ht1 : _tiling s1 = _tiling s) by by rewrite Hframe1.
  destruct (invalidateRect_exact rect s1 Hwf1) as (s' & Hrun2 & Hwf' & Hframe & Hcomp & Hind).
  rewrite Ht1 in Hframe, Hcomp, Hind. fold ts in Hframe, Hcomp, Hind.
  exists s'. split_and!.
  - unfold ImageScene2D._onLayerDirty.
    erewrite bind_Return by reflexivity.
    erewrite bind_Return by exact Hrun1. exact Hrun2.
  - done.
  - intros l' t p Hp. specialize (Hpatch1 l' t p Hp).
    rewrite Hframe. destruct (isValid rect).
    + change (patchAt (ImageLayer l', t) s1 = Some (ImagePatch.set_dataVer
        (ImagePatch.dataVer p +
         Z.of_nat ((if decide (l' = l) then occurrences t ts else 0) + 0)) p)).
      rewrite Hpatch1, Nat.add_0_r.
      destruct (decide (l' = l)); [done|]. by rewrite set_dataVer_0.
    + change (patchAt (ImageLayer l', t) (reset_state s1) = Some (ImagePatch.set_dataVer
        (ImagePatch.dataVer p +
         Z.of_nat ((if decide (l' = l) then occurrences t ts else 0) + 1)) p)).
      rewrite patchAt_reset_state, Hpatch1. simpl.
      destruct (decide (l' = l)); [by rewrite bumped_plus|].
      rewrite <- (set_dataVer_0 p) at 1. by rewrite bumped_plus.
  - intros t p Hp. apply Hcomp. rewrite Hframe1. exact Hp.
  - rewrite Hframe. destruct (isValid rect); simpl; by rewrite Hframe1.
  - rewrite Hframe. destruct (isValid rect); simpl; rewrite Hframe1; simpl.
    + done.
    + by rewrite <- app_assoc.
Qed.

(** X8.  [_onLayerDirty] for a layer the scene has returns on a well-formed
    scene: [dataVer] of a patch of that layer goes up by the number of times
    the tiling lists its tile and, when the rectangle is not valid, by one
    more, as it then does for every patch of every layer; [imgVer] and
    [reqVer] are not written; the composite patches are bumped as by
    [_invalidateRect]; no request is issued; [cancelAll] is called exactly
    when the rectangle is not valid.  For a layer number the scene does not
    have and a rectangle that meets a tile the call raises [IndexError] at
    the first tile, with nothing changed and nothing scheduled. *)
Theorem onLayerDirty_effects (s : Scene) (layerNr : nat) (rect : QRect) :
  wf s ->
  let ts := Tiling.intersected (_tiling s) rect in
  let s' := (ImageScene2D._onLayerDirty layerNr rect s).1 in
  ((layerNr < length (_imageLayers s))%nat ->
   (ImageScene2D._onLayerDirty layerNr rect s).2 = Return tt ∧
   (∀ l t p, patchAt (ImageLayer l, t) s = Some p ->
      patchAt (ImageLayer l, t) s'
      = Some (ImagePatch.set_dataVer
                (ImagePatch.dataVer p +
                 Z.of_nat ((if decide (l = layerNr) then occurrences t ts else 0) +
                           (if isValid rect then 0 else 1))) p)) ∧
   (∀ t p, patchAt (CompositeLayer, t) s = Some p ->
      patchAt (CompositeLayer, t) s'
      = Some (ImagePatch.set_dataVer
                (ImagePatch.dataVer p + Z.of_nat (occurrences t ts)) p)) ∧
   (isValid rect = true -> _brushingLayer s' = _brushingLayer s) ∧
   requests (events s') = requests (events s) ∧
   cancellations (events s')
     = (cancellations (events s) + (if isValid rect then 0 else 1))%nat) ∧
  ((length (_imageLayers s) ≤ layerNr)%nat -> ts ≠ [] ->
   ImageScene2D._onLayerDirty layerNr rect s = (s, Raise IndexError)).
Proof.
  intros Hwf ts s'. split.
  - intros Hl. subst s'.
    destruct (onLayerDirty_exact layerNr rect s Hwf Hl)
      as (s' & Hrun & Hwf' & Himg & Hcomp & Hbr & Hev).
    fold ts in Himg, Hcomp, Hev. rewrite Hrun. cbn [fst snd].
    destruct (tile_events_quiet s ts) as (Hc & Hr & _).
    split_and!; try done.
    + intros Hv. by rewrite Hbr, Hv.
    + rewrite Hev, !requests_app, Hr. destruct (isValid rect); simpl; by rewrite !app_nil_r.
    + rewrite Hev, !cancellations_app, Hc. by destruct (isValid rect).
  - intros Hl Hne. unfold ImageScene2D._onLayerDirty.
    erewrite bind_Return by reflexivity. fold ts.
    destruct ts as [|t ts']; [done|].
    cbn [forM_]. unfold ImageScene2D.dirty_tile, getitem.
    rewrite !bind_unfold. unfold patchAt. cbn [fst snd].
    by rewrite (lookup_ge_None_2 (_imageLayers s) layerNr).
Qed.

(** * No operation fails on a well-formed scene *)

Lemma same_shape_perform s0 op s :
  same_shape s0 s -> same_shape s0 (perform op s).1.
Proof.
  apply (preserves_perform (same_shape s0) (fun _ => True)); unfold same_shape;
    try done.
  - intros r p s' (Ht & Hv & Hn & Hl) _.
    by rewrite tiling_set_patch, verboseRequests_set_patch, numLayers_set_patch,
      length_imageLayers_set_patch.
  - intros v s' (Ht & Hv & Hn & Hl) HF. simpl. split_and!; try done.
    by rewrite <- (Forall2_length _ _ _ HF).
Qed.

Lemma drawLine_returns a b pen s :
  wf s ->
  (∀ t, Tiling.containsF (_tiling s) b = Some t -> (t < Tiling.len (_tiling s))%nat) ->
  (ImageScene2D.drawLine a b pen s).2 = Return tt ∧
  wf (ImageScene2D.drawLine a b pen s).1.
Proof.
  intros Hwf Hin.
  destruct (Tiling.containsF (_tiling s) b) as [t|] eqn:Hc.
  - specialize (Hin t eq_refl).
    destruct (wf_brushing_patch s t Hwf Hin) as (p & Hp & Hm).
    assert (∃ r, Tiling._imageRectF (_tiling s) !! t = Some r) as [r Hr].
    { apply lookup_lt_is_Some_2. by rewrite (wf_imageRectF s Hwf). }
    assert (∃ tR, Tiling.rectF (_tiling s) !! t = Some tR) as [tR HtR].
    { apply lookup_lt_is_Some_2. by rewrite (wf_rectF s Hwf). }
    rewrite (drawLine_run a b pen t p r tR s) by done.
    split; [done|]. apply wf_set_events. by eapply wf_set_patch.
  - unfold ImageScene2D.drawLine. erewrite bind_Return by reflexivity.
    by rewrite Hc.
Qed.

Lemma perform_returns s0 op s :
  wf s -> same_shape s0 s -> verboseRequests s0 = false -> _numLayers s0 ≠ 0%nat ->
  admissible s0 op ->
  (perform op s).2 = Return tt ∧ wf (perform op s).1.
Proof.
  intros Hwf (Ht & Hv & Hn & Hl) Hv0 Hn0 Hadm.
  destruct op as [a b pen|l rect|rect|rect]; simpl in *.
  - apply drawLine_returns; [done|]. by rewrite Ht.
  - destruct (onLayerDirty_exact l rect s Hwf) as (s' & Hrun & Hwf' & _); [lia|].
    by rewrite Hrun.
  - destruct (invalidateRect_exact rect s Hwf) as (s' & Hrun & Hwf' & _).
    by rewrite Hrun.
  - destruct (drawBackground_pass s rect Hwf) as (s' & rs & Hrun & Hwf' & _);
      [congruence..|].
    by rewrite Hrun.
Qed.

Lemma operations_return_from s0 ops s :
  verboseRequests s0 = false -> _numLayers s0 ≠ 0%nat ->
  Forall (admissible s0) ops ->
  wf s -> same_shape s0 s ->
  all_return ops s ∧ wf (run ops s) ∧ same_shape s0 (run ops s).
Proof.
  intros Hv Hn Hadm. revert s.
  induction Hadm as [|op ops Hop _ IH]; intros s Hwf Hshape; [done|].
  destruct (perform_returns s0 op s Hwf Hshape Hv Hn Hop) as (Hret & Hwf').
  destruct (IH (perform op s).1 Hwf' (same_shape_perform s0 op s Hshape))
    as (Hall & Hwfr & Hsh).
  by split_and!.
Qed.

(** X9.  Every lock taken is released: from a well-formed scene with the
    verbose flag off and at least one layer, every sequence of [drawLine],
    [_onLayerDirty], [_invalidateRect] and [drawBackground] calls whose
    strokes end on no tile or on a tile the tiling has and whose dirty marks
    name layers the scene has runs through.  Each call returns, none raises
    and none blocks on a mutex; the scene stays well-formed, with no mutex
    held; the tiling, the flag, [_numLayers] and the number of image layers
    stay as they were. *)
Theorem operations_return (s : Scene) (ops : list Operation) :
  wf s -> verboseRequests s = false -> _numLayers s ≠ 0%nat ->
  Forall (admissible s) ops ->
  all_return ops s ∧ wf (run ops s) ∧ same_shape s (run ops s).
Proof.
  intros Hwf Hv Hn Hadm. by apply operations_return_from.
Qed.

(** * What a paint pass shows *)

Lemma composite_paint_loop ts s :
  (∀ t, t ∈ ts ->
     ∃ p, patchAt (CompositeLayer, t) s = Some p ∧ ImagePatch.mutex p = false) ->
  forM_ (zip ts (map (fun t => (CompositeLayer, t)) ts)) (fun '(tileId, p) => paint p) s
  = (set_events (events s ++ map PaintImage (composite_images s ts)) s, Return tt).
Proof.
  revert s. induction ts as [|t ts IH]; intros s Hall.
  - simpl. by rewrite app_nil_r, set_events_id.
  - destruct (Hall t) as (p & Hp & Hm); [left|].
    assert (Hc : _compositeLayer s !! t = Some p) by exact Hp.
    cbn [map zip zip_with forM_ composite_images flat_map]. rewrite Hc.
    erewrite bind_Return by (by apply paint_run).
    rewrite IH.
    2:{ intros t' Hin. destruct (Hall t') as (p' & Hp' & Hm'); [by right|].
        exists p'. by rewrite patchAt_set_events. }
    rewrite set_events_set_events. cbn [events set_events].
    change (composite_images (set_events (events s ++ [PaintImage (ImagePatch.image p)]) s) ts)
      with (composite_images s ts).
    cbn [map app]. by rewrite <- app_assoc.
Qed.

Lemma count_dirty_exact t ls pre acc s :
  _imageLayers s = pre ++ ls ->
  (∀ layer, layer ∈ ls -> ∃ p, layer !! t = Some p ∧ ImagePatch.mutex p = false) ->
  foldM (ImageScene2D.count_dirty t) (seq (length pre) (length ls)) acc s
  = (s, Return
          (acc + length
             (List.filter
                (fun layer =>
                   match layer !! t with
                   | Some p => ImagePatch.isDirty p
                   | None => false
                   end) ls))%nat).
Proof.
  revert pre acc. induction ls as [|layer ls IH]; intros pre acc Hs Hall.
  - simpl. by rewrite Nat.add_0_r.
  - destruct (Hall layer) as (p & Hp & Hm); [left|].
    cbn [length seq foldM List.filter]. rewrite Hp.
    erewrite bind_Return.
    2:{ apply (count_dirty_run t acc (length pre) p); [|done].
        unfold patchAt; cbn [fst snd]. rewrite Hs.
        by rewrite lookup_app_r, Nat.sub_diag by lia. }
    replace (S (length pre)) with (length (pre ++ [layer]))
      by (rewrite length_app; simpl; lia).
    rewrite IH.
    + destruct (ImagePatch.isDirty p); simpl; do 2 f_equal; lia.
    + by rewrite <- app_assoc.
    + intros layer' Hin. apply Hall. by right.
Qed.

Lemma tile_progress_exact t s :
  wf s -> _numLayers s ≠ 0%nat -> (t < Tiling.len (_tiling s))%nat ->
  ImageScene2D.tile_progress t s
  = (set_events (events s ++ [IndicatorUpdate])
       (set_indicate
          (<[t := progress_value (dirty_layers s t) (_numLayers s)]> (_indicate s)) s),
     Return tt).
Proof.
  intros Hwf Hn Ht. unfold ImageScene2D.tile_progress.
  erewrite bind_Return by reflexivity.
  erewrite bind_Return.
  2:{ apply (count_dirty_exact t (_imageLayers s) [] 0%nat s); [done|].
      intros layer Hin. apply list_elem_of_lookup in Hin as [l Hl].
      destruct (lookup_lt_is_Some_2 layer t) as [p Hp];
        [by rewrite (wf_image s Hwf l layer Hl)|].
      exists p. split; [done|]. apply (wf_unlocked s Hwf (ImageLayer l, t) p).
      unfold patchAt; simpl. by rewrite Hl. }
  erewrite bind_Return by reflexivity.
  erewrite bind_Return.
  2:{ unfold ImageScene2D.progress_of. by destruct (decide (_numLayers s = 0%nat)). }
  unfold DirtyIndicator.setTileProgress.
  erewrite bind_Return by reflexivity. simpl.
  destruct (decide (t < length (_indicate s))%nat) as [|Hge].
  - reflexivity.
  - rewrite (wf_indicate s Hwf) in Hge. done.
Qed.

Lemma progress_loop_exact ts s :
  wf s -> _numLayers s ≠ 0%nat ->
  (∀ t, t ∈ ts -> (t < Tiling.len (_tiling s))%nat) ->
  ∃ ind,
    forM_ ts ImageScene2D.tile_progress s
    = (set_events (events s ++ replicate (length ts) IndicatorUpdate)
         (set_indicate ind s), Return tt) ∧
    length ind = length (_indicate s) ∧
    ∀ t, ind !! t
         = if bool_decide (t ∈ ts)
           then Some (progress_value (dirty_layers s t) (_numLayers s))
           else _indicate s !! t.
Proof.
  revert s. induction ts as [|t ts IH]; intros s Hwf Hn Hts.
  - exists (_indicate s). split_and!; try done.
    simpl. rewrite app_nil_r. by destruct s.
  - assert (Ht : (t < Tiling.len (_tiling s))%nat) by (apply Hts; left).
    pose proof (tile_progress_exact t s Hwf Hn Ht) as Hround.
    set (pv := progress_value (dirty_layers s t) (_numLayers s)) in *.
    set (s1 := set_events (events s ++ [IndicatorUpdate])
                 (set_indicate (<[t := pv]> (_indicate s)) s)) in *.
    destruct (IH s1) as (ind & Hloop & Hlen & Hind).
    { apply wf_set_events, wf_set_indicate; [done|]. by rewrite length_insert. }
    { done. }
    { intros t' Hin. apply Hts. by right. }
    exists ind. split_and!.
    + simpl. erewrite bind_Return; [|exact Hround]. rewrite Hloop.
      subst s1. simpl. by rewrite <- app_assoc.
    + rewrite Hlen. subst s1. simpl. by rewrite length_insert.
    + intros t'. rewrite Hind.
      change (dirty_layers s1 t') with (dirty_layers s t').
      change (_numLayers s1) with (_numLayers s).
      change (_indicate s1) with (<[t := pv]> (_indicate s)).
      destruct (decide (t' = t)) as [->|Hne].
      * rewrite (bool_decide_eq_true_2 (t ∈ t :: ts)) by left.
        case_bool_decide; [done|].
        apply list_lookup_insert_eq. by rewrite (wf_indicate s Hwf).
      * rewrite list_lookup_insert_ne by done.
        rewrite (bool_decide_ext (t' ∈ t :: ts) (t' ∈ ts)); [done|].
        rewrite elem_of_cons. intuition.
Qed.

Lemma display_exact ts s :
  wf s -> _numLayers s ≠ 0%nat ->
  (∀ t, t ∈ ts -> (t < Tiling.len (_tiling s))%nat) ->
  ∃ ind,
    (tiles ← mapM (getitem CompositeLayer) ts;
     forM_ (zip ts tiles) (fun '(tileId, p) => paint p);;
     forM_ ts ImageScene2D.tile_progress) s
    = (set_events
         (events s ++ map PaintImage (composite_images s ts) ++
          replicate (length ts) IndicatorUpdate)
         (set_indicate ind s), Return tt) ∧
    length ind = length (_indicate s) ∧
    ∀ t, ind !! t
         = if bool_decide (t ∈ ts)
           then Some (progress_value (dirty_layers s t) (_numLayers s))
           else _indicate s !! t.
Proof.
  intros Hwf Hn Hts.
  destruct (progress_loop_exact ts
              (set_events (events s ++ map PaintImage (composite_images s ts)) s))
    as (ind & Hloop & Hlen & Hind).
  { by apply wf_set_events. }
  { done. }
  { done. }
  exists ind. split_and!; try done.
  erewrite bind_Return.
  2:{ apply mapM_getitem. intros t Hin.
      destruct (wf_composite_patch s t Hwf) as (p & Hp & _); [by apply Hts|by eauto]. }
  erewrite bind_Return.
  2:{ apply composite_paint_loop. intros t Hin.
      apply (wf_composite_patch s t Hwf). by apply Hts. }
  rewrite Hloop. simpl. by rewrite <- app_assoc.
Qed.

Lemma filter_length_Forall2 {A} (f g : A -> bool) (l1 l2 : list A) :
  Forall2 (fun x y => f x = g y) l1 l2 ->
  length (List.filter f l1) = length (List.filter g l2).
Proof.
  induction 1 as [|x y l1 l2 Hxy _ IH]; [done|].
  cbn [List.filter]. rewrite Hxy. destruct (g y); simpl; by rewrite IH.
Qed.

Lemma isDirty_visit p : ImagePatch.isDirty (visit p) = ImagePatch.isDirty p.
Proof. unfold visit. by destruct (ImagePatch.needsRequest p). Qed.

Lemma dirty_layers_requested s V s1 t :
  wf s -> requested s V s1 -> (t < Tiling.len (_tiling s))%nat ->
  dirty_layers s1 t = dirty_layers s t.
Proof.
  intros Hwf Hreq Ht. unfold dirty_layers. apply filter_length_Forall2.
  apply Forall2_same_length_lookup_2; [exact (rq_layers _ _ _ Hreq)|].
  intros l layer1 layer Hl1 Hl.
  destruct (lookup_lt_is_Some_2 layer t) as [p Hp];
    [by rewrite (wf_image s Hwf l layer Hl)|].
  assert (Hpa : patchAt (ImageLayer l, t) s = Some p)
    by (unfold patchAt; simpl; by rewrite Hl).
  pose proof (rq_patch _ _ _ Hreq l t p Hpa) as Hp1.
  unfold patchAt in Hp1; simpl in Hp1. rewrite Hl1 in Hp1. simpl in Hp1.
  rewrite Hp1, Hp. case_bool_decide; [apply isDirty_visit|done].
Qed.

Lemma progress_value_one k n :
  n ≠ 0%nat -> progress_value k n = 1%Qc <-> k = 0%nat.
Proof.
  intros Hn. unfold progress_value.
  set (a := Q2Qc (inject_Z (Z.of_nat k))). set (b := Q2Qc (inject_Z (Z.of_nat n))).
  assert (Hb : b ≠ 0%Qc).
  { subst b. intros Hb. apply Q2Qc_eq_iff in Hb.
    unfold Qeq in Hb; simpl in Hb. lia. }
  assert (Ha : a = 0%Qc <-> k = 0%nat).
  { subst a. split.
    - intros Ha. apply Q2Qc_eq_iff in Ha.
      unfold Qeq in Ha; simpl in Ha. lia.
    - by intros ->. }
  rewrite <- Ha. split.
  - intros H1. assert (Hab : (a / b)%Qc = 0%Qc).
    { transitivity (1 - (1 - a / b))%Qc; [ring|]. rewrite H1. ring. }
    transitivity ((a / b) * b)%Qc; [field; exact Hb|]. rewrite Hab. ring.
  - intros Ha0. rewrite Ha0. change ((1 - 0 / b)%Qc = 1%Qc :> Qc). field. exact Hb.
Qed.

Lemma painted_requests rs : painted (map (fun r : nat * nat => RequestPatch r.1 r.2) rs) = [].
Proof. induction rs as [|r rs IH]; [done|]. exact IH. Qed.

Lemma painted_updates n : painted (replicate n IndicatorUpdate) = [].
Proof. induction n as [|n IH]; [done|]. exact IH. Qed.

(** The whole of a paint pass on a well-formed scene with the verbose flag
    off and at least one layer. *)
Lemma drawBackground_exact s rect :
  wf s -> verboseRequests s = false -> _numLayers s ≠ 0%nat ->
  let ts := Tiling.intersectedF (_tiling s) rect in
  ∃ s' rs,
    ImageScene2D.drawBackground rect s = (s', Return tt) ∧
    events s' = events s ++ map (fun r => RequestPatch r.1 r.2) rs ++
                map PaintImage (composite_images s ts) ++
                replicate (length ts) IndicatorUpdate ∧
    _compositeLayer s' = _compositeLayer s ∧
    _brushingLayer s' = _brushingLayer s ∧
    (∀ t, _indicate s' !! t
          = if bool_decide (t ∈ ts)
            then Some (progress_value (dirty_layers s t) (_numLayers s))
            else _indicate s !! t) ∧
    (∀ t, (t < Tiling.len (_tiling s))%nat -> dirty_layers s' t = dirty_layers s t).
Proof.
  intros Hwf Hv Hn ts.
  assert (Hts : ∀ t, t ∈ ts -> (t < Tiling.len (_tiling s))%nat)
    by (intros t Hin; by eapply wf_intersectedF).
  destruct (request_tiles_run s [] s ts Hwf Hv (requested_start s Hwf) Hts)
    as (s1 & Hrun1 & Hreq).
  pose proof (rq_wf _ _ _ Hreq) as Hwf1.
  pose proof (rq_frame _ _ _ Hreq) as Hf.
  destruct (rq_events _ _ _ Hreq) as (rs & Hev & _).
  assert (Hn1 : _numLayers s1 = _numLayers s) by (rewrite Hf; reflexivity).
  assert (Ht1 : _tiling s1 = _tiling s) by (rewrite Hf; reflexivity).
  assert (Hc1 : _compositeLayer s1 = _compositeLayer s) by (rewrite Hf; reflexivity).
  assert (Hb1 : _brushingLayer s1 = _brushingLayer s) by (rewrite Hf; reflexivity).
  assert (Hi1 : _indicate s1 = _indicate s) by (rewrite Hf; reflexivity).
  destruct (display_exact ts s1 Hwf1) as (ind & Hrun2 & Hlen & Hind).
  { by rewrite Hn1. }
  { intros t Hin. rewrite Ht1. by apply Hts. }
  exists (set_events
            (events s1 ++ map PaintImage (composite_images s1 ts) ++
             replicate (length ts) IndicatorUpdate) (set_indicate ind s1)), rs.
  split_and!.
  - unfold ImageScene2D.drawBackground.
    erewrite bind_Return by reflexivity. fold ts.
    erewrite bind_Return by exact Hrun1. exact Hrun2.
  - cbn [events set_events]. rewrite Hev. unfold composite_images. rewrite Hc1.
    by rewrite <- app_assoc.
  - exact Hc1.
  - exact Hb1.
  - intros t. cbn [_indicate set_events set_indicate]. rewrite Hind, Hn1, Hi1.
    case_bool_decide; [|done].
    by rewrite (dirty_layers_requested s _ s1 t Hwf Hreq) by by apply Hts.
  - intros t Ht.
    change (dirty_layers s1 t = dirty_layers s t).
    by apply (dirty_layers_requested s _ s1 t Hwf Hreq).
Qed.

Lemma progress_value_bounds k n :
  (k ≤ n)%nat -> n ≠ 0%nat ->
  (0 <= progress_value k n)%Qc ∧ (progress_value k n <= 1)%Qc.
Proof.
  intros Hk Hn. unfold progress_value.
  set (a := Q2Qc (inject_Z (Z.of_nat k))). set (b := Q2Qc (inject_Z (Z.of_nat n))).
  assert (Ha : (0 <= a)%Qc).
  { subst a. unfold Qcle. simpl. rewrite !Qred_correct. unfold Qle; simpl. lia. }
  assert (Hb : (0 < b)%Qc).
  { subst b. unfold Qclt. simpl. rewrite !Qred_correct. unfold Qlt; simpl. lia. }
  assert (Hab : (a <= b)%Qc).
  { subst a b. unfold Qcle. simpl. rewrite !Qred_correct. unfold Qle; simpl. lia. }
  assert (Hb0 : b ≠ 0%Qc) by (apply not_eq_sym, Qclt_not_eq, Hb).
  assert (Hmul : (a / b * b)%Qc = a) by (field; exact Hb0).
  assert (Hq0 : (0 <= a / b)%Qc).
  { apply (Qcmult_lt_0_le_reg_r _ _ b Hb). by rewrite Qcmult_0_l, Hmul. }
  assert (Hq1 : (a / b <= 1)%Qc).
  { apply (Qcmult_lt_0_le_reg_r _ _ b Hb). by rewrite Qcmult_1_l, Hmul. }
  split.
  - apply Qcle_minus_iff in Hq1. exact Hq1.
  - apply Qcle_minus_iff. replace (1 + - (1 - a / b))%Qc with (a / b)%Qc by ring.
    exact Hq0.
Qed.

Lemma progress_value_zero n : n ≠ 0%nat -> progress_value n n = 0%Qc.
Proof.
  intros Hn. unfold progress_value.
  set (b := Q2Qc (inject_Z (Z.of_nat n))).
  assert (Hb : b ≠ 0%Qc).
  { subst b. intros Hb. apply Q2Qc_eq_iff in Hb.
    unfold Qeq in Hb; simpl in Hb. lia. }
  change ((1 - b / b)%Qc = 0%Qc :> Qc). field. exact Hb.
Qed.

Lemma dirty_layers_le s t : (dirty_layers s t ≤ length (_imageLayers s))%nat.
Proof.
  unfold dirty_layers. induction (_imageLayers s) as [|layer ls IH]; [done|].
  cbn [List.filter length]. destruct (match layer !! t with Some p => _ | None => _ end);
    simpl; lia.
Qed.

(** X10.  A paint pass ([drawBackground], verbose flag off, at least one
    layer, well-formed scene) returns; it paints the composite buffer of
    every intersected tile, in order, and no other image; it leaves the
    composite and the brushing layer as they are; it writes the progress of
    each intersected tile and of no other tile.  The progress written is 1.0
    exactly when no image layer of the tile is stale ([imgVer != dataVer])
    and, when [_numLayers] is the number of image layers, it lies between 0
    and 1 and is 0 when every layer is stale.  The pass itself makes no layer
    current. *)
Theorem drawBackground_display (s : Scene) (rect : QRectF) :
  wf s -> verboseRequests s = false -> _numLayers s ≠ 0%nat ->
  let ts := Tiling.intersectedF (_tiling s) rect in
  let s' := (ImageScene2D.drawBackground rect s).1 in
  (ImageScene2D.drawBackground rect s).2 = Return tt ∧
  painted (events s') = painted (events s) ++ composite_images s ts ∧
  _compositeLayer s' = _compositeLayer s ∧
  _brushingLayer s' = _brushingLayer s ∧
  (∀ t, t ∉ ts -> _indicate s' !! t = _indicate s !! t) ∧
  (∀ t, t ∈ ts -> _indicate s' !! t = Some 1%Qc <-> dirty_layers s t = 0%nat) ∧
  (_numLayers s = length (_imageLayers s) ->
   ∀ t, t ∈ ts ->
     (∃ v, _indicate s' !! t = Some v ∧ (0 <= v)%Qc ∧ (v <= 1)%Qc) ∧
     (dirty_layers s t = _numLayers s -> _indicate s' !! t = Some 0%Qc)) ∧
  (∀ t, (t < Tiling.len (_tiling s))%nat -> dirty_layers s' t = dirty_layers s t).
Proof.
  intros Hwf Hv Hn ts s'. subst s'.
  destruct (drawBackground_exact s rect Hwf Hv Hn)
    as (s' & rs & Hrun & Hev & Hc & Hb & Hind & Hdirty).
  fold ts in Hev, Hind. rewrite Hrun. cbn [fst snd].
  split_and!; try done.
  - rewrite Hev, !painted_app, painted_requests, painted_map, painted_updates.
    by rewrite app_nil_r.
  - intros t Hnin. by rewrite Hind, bool_decide_eq_false_2.
  - intros t Hin. rewrite Hind, bool_decide_eq_true_2 by done.
    rewrite <- (progress_value_one (dirty_layers s t) (_numLayers s) Hn).
    split; intros H; [exact (Some_inj _ _ H)|exact (f_equal Some H)].
  - intros Hlen t Hin. rewrite Hind, bool_decide_eq_true_2 by done. split.
    + eexists. split; [done|].
      apply progress_value_bounds; [|done]. rewrite Hlen. apply dirty_layers_le.
    + intros ->. f_equal. by apply progress_value_zero.
Qed.

(** * A mutex that stays held *)

Lemma forM_keeps {St X} (I : St -> Prop) (body : X -> Prog St unit) xs :
  (∀ y u u', I u -> body y u = (u', Return tt) -> I u') ->
  ∀ u u', I u -> forM_ xs body u = (u', Return tt) -> I u'.
Proof.
  intros Hbody. induction xs as [|y ys IH]; intros u u' HI Hrun.
  - by injection Hrun as <-.
  - simpl in Hrun. apply bind_inv_Return in Hrun as ([] & u1 & H1 & H2).
    eapply IH; [|exact H2]. by eapply Hbody.
Qed.

Lemma forM_stops {St X} (I : St -> Prop) (body : X -> Prog St unit) xs x :
  (∀ y u u', I u -> body y u = (u', Return tt) -> I u') ->
  (∀ u, I u -> (body x u).2 ≠ Return tt) ->
  x ∈ xs -> ∀ u, I u -> (forM_ xs body u).2 ≠ Return tt.
Proof.
  intros Hbody Hx. induction xs as [|y ys IH]; intros Hin u HI.
  - by apply elem_of_nil in Hin.
  - simpl. rewrite bind_unfold.
    destruct (body y u) as [u1 [[]|e|]] eqn:Hy; [|done..].
    apply elem_of_cons in Hin as [->|Hin].
    + specialize (Hx u HI). by rewrite Hy in Hx.
    + apply IH; [done|]. by eapply Hbody.
Qed.

Lemma forEach_stops {X} (body : Prog X unit) xs x :
  x ∈ xs -> (body x).2 ≠ Return tt -> (forEach body xs).2 ≠ Return tt.
Proof.
  intros Hin Hx. induction xs as [|y ys IH]; [by apply elem_of_nil in Hin|].
  simpl. destruct (body y) as [y' [[]|e|]] eqn:Hy; [|done..].
  apply elem_of_cons in Hin as [->|Hin].
  - by rewrite Hy in Hx.
  - specialize (IH Hin). by destruct (forEach body ys).
Qed.

Lemma request_patch_held t l p u :
  patchAt (ImageLayer l, t) u = Some p -> ImagePatch.mutex p = true ->
  ImageScene2D.request_patch t l u = (u, Blocked).
Proof.
  intros Hp Hm. unfold ImageScene2D.request_patch.
  step. rewrite !bind_unfold, (withPatch_run _ _ _ _ Hp).
  unfold ImagePatch.lock. rewrite Hm. simpl. by rewrite set_patch_id.
Qed.

Lemma request_patch_waits t l p u :
  patchAt (ImageLayer l, t) u = Some p ->
  ImagePatch.mutex p = false ->
  ImagePatch.needsRequest p = true ->
  verboseRequests u = true ->
  printLock u = true ->
  ImageScene2D.request_patch t l u
  = (set_patch (ImageLayer l, t) (ImagePatch.set_mutex true p) u, Blocked).
Proof.
  intros Hp Hm Hn Hv Hl. unfold ImageScene2D.request_patch.
  step. step. step. rewrite needsRequest_set_mutex, Hn. simpl.
  step. autorewrite with scene. rewrite Hv. simpl.
  rewrite ?bind_assoc. rewrite bind_unfold.
  unfold printLock_acquire. autorewrite with scene. by rewrite Hl.
Qed.

Lemma request_patch_missing t l u :
  patchAt (ImageLayer l, t) u = None ->
  ImageScene2D.request_patch t l u = (u, Raise IndexError).
Proof.
  intros Hp. unfold ImageScene2D.request_patch, getitem.
  by rewrite bind_unfold, Hp.
Qed.

(** A visit that returns leaves every other patch alone. *)
Lemma request_patch_other t' l' r u u' :
  ImageScene2D.request_patch t' l' u = (u', Return tt) ->
  r ≠ (ImageLayer l', t') -> patchAt r u' = patchAt r u.
Proof.
  intros Hrun Hne.
  destruct (patchAt (ImageLayer l', t') u) as [q|] eqn:Hq.
  2:{ by rewrite request_patch_missing in Hrun. }
  destruct (ImagePatch.mutex q) eqn:Hm.
  { by rewrite (request_patch_held t' l' q u) in Hrun. }
  destruct (ImagePatch.needsRequest q) eqn:Hn.
  2:{ rewrite (request_patch_skip t' l' q u) in Hrun by done. by injection Hrun as <-. }
  destruct (verboseRequests u) eqn:Hv.
  - destruct (printLock u) eqn:Hl.
    + by rewrite (request_patch_waits t' l' q u) in Hrun.
    + by rewrite (request_patch_verbose t' l' q u) in Hrun.
  - rewrite (request_patch_issue t' l' q u) in Hrun by done.
    injection Hrun as <-.
    by rewrite patchAt_set_events, patchAt_set_patch_ne.
Qed.

(** X11.  When the mutex of an image-layer patch is held as a method starts
    (the debug line of [drawBackground] leaves it so), no paint pass over the
    tile of that patch and no full invalidation returns, whatever the rest
    of the scene is. *)
Theorem held_mutex_never_returns (u : Scene) (layerNr tileId : nat)
    (p : ImagePatch.t) :
  patchAt (ImageLayer layerNr, tileId) u = Some p ->
  ImagePatch.mutex p = true ->
  (∀ rect, tileId ∈ Tiling.intersectedF (_tiling u) rect ->
     (ImageScene2D.drawBackground rect u).2 ≠ Return tt) ∧
  (∀ rect, isValid rect = false ->
     (ImageScene2D._invalidateRect rect u).2 ≠ Return tt).
Proof.
  intros Hp Hm. split.
  - intros rect Hin.
    set (I := fun u' : Scene => patchAt (ImageLayer layerNr, tileId) u' = Some p).
    assert (Hvisit : ∀ t' l' u1 u2, I u1 ->
              ImageScene2D.request_patch t' l' u1 = (u2, Return tt) -> I u2).
    { intros t' l' u1 u2 HI Hrun. unfold I.
      destruct (decide ((ImageLayer layerNr, tileId) = (ImageLayer l', t'))) as [Heq|Hne].
      - injection Heq as <- <-. by rewrite (request_patch_held tileId layerNr p u1) in Hrun.
      - by rewrite (request_patch_other t' l' _ u1 u2 Hrun Hne). }
    assert (Htile : ∀ t' u1 u2, I u1 ->
              ImageScene2D.request_tile t' u1 = (u2, Return tt) -> I u2).
    { intros t' u1 u2 HI Hrun. unfold ImageScene2D.request_tile in Hrun.
      erewrite bind_Return in Hrun by reflexivity.
      eapply (forM_keeps I); [|exact HI|exact Hrun].
      intros l' v v'. apply Hvisit. }
    assert (Hstop : ∀ u1, I u1 -> (ImageScene2D.request_tile tileId u1).2 ≠ Return tt).
    { intros u1 HI. unfold ImageScene2D.request_tile.
      erewrite bind_Return by reflexivity.
      apply (forM_stops I _ _ layerNr); [intros l' v v'; apply Hvisit| | |exact HI].
      - intros v HIv. by rewrite (request_patch_held tileId layerNr p v).
      - apply elem_of_seq. split; [lia|]. simpl.
        unfold I, patchAt in HI; simpl in HI.
        destruct (_imageLayers u1 !! layerNr) eqn:E; [|done].
        by eapply lookup_lt_Some. }
    unfold ImageScene2D.drawBackground.
    erewrite bind_Return by reflexivity. rewrite bind_unfold.
    pose proof (forM_stops I ImageScene2D.request_tile _ tileId Htile Hstop Hin u Hp)
      as Hloop.
    by destruct (forM_ (Tiling.intersectedF (_tiling u) rect)
                   ImageScene2D.request_tile u) as [u1 [[]|e|]].
  - intros rect Hv. unfold ImageScene2D._invalidateRect. rewrite Hv. simpl.
    rewrite bind_unfold.
    assert (Hreset : (ImageScene2D.invalidate_everything u).2 ≠ Return tt).
    2:{ by destruct (ImageScene2D.invalidate_everything u) as [u1 [[]|e|]]. }
    unfold ImageScene2D.invalidate_everything.
    erewrite bind_Return by reflexivity.
    erewrite bind_Return by reflexivity.
    rewrite bind_unfold. unfold zoom at 1.
    destruct (forEach _ _) as [bl [[]|e|]]; [|done..].
    unfold zoom. cbn [_imageLayers set_brushingLayer set_updatableTiles set_events].
    assert (Himg : (forEach
                      (forEach (ImagePatch.lock;; ImagePatch.bump_dataVer;; ImagePatch.unlock))
                      (_imageLayers u)).2 ≠ Return tt).
    2:{ by destruct (forEach _ (_imageLayers u)) as [ls [[]|e|]]. }
    unfold patchAt in Hp; simpl in Hp.
    destruct (_imageLayers u !! layerNr) as [layer|] eqn:Hl; [|done]. simpl in Hp.
    apply (forEach_stops _ _ layer); [by eapply list_elem_of_lookup_2|].
    apply (forEach_stops _ _ p); [by eapply list_elem_of_lookup_2|].
    rewrite bind_unfold. unfold ImagePatch.lock. by rewrite Hm.
Qed.

(** * After the debug line has raised *)

Lemma forM_blocks {St X} (body : X -> Prog St unit) xs x u :
  (∀ y, y ∈ xs -> body y u = (u, Return tt) ∨ (body y u).2 = Blocked) ->
  x ∈ xs -> (body x u).2 = Blocked ->
  (forM_ xs body u).2 = Blocked.
Proof.
  intros Hall Hin Hx. induction xs as [|y ys IH]; [by apply elem_of_nil in Hin|].
  simpl. rewrite bind_unfold.
  destruct (Hall y) as [Hy|Hy]; [left| |].
  - rewrite Hy. apply elem_of_cons in Hin as [->|Hin].
    + by rewrite Hy in Hx.
    + apply IH; [|done]. intros z Hz. apply Hall. by right.
  - by destruct (body y u) as [u1 [[]|e|]].
Qed.

Lemma forM_walks {St X} (body : X -> Prog St unit) xs u :
  (∀ y, y ∈ xs -> body y u = (u, Return tt) ∨ (body y u).2 = Blocked) ->
  forM_ xs body u = (u, Return tt) ∨ (forM_ xs body u).2 = Blocked.
Proof.
  intros Hall. induction xs as [|y ys IH]; [by left|].
  simpl. rewrite bind_unfold.
  destruct (Hall y) as [Hy|Hy]; [left| |].
  - rewrite Hy. apply IH. intros z Hz. apply Hall. by right.
  - right. by destruct (body y u) as [u1 [[]|e|]].
Qed.

Lemma forEach_blocks {X} (body : Prog X unit) xs x :
  (∀ y, y ∈ xs -> (body y).2 = Return tt ∨ (body y).2 = Blocked) ->
  x ∈ xs -> (body x).2 = Blocked -> (forEach body xs).2 = Blocked.
Proof.
  intros Hall Hin Hx. induction xs as [|y ys IH]; [by apply elem_of_nil in Hin|].
  simpl. destruct (body y) as [y' [[]|e|]] eqn:Hy.
  - apply elem_of_cons in Hin as [->|Hin]; [by rewrite Hy in Hx|].
    assert (Hys : (forEach body ys).2 = Blocked).
    { apply IH; [|done]. intros z Hz. apply Hall. by right. }
    by destruct (forEach body ys).
  - destruct (Hall y) as [H|H]; [left|..]; by rewrite Hy in H.
  - done.
Qed.

(** X12.  In the state [drawBackground] leaves when its debug line raises
    on a well-formed scene, with the mutex of the patch and [printLock]
    held, the next paint pass over the tile of that patch blocks for ever
    (on [printLock] or on the mutex), and so does a full invalidation (on
    the mutex). *)
Theorem NameError_leaves_deadlock (s : Scene) (layerNr tileId : nat)
    (q : ImagePatch.t) :
  wf s -> verboseRequests s = true ->
  patchAt (ImageLayer layerNr, tileId) s = Some q ->
  let u := stuck_at layerNr tileId q s in
  (∀ rect, tileId ∈ Tiling.intersectedF (_tiling s) rect ->
     (ImageScene2D.drawBackground rect u).2 = Blocked) ∧
  (∀ rect, isValid rect = false ->
     (ImageScene2D._invalidateRect rect u).2 = Blocked).
Proof.
  intros Hwf Hv Hq u.
  assert (Hu : u = stuck_at layerNr tileId q s) by reflexivity. clearbody u.
  assert (Htu : _tiling u = _tiling s) by (by rewrite Hu).
  assert (Hvu : verboseRequests u = true) by (by rewrite Hu).
  assert (Hpu : printLock u = true) by (by rewrite Hu).
  assert (Hheld : patchAt (ImageLayer layerNr, tileId) u
                  = Some (ImagePatch.set_mutex true q)).
  { subst u. unfold stuck_at. rewrite patchAt_set_printLock.
    by eapply patchAt_set_patch_Some. }
  assert (Hother : ∀ r p, patchAt r u = Some p ->
            p = ImagePatch.set_mutex true q ∨ ImagePatch.mutex p = false).
  { intros r p Hp. subst u. unfold stuck_at in Hp.
    rewrite patchAt_set_printLock in Hp.
    apply patchAt_set_patch_inv in Hp as [->|Hp]; [by left|].
    right. by eapply wf_unlocked. }
  assert (Hl : (layerNr < length (_imageLayers s))%nat).
  { unfold patchAt in Hq; simpl in Hq.
    destruct (_imageLayers s !! layerNr) eqn:E; [|done]. by eapply lookup_lt_Some. }
  assert (Hlen : length (_imageLayers u) = length (_imageLayers s)).
  { subst u. unfold stuck_at. simpl. apply length_alter. }
  assert (Hsome : ∀ l t, (l < length (_imageLayers s))%nat ->
            (t < Tiling.len (_tiling s))%nat ->
            is_Some (patchAt (ImageLayer l, t) u)).
  { intros l t Hll Ht. destruct (wf_image_patch s l t Hwf Hll Ht) as (p & Hp & _).
    destruct (decide ((ImageLayer layerNr, tileId) = (ImageLayer l, t))) as [Heq|Hne].
    - injection Heq as <- <-. by eexists.
    - exists p. subst u. unfold stuck_at.
      by rewrite patchAt_set_printLock, patchAt_set_patch_ne. }
  split.
  - intros rect Hin.
    assert (Hvisit : ∀ t l, (l < length (_imageLayers s))%nat ->
              (t < Tiling.len (_tiling s))%nat ->
              ImageScene2D.request_patch t l u = (u, Return tt) ∨
              (ImageScene2D.request_patch t l u).2 = Blocked).
    { intros t l Hll Ht. destruct (Hsome l t Hll Ht) as [p Hp].
      destruct (ImagePatch.mutex p) eqn:Hm.
      { right. by rewrite (request_patch_held t l p u). }
      destruct (ImagePatch.needsRequest p) eqn:Hn.
      - right. by rewrite (request_patch_waits t l p u).
      - left. by apply (request_patch_skip t l p u). }
    assert (Htile : ∀ t, (t < Tiling.len (_tiling s))%nat ->
              ImageScene2D.request_tile t u = (u, Return tt) ∨
              (ImageScene2D.request_tile t u).2 = Blocked).
    { intros t Ht. unfold ImageScene2D.request_tile.
      erewrite bind_Return by reflexivity. apply forM_walks.
      intros l Hlin. apply elem_of_seq in Hlin. apply Hvisit; [lia|done]. }
    assert (Ht : (tileId < Tiling.len (_tiling s))%nat) by by eapply wf_intersectedF.
    unfold ImageScene2D.drawBackground.
    erewrite bind_Return by reflexivity. rewrite bind_unfold.
    assert (Hloop : (forM_ (Tiling.intersectedF (_tiling s) rect)
                       ImageScene2D.request_tile u).2 = Blocked).
    { apply (forM_blocks _ _ tileId); [|done|].
      - intros t Htin. apply Htile. by eapply wf_intersectedF.
      - unfold ImageScene2D.request_tile.
        erewrite bind_Return by reflexivity.
        apply (forM_blocks _ _ layerNr).
        + intros l Hlin. apply elem_of_seq in Hlin. apply Hvisit; [lia|done].
        + apply elem_of_seq. lia.
        + by rewrite (request_patch_held tileId layerNr _ u Hheld). }
    rewrite Htu.
    by destruct (forM_ _ ImageScene2D.request_tile u) as [u1 [[]|e|]].
  - intros rect Hvalid. unfold ImageScene2D._invalidateRect. rewrite Hvalid. simpl.
    rewrite bind_unfold.
    assert (Hreset : (ImageScene2D.invalidate_everything u).2 = Blocked).
    2:{ by destruct (ImageScene2D.invalidate_everything u) as [u1 [[]|e|]]. }
    unfold ImageScene2D.invalidate_everything.
    erewrite bind_Return by reflexivity.
    erewrite bind_Return by reflexivity.
    erewrite bind_Return.
    2:{ apply zoom_Return. apply (forEach_map cleared). simpl.
        intros p Hp. apply clear_patch_run.
        apply list_elem_of_lookup in Hp as [i Hi].
        destruct (Hother (BrushingLayer, i) p Hi) as [->|H]; [|done].
        assert (Hs : patchAt (BrushingLayer, i) s = Some (ImagePatch.set_mutex true q)).
        { change (patchAt (BrushingLayer, i) u = Some (ImagePatch.set_mutex true q)) in Hi.
          rewrite Hu in Hi. unfold stuck_at in Hi.
          by rewrite patchAt_set_printLock, patchAt_set_patch_ne in Hi. }
        by apply (wf_unlocked s Hwf) in Hs. }
    unfold zoom. cbn [_imageLayers set_brushingLayer set_updatableTiles set_events].
    assert (Himg : (forEach
                      (forEach (ImagePatch.lock;; ImagePatch.bump_dataVer;; ImagePatch.unlock))
                      (_imageLayers u)).2 = Blocked).
    2:{ by destruct (forEach _ (_imageLayers u)) as [ls [[]|e|]]. }
    assert (Hpatch : ∀ l layer p, _imageLayers u !! l = Some layer -> p ∈ layer ->
              ((ImagePatch.lock;; ImagePatch.bump_dataVer;; ImagePatch.unlock) p).2 = Return tt ∨
              ((ImagePatch.lock;; ImagePatch.bump_dataVer;; ImagePatch.unlock) p).2 = Blocked).
    { intros l layer p Hlayer Hp. apply list_elem_of_lookup in Hp as [i Hi].
      destruct (ImagePatch.mutex p) eqn:Hm.
      - right. rewrite bind_unfold. unfold ImagePatch.lock. by rewrite Hm.
      - left. by rewrite bump_patch_run. }
    pose proof Hheld as Hh. unfold patchAt in Hh; simpl in Hh.
    destruct (_imageLayers u !! layerNr) as [layer|] eqn:Hlayer; [|done]. simpl in Hh.
    apply (forEach_blocks _ _ layer).
    + intros layer' Hin'. apply list_elem_of_lookup in Hin' as [l' Hl'].
      destruct (decide (Exists (fun p => ImagePatch.mutex p = true) layer')) as [Hex|Hno].
      * right. apply Exists_exists in Hex as (p & Hp & Hm).
        apply (forEach_blocks _ _ p); [intros y Hy; by eapply Hpatch|done|].
        rewrite bind_unfold. unfold ImagePatch.lock. by rewrite Hm.
      * left. rewrite (forEach_map bumped); [done|].
        intros p Hp. apply bump_patch_run.
        destruct (ImagePatch.mutex p) eqn:Hm; [|done].
        destruct Hno. apply Exists_exists. by exists p.
    + by eapply list_elem_of_lookup_2.
    + apply (forEach_blocks _ _ (ImagePatch.set_mutex true q));
        [intros y Hy; by eapply Hpatch|by eapply list_elem_of_lookup_2|].
      rewrite bind_unfold. by unfold ImagePatch.lock.
Qed.

(** * The pie charts *)

Lemma pies_app calls calls' : pies (calls ++ calls') = pies calls ++ pies calls'.
Proof. unfold pies. by rewrite flat_map_app. Qed.

Lemma pies_drawPie (l : list (QRectF * Z * Z)) :
  pies (map (fun '(r, a, b) => drawPie r a b) l) = l.
Proof. induction l as [|[[r a] b] l IH]; [done|]. simpl. by rewrite IH. Qed.

Lemma pie_loop s rs pre vs calls :
  _indicate s = pre ++ vs -> (length rs ≤ length vs)%nat ->
  forM_ (zip (seq (length pre) (length rs)) rs)
    (fun '(i, p) =>
       match _indicate s !! i with
       | None => raise IndexError
       | Some v =>
           if Qc_eq_bool v 1%Qc then mret tt
           else
             let rectangle := pie_rectangle p in
             let startAngle := 0 * 16 in
             let spanAngle := pie_spanAngle v in
             modify (fun calls => calls ++ [drawPie rectangle startAngle spanAngle])
       end) calls
  = (calls ++ map (fun '(r, a, b) => drawPie r a b)
                (flat_map (fun '(p, v) => pie_of p v) (zip rs vs)),
     Return tt).
Proof.
  revert pre vs calls. induction rs as [|p rs IH]; intros pre vs calls Hs Hlen.
  - simpl. by rewrite app_nil_r.
  - destruct vs as [|v vs]; [simpl in Hlen; lia|].
    cbn [length seq zip zip_with forM_ flat_map].
    rewrite bind_unfold, Hs. rewrite lookup_app_r by apply Nat.le_refl.
    rewrite Nat.sub_diag. cbn [lookup list_lookup].
    replace (S (length pre)) with (length (pre ++ [v]))
      by (rewrite length_app; simpl; lia).
    unfold pie_of at 1. destruct (Qc_eq_bool v 1) eqn:Hv.
    + cbn [mret prog_ret]. rewrite <- Hs.
      rewrite (IH (pre ++ [v]) vs); [done|by rewrite <- app_assoc|simpl in Hlen; lia].
    + cbn [modify]. rewrite <- Hs.
      rewrite (IH (pre ++ [v]) vs); [|by rewrite <- app_assoc|simpl in Hlen; lia].
      cbn [map app]. by rewrite <- app_assoc.
Qed.

Lemma paint_pies_run s calls :
  (length (Tiling.rectF (_tiling s)) ≤ length (_indicate s))%nat ->
  DirtyIndicator_paint s calls
  = (calls ++
     [setOpacity (Q2Qc (1 # 2)); save; setBrush (255, 0, 0); setPen (255, 0, 0)] ++
     map (fun '(r, a, b) => drawPie r a b) (tile_pies s) ++ [restore],
     Return tt).
Proof.
  intros Hlen. unfold DirtyIndicator_paint.
  do 4 (erewrite bind_Return by reflexivity).
  erewrite bind_Return by (by apply (pie_loop s _ [] (_indicate s))).
  unfold modify, tile_pies. by rewrite <- !app_assoc.
Qed.

Lemma Qc_eq_bool_true x y : Qc_eq_bool x y = true <-> x = y.
Proof.
  split; [apply Qc_eq_bool_correct|].
  intros Hxy. unfold Qc_eq_bool.
  case (Qcanon.Qc_eq_dec x y); [reflexivity|intros Hne; by destruct Hne].
Qed.

Lemma pie_of_bounds p v r a b :
  (r, a, b) ∈ pie_of p v -> v ≠ 1%Qc ∧ r = pie_rectangle p ∧ a = 0 ∧ b ≤ 5760.
Proof.
  unfold pie_of. destruct (Qc_eq_bool v 1) eqn:Hv; intros Hin.
  { by apply elem_of_nil in Hin. }
  apply list_elem_of_singleton in Hin. injection Hin as -> -> ->.
  split_and!; try done.
  - intros Hv1. apply Qc_eq_bool_true in Hv1. congruence.
  - unfold pie_spanAngle. lia.
Qed.

Lemma pie_of_one p : pie_of p 1%Qc = [].
Proof. reflexivity. Qed.

Lemma pie_of_zero p : pie_of p 0%Qc = [(pie_rectangle p, 0, 5760)].
Proof. reflexivity. Qed.

Lemma tile_pies_length s :
  length (tile_pies s)
  = length (List.filter (fun '(p, v) => negb (Qc_eq_bool v 1%Qc))
              (zip (Tiling.rectF (_tiling s)) (_indicate s))).
Proof.
  unfold tile_pies. induction (zip _ _) as [|[p v] l IH]; [done|].
  cbn [flat_map List.filter]. rewrite length_app, IH. unfold pie_of.
  by destruct (Qc_eq_bool v 1).
Qed.

Lemma pies_none rs vs :
  (∀ v : float, v ∈ vs -> v = 1%Qc) ->
  flat_map (fun '(p, v) => pie_of p v) (zip rs vs) = [].
Proof.
  revert vs. induction rs as [|p rs IH]; intros [|v vs] Hall; try done.
  cbn [zip zip_with flat_map]. rewrite (Hall v) by left.
  rewrite IH; [done|]. intros v' Hin. apply Hall. by right.
Qed.

Lemma pies_full rs (n : nat) :
  (length rs ≤ n)%nat ->
  flat_map (fun '(p, v) => pie_of p v) (zip rs (replicate n 0%Qc))
  = map (fun p => (pie_rectangle p, 0, 360 * 16)) rs.
Proof.
  revert n. induction rs as [|p rs IH]; intros [|n] Hn; try done;
    [simpl in Hn; lia|].
  cbn [replicate zip zip_with flat_map map]. rewrite IH by (simpl in Hn; lia).
  done.
Qed.

Lemma tile_pies_rectangles s :
  map (fun '(rectangle, _, _) => rectangle) (tile_pies s)
  = map (fun '(p, _) => pie_rectangle p)
      (List.filter (fun '(p, v) => negb (Qc_eq_bool v 1%Qc))
         (zip (Tiling.rectF (_tiling s)) (_indicate s))).
Proof.
  unfold tile_pies. induction (zip _ _) as [|[p v] l IH]; [done|].
  cbn [flat_map List.filter]. rewrite map_app, IH. unfold pie_of.
  by destruct (Qc_eq_bool v 1).
Qed.

(** The span the code computes at two progress values that are no
    integers: the double nearest to 0.1, and 0.6666666666666667, the
    progress of a tile with one stale layer of three. *)
Lemma pie_spanAngle_samples :
  pie_spanAngle (Q2Qc (3602879701896397 # 36028797018963968)) = 5184 ∧
  pie_spanAngle (Q2Qc (6004799503160662 # 9007199254740992)) = 1904.
Proof. split; by vm_compute. Qed.

(** X13.  [DirtyIndicator.paint] on a well-formed scene returns after
    [setOpacity], [save], [setBrush], [setPen], one [drawPie] for each tile
    whose progress is not 1.0, in tile order, each on the rectangle the
    method computes from the tile's, and [restore].  Every pie starts at
    angle 0 and spans at most [360*16]; a tile at progress 0 gets the full
    circle; when every tile is at 1.0 no pie is drawn; on the array
    [__init__] makes, all zeros, every tile gets the full circle. *)
Theorem indicator_pies (s : Scene) (calls : list PainterCall) :
  wf s ->
  let r := DirtyIndicator_paint s calls in
  let unfinished :=
    List.filter (fun '(p, v) => negb (Qc_eq_bool v 1%Qc))
      (zip (Tiling.rectF (_tiling s)) (_indicate s)) in
  r.2 = Return tt ∧
  ∃ drawn : list (QRectF * Z * Z),
    r.1 = calls ++
          [setOpacity (Q2Qc (1 # 2)); save; setBrush (255, 0, 0); setPen (255, 0, 0)] ++
          map (fun '(r, a, b) => drawPie r a b) drawn ++ [restore] ∧
    map (fun '(rectangle, _, _) => rectangle) drawn
      = map (fun '(p, _) => pie_rectangle p) unfinished ∧
    (∀ rectangle startAngle spanAngle,
       (rectangle, startAngle, spanAngle) ∈ drawn ->
       startAngle = 0 ∧ spanAngle ≤ 360 * 16) ∧
    (∀ tileId p,
       Tiling.rectF (_tiling s) !! tileId = Some p ->
       _indicate s !! tileId = Some 0%Qc ->
       (pie_rectangle p, 0, 360 * 16) ∈ drawn) ∧
    ((∀ v, v ∈ _indicate s -> v = 1%Qc) -> drawn = []) ∧
    (_indicate s = DirtyIndicator___init__ (_tiling s) ->
     drawn
     = map (fun p => (pie_rectangle p, 0, 360 * 16)) (Tiling.rectF (_tiling s))).
Proof.
  intros Hwf r unfinished. subst r unfinished.
  rewrite paint_pies_run by by rewrite (wf_rectF s Hwf), (wf_indicate s Hwf).
  cbn [fst snd]. split; [done|]. exists (tile_pies s). split_and!; try done.
  - apply tile_pies_rectangles.
  - intros rectangle a b Hin. unfold tile_pies in Hin.
    apply list_elem_of_In, in_flat_map in Hin as ([p v] & _ & Hin).
    apply list_elem_of_In, pie_of_bounds in Hin as (_ & _ & Ha & Hb).
    split; [done|lia].
  - intros t p Hp Hv. unfold tile_pies.
    apply list_elem_of_In, in_flat_map. exists (p, 0%Qc). split.
    + apply list_elem_of_In, list_elem_of_lookup. exists t.
      apply lookup_zip_with_Some. by exists p, 0%Qc.
    + by left.
  - intros Hall. by apply pies_none.
  - intros Hinit. unfold tile_pies. rewrite Hinit. apply pies_full.
    by rewrite (wf_rectF s Hwf).
Qed.

(** X14.  What the indicator shows after the scene's methods, on a
    well-formed scene: after [_invalidateRect] no intersected tile has a
    pie, and no tile at all when the rectangle meets every tile; after a
    paint pass an intersected tile has a pie exactly when one of its image
    layers is stale. *)
Theorem pies_follow_progress (s : Scene) :
  wf s ->
  (∀ rect tileId p v,
     tileId ∈ Tiling.intersected (_tiling s) rect ->
     Tiling.rectF (_tiling s) !! tileId = Some p ->
     _indicate (ImageScene2D._invalidateRect rect s).1 !! tileId = Some v ->
     pie_of p v = []) ∧
  (∀ rect,
     (∀ tileId, (tileId < Tiling.len (_tiling s))%nat ->
        tileId ∈ Tiling.intersected (_tiling s) rect) ->
     tile_pies (ImageScene2D._invalidateRect rect s).1 = []) ∧
  (verboseRequests s = false -> _numLayers s ≠ 0%nat ->
   ∀ rect tileId p,
     tileId ∈ Tiling.intersectedF (_tiling s) rect ->
     Tiling.rectF (_tiling s) !! tileId = Some p ->
     ∃ v, _indicate (ImageScene2D.drawBackground rect s).1 !! tileId = Some v ∧
          (pie_of p v = [] <-> dirty_layers s tileId = 0%nat)).
Proof.
  intros Hwf. split_and!.
  - intros rect t p v Hin Hp Hv.
    destruct (invalidateRect_exact rect s Hwf) as (s' & Hrun & _ & _ & _ & Hind).
    rewrite Hrun in Hv. cbn [fst] in Hv.
    rewrite Hind, bool_decide_eq_true_2 in Hv by done. by injection Hv as <-.
  - intros rect Hall.
    destruct (invalidateRect_exact rect s Hwf) as (s' & Hrun & Hwf' & Hframe & _ & Hind).
    rewrite Hrun. cbn [fst]. apply pies_none. intros v Hv.
    apply list_elem_of_lookup in Hv as [t Ht].
    assert (Hlt : (t < Tiling.len (_tiling s))%nat).
    { apply lookup_lt_Some in Ht. rewrite (wf_indicate s' Hwf') in Ht.
      rewrite Hframe in Ht. by destruct (isValid rect). }
    rewrite Hind, bool_decide_eq_true_2 in Ht by by apply Hall.
    by injection Ht as <-.
  - intros Hv Hn rect t p Hin Hp.
    destruct (drawBackground_exact s rect Hwf Hv Hn)
      as (s' & rs & Hrun & _ & _ & _ & Hind & _).
    rewrite Hrun. cbn [fst]. rewrite Hind, bool_decide_eq_true_2 by done.
    eexists. split; [done|].
    rewrite <- (progress_value_one (dirty_layers s t) (_numLayers s) Hn).
    unfold pie_of. split.
    + destruct (Qc_eq_bool _ 1) eqn:E; [|done]. intros _. by apply Qc_eq_bool_true.
    + intros H1. apply Qc_eq_bool_true in H1. by rewrite H1.
Qed.

(** * The progress after a full invalidation *)

Lemma dirty_layers_all s t :
  (∀ layer, layer ∈ _imageLayers s ->
     ∃ p, layer !! t = Some p ∧ ImagePatch.isDirty p = true) ->
  dirty_layers s t = length (_imageLayers s).
Proof.
  unfold dirty_layers. induction (_imageLayers s) as [|layer ls IH]; intros Hall; [done|].
  cbn [List.filter length]. destruct (Hall layer) as (p & Hp & Hd); [left|].
  rewrite Hp, Hd. cbn [length]. f_equal. apply IH.
  intros layer' Hin. apply Hall. by right.
Qed.

Lemma stale_bumped p : versions_ok p -> ImagePatch.isDirty (bumped p) = true.
Proof.
  intros [_ Hi]. unfold ImagePatch.isDirty, bumped. simpl.
  apply negb_true_iff, Z.eqb_neq. lia.
Qed.

(** C2.  A full invalidation sets the progress of every tile of the plane to
    1.0, the value of a finished tile, and not to 0.  On a well-formed scene
    whose patches are not ahead of their data, for a rectangle that is not
    valid and for which the tiling reports every tile: the call returns; the
    progress of every tile is 1.0 and not 0; every patch of every image
    layer is stale, so on each tile every layer counts as dirty;
    [DirtyIndicator.paint] draws no pie; and the very next paint pass, by
    the formula of [drawBackground], sets the progress of each tile it
    paints to 0 (layer count and [_numLayers] agreeing, verbose flag
    off). *)
Theorem invalidateRect_full_progress (s : Scene) (rect : QRect) :
  wf s -> isValid rect = false ->
  (∀ tileId, (tileId < Tiling.len (_tiling s))%nat ->
     tileId ∈ Tiling.intersected (_tiling s) rect) ->
  all_versions_ok s ->
  let s' := (ImageScene2D._invalidateRect rect s).1 in
  (ImageScene2D._invalidateRect rect s).2 = Return tt ∧
  (∀ tileId, (tileId < Tiling.len (_tiling s))%nat ->
     _indicate s' !! tileId = Some 1%Qc ∧ _indicate s' !! tileId ≠ Some 0%Qc) ∧
  (∀ layerNr tileId p, patchAt (ImageLayer layerNr, tileId) s' = Some p -> stale p) ∧
  (∀ tileId, (tileId < Tiling.len (_tiling s))%nat ->
     dirty_layers s' tileId = length (_imageLayers s')) ∧
  tile_pies s' = [] ∧
  (verboseRequests s = false -> _numLayers s ≠ 0%nat ->
   _numLayers s = length (_imageLayers s) ->
   ∀ rectF tileId, tileId ∈ Tiling.intersectedF (_tiling s) rectF ->
     (ImageScene2D.drawBackground rectF s').2 = Return tt ∧
     _indicate (ImageScene2D.drawBackground rectF s').1 !! tileId = Some 0%Qc).
Proof.
  intros Hwf Hrect Hall Hok s'. subst s'.
  destruct (invalidateRect_exact rect s Hwf) as (s' & Hrun & Hwf' & Hframe & _ & Hind).
  rewrite Hrect in Hframe. rewrite Hrun. cbn [fst snd].
  assert (Himg : _imageLayers s' = map (map bumped) (_imageLayers s))
    by (rewrite Hframe; reflexivity).
  assert (Ht : _tiling s' = _tiling s) by (rewrite Hframe; reflexivity).
  assert (Hone : ∀ t, (t < Tiling.len (_tiling s))%nat -> _indicate s' !! t = Some 1%Qc).
  { intros t Hlt. by rewrite Hind, bool_decide_eq_true_2 by by apply Hall. }
  assert (Hstale : ∀ l t p, patchAt (ImageLayer l, t) s' = Some p ->
            ImagePatch.isDirty p = true).
  { intros l t p Hp. unfold patchAt in Hp; cbn [fst snd] in Hp.
    rewrite Himg, list_lookup_fmap in Hp.
    destruct (_imageLayers s !! l) as [layer|] eqn:Hl; simpl in Hp; [|done].
    rewrite list_lookup_fmap in Hp.
    destruct (layer !! t) as [p0|] eqn:Hp0; simpl in Hp; [|done].
    injection Hp as <-. apply stale_bumped.
    apply (Hok (ImageLayer l, t)). unfold patchAt; simpl. by rewrite Hl. }
  assert (Hdirty : ∀ t, (t < Tiling.len (_tiling s))%nat ->
            dirty_layers s' t = length (_imageLayers s')).
  { intros t Hlt. apply dirty_layers_all. intros layer Hin.
    apply list_elem_of_lookup in Hin as [l Hl].
    destruct (lookup_lt_is_Some_2 layer t) as [p Hp].
    { rewrite (wf_image s' Hwf' l layer Hl). by rewrite Ht. }
    exists p. split; [done|]. apply (Hstale l t).
    unfold patchAt; simpl. by rewrite Hl. }
  split_and!.
  - done.
  - intros t Hlt. rewrite (Hone t Hlt). split; [done|]. intros [=].
  - intros l t p Hp. apply Hstale in Hp.
    unfold ImagePatch.isDirty in Hp. apply negb_true_iff, Z.eqb_neq in Hp. exact Hp.
  - exact Hdirty.
  - apply pies_none. intros v Hv. apply list_elem_of_lookup in Hv as [t Hv].
    assert (Hlt : (t < Tiling.len (_tiling s))%nat).
    { apply lookup_lt_Some in Hv. by rewrite (wf_indicate s' Hwf'), Ht in Hv. }
    assert (Hv1 : Some v = Some 1%Qc) by (rewrite <- Hv; exact (Hone t Hlt)).
    exact (Some_inj _ _ Hv1).
  - intros Hv Hn Hlen rectF t Hin.
    assert (Hv' : verboseRequests s' = false) by (rewrite Hframe; exact Hv).
    assert (Hn' : _numLayers s' = _numLayers s) by (rewrite Hframe; reflexivity).
    destruct (drawBackground_exact s' rectF Hwf' Hv')
      as (s2 & rs & Hrun2 & _ & _ & _ & Hind2 & _); [by rewrite Hn'|].
    rewrite Hrun2. cbn [fst snd]. split; [done|].
    rewrite Hind2, Ht, bool_decide_eq_true_2 by done.
    rewrite Hdirty by by eapply wf_intersectedF.
    rewrite Hn', Hlen, Himg, length_map. f_equal.
    apply progress_value_zero. by rewrite <- Hlen.
Qed.

(** * The requests of a paint pass, and marks at an unchanged version *)



(** * The properties above on concrete objects *)

Lemma Sample_brushed_scene_wf : wf Sample.brushed_scene.
Proof. example_wf. Qed.

Lemma generateReport_tree_witness :
  (let report := Report.generateReport Sample.root_cache MemInfoNode.__init__ in
   map ReportTree.fields (ReportTree.nodes report)
     = map ReportTree.assigned (ReportTree.caches Sample.root_cache) ∧
   length (ReportTree.nodes report) = length (ReportTree.caches Sample.root_cache) ∧
   (Forall (fun child => Operator.isinstance child ClsOpCache = false)
      (Operator.children Sample.root_cache) ->
    ReportTree.nodes report = [report])) ∧
  map MemInfoNode.id
    (ReportTree.nodes (Report.generateReport Sample.root_cache MemInfoNode.__init__))
  = [Some 5; Some 4; Some 2]%nat.
Proof.
  split; [|reflexivity].
  apply (generateReport_tree Sample.root_cache). reflexivity.
Defined.

Lemma generateReport_overwrites_witness :
  let used := Report.generateReport Sample.root_cache MemInfoNode.__init__ in
  Report.generateReport Example.managed_cache
    (Report.generateReport Example.managed_cache used)
    = Report.generateReport Example.managed_cache used ∧
  MemInfoNode.children (Report.generateReport Example.managed_cache used)
    = MemInfoNode.children
        (Report.generateReport Example.managed_cache MemInfoNode.__init__) ∧
  (Operator.isinstance Example.managed_cache ClsOpManagedCache = true ->
   ∀ other, Operator.isinstance other ClsOpCache = true ->
     Report.generateReport Example.managed_cache
       (Report.generateReport other used)
     = Report.generateReport Example.managed_cache used).
Proof.
  apply (generateReport_overwrites Example.managed_cache
           (Report.generateReport Sample.root_cache MemInfoNode.__init__)).
  reflexivity.
Defined.

Lemma drawLine_effects_witness :
  let s' := (ImageScene2D.drawLine Sample.fromPoint Sample.toPoint 1 Example.scene).1 in
  (ImageScene2D.drawLine Sample.fromPoint Sample.toPoint 1 Example.scene).2 = Return tt ∧
  match Tiling.containsF (_tiling Example.scene) Sample.toPoint with
  | None => s' = Example.scene
  | Some tileId =>
      ∃ p r tR,
        patchAt (BrushingLayer, tileId) Example.scene = Some p ∧
        Tiling._imageRectF (_tiling Example.scene) !! tileId = Some r ∧
        Tiling.rectF (_tiling Example.scene) !! tileId = Some tR ∧
        patchAt (BrushingLayer, tileId) s'
          = Some (stroked Sample.fromPoint Sample.toPoint (topLeft r) 1 p) ∧
        (∀ ref, ref ≠ (BrushingLayer, tileId) ->
           patchAt ref s' = patchAt ref Example.scene) ∧
        events s' = events Example.scene ++ [Invalidate tR] ∧
        _indicate s' = _indicate Example.scene ∧
        wf s'
  end.
Proof.
  apply (drawLine_effects Example.scene).
  - apply Example_scene_wf.
  - intros t. apply Example_tiling_containsF.
Defined.

Lemma drawForeground_paints_strokes_witness :
  let strokes :=
    strokes_to_paint Sample.brushed_scene
      (Tiling.intersectedF (_tiling Sample.brushed_scene) Example.tile2F) in
  let s' := (ImageScene2D.drawForeground Example.tile2F Sample.brushed_scene).1 in
  (ImageScene2D.drawForeground Example.tile2F Sample.brushed_scene).2 = Return tt ∧
  s' = set_events (events Sample.brushed_scene ++ map PaintImage strokes)
         Sample.brushed_scene ∧
  (∀ ref, patchAt ref s' = patchAt ref Sample.brushed_scene) ∧
  (ImageScene2D.drawForeground Example.tile2F s').2 = Return tt ∧
  events (ImageScene2D.drawForeground Example.tile2F s').1
    = events s' ++ map PaintImage strokes.
Proof.
  apply (drawForeground_paints_strokes Sample.brushed_scene Example.tile2F).
  apply Sample_brushed_scene_wf.
Defined.

Lemma stroke_shown_until_reset_witness :
  let s1 := (ImageScene2D.drawLine Sample.fromPoint Sample.toPoint 1 Example.scene).1 in
  let s2 := (ImageScene2D._invalidateRect QRect_null s1).1 in
  ∃ p r,
    patchAt (BrushingLayer, 2%nat) Example.scene = Some p ∧
    Tiling._imageRectF (_tiling Example.scene) !! 2%nat = Some r ∧
    let buffer :=
      DrawLine (ImagePatch.image p) (QPointF_sub Sample.fromPoint (topLeft r))
        (QPointF_sub Sample.toPoint (topLeft r)) 1 in
    ImageScene2D.drawForeground Example.tile2F s1
      = (set_events
           (events s1 ++
              replicate
                (occurrences 2
                   (Tiling.intersectedF (_tiling Example.scene) Example.tile2F))
                (PaintImage buffer)) s1,
         Return tt) ∧
    (ImageScene2D._invalidateRect QRect_null s1).2 = Return tt ∧
    (∀ q, q ∈ _brushingLayer s2 ->
       ImagePatch.image q = Fill 0 ∧ ImagePatch.imgVer q = ImagePatch.dataVer q) ∧
    ImageScene2D.drawForeground Example.tile2F s2 = (s2, Return tt).
Proof.
  apply (stroke_shown_until_reset Example.scene Sample.fromPoint Sample.toPoint 1
           2 Example.tile2F QRect_null).
  - apply Example_scene_wf.
  - reflexivity.
  - simpl. lia.
  - intros q Hq. simpl in Hq.
    repeat (apply elem_of_cons in Hq as [->|Hq]; [reflexivity|]).
    by apply elem_of_nil in Hq.
  - reflexivity.
Defined.

Lemma invalidateRect_partial_effects_witness :
  let s := Example.stale_scene false in
  let ts := Tiling.intersected (_tiling s) Example.tile2 in
  let s' := (ImageScene2D._invalidateRect Example.tile2 s).1 in
  (ImageScene2D._invalidateRect Example.tile2 s).2 = Return tt ∧
  _imageLayers s' = _imageLayers s ∧
  _brushingLayer s' = _brushingLayer s ∧
  _updatableTiles s' = _updatableTiles s ∧
  (∃ evs, events s' = events s ++ evs ∧
     cancellations evs = 0%nat ∧ requests evs = [] ∧
     map Some (invalidated evs) = map (fun t => Tiling.rectF (_tiling s) !! t) ts) ∧
  (∀ t p, patchAt (CompositeLayer, t) s = Some p ->
     patchAt (CompositeLayer, t) s'
     = Some (ImagePatch.set_dataVer
               (ImagePatch.dataVer p + Z.of_nat (occurrences t ts)) p)) ∧
  (∀ t, _indicate s' !! t
        = if bool_decide (t ∈ ts) then Some 1%Qc else _indicate s !! t).
Proof.
  apply (invalidateRect_partial_effects (Example.stale_scene false) Example.tile2).
  - apply Example_stale_scene_wf.
  - reflexivity.
Defined.

Lemma onLayerDirty_effects_witness :
  let s := Example.scene in
  let ts := Tiling.intersected (_tiling s) Example.tile2 in
  let s' := (ImageScene2D._onLayerDirty 1 Example.tile2 s).1 in
  ((1 < length (_imageLayers s))%nat ->
   (ImageScene2D._onLayerDirty 1 Example.tile2 s).2 = Return tt ∧
   (∀ l t p, patchAt (ImageLayer l, t) s = Some p ->
      patchAt (ImageLayer l, t) s'
      = Some (ImagePatch.set_dataVer
                (ImagePatch.dataVer p +
                 Z.of_nat ((if decide (l = 1%nat) then occurrences t ts else 0) +
                           (if isValid Example.tile2 then 0 else 1))) p)) ∧
   (∀ t p, patchAt (CompositeLayer, t) s = Some p ->
      patchAt (CompositeLayer, t) s'
      = Some (ImagePatch.set_dataVer
                (ImagePatch.dataVer p + Z.of_nat (occurrences t ts)) p)) ∧
   (isValid Example.tile2 = true -> _brushingLayer s' = _brushingLayer s) ∧
   requests (events s') = requests (events s) ∧
   cancellations (events s')
     = (cancellations (events s) + (if isValid Example.tile2 then 0 else 1))%nat) ∧
  ((length (_imageLayers s) ≤ 1)%nat -> ts ≠ [] ->
   ImageScene2D._onLayerDirty 1 Example.tile2 s = (s, Raise IndexError)).
Proof.
  apply (onLayerDirty_effects Example.scene 1 Example.tile2).
  apply Example_scene_wf.
Defined.

Lemma drawBackground_display_witness :
  let s := Example.stale_scene false in
  let ts := Tiling.intersectedF (_tiling s) Example.tile2F in
  let s' := (ImageScene2D.drawBackground Example.tile2F s).1 in
  (ImageScene2D.drawBackground Example.tile2F s).2 = Return tt ∧
  painted (events s') = painted (events s) ++ composite_images s ts ∧
  _compositeLayer s' = _compositeLayer s ∧
  _brushingLayer s' = _brushingLayer s ∧
  (∀ t, t ∉ ts -> _indicate s' !! t = _indicate s !! t) ∧
  (∀ t, t ∈ ts -> _indicate s' !! t = Some 1%Qc <-> dirty_layers s t = 0%nat) ∧
  (_numLayers s = length (_imageLayers s) ->
   ∀ t, t ∈ ts ->
     (∃ v, _indicate s' !! t = Some v ∧ (0 <= v)%Qc ∧ (v <= 1)%Qc) ∧
     (dirty_layers s t = _numLayers s -> _indicate s' !! t = Some 0%Qc)) ∧
  (∀ t, (t < Tiling.len (_tiling s))%nat -> dirty_layers s' t = dirty_layers s t).
Proof.
  apply (drawBackground_display (Example.stale_scene false) Example.tile2F).
  - apply Example_stale_scene_wf.
  - reflexivity.
  - simpl. lia.
Defined.

Lemma operations_return_witness :
  all_return Sample.session Example.scene ∧
  wf (run Sample.session Example.scene) ∧
  same_shape Example.scene (run Sample.session Example.scene).
Proof.
  apply (operations_return Example.scene Sample.session).
  - apply Example_scene_wf.
  - reflexivity.
  - simpl. lia.
  - unfold Sample.session.
    constructor; [simpl; lia|].
    constructor; [intros t Ht; exact (Example_tiling_containsF _ t Ht)|].
    repeat (constructor; [exact I|]). constructor.
Defined.

Lemma held_mutex_never_returns_witness :
  let u := stuck_at 1 2 Example.dirty (Example.stale_scene true) in
  (∀ rect, 2%nat ∈ Tiling.intersectedF (_tiling u) rect ->
     (ImageScene2D.drawBackground rect u).2 ≠ Return tt) ∧
  (∀ rect, isValid rect = false ->
     (ImageScene2D._invalidateRect rect u).2 ≠ Return tt).
Proof.
  apply (held_mutex_never_returns
           (stuck_at 1 2 Example.dirty (Example.stale_scene true)) 1 2
           (ImagePatch.set_mutex true Example.dirty)).
  - reflexivity.
  - reflexivity.
Defined.

Lemma NameError_leaves_deadlock_witness :
  let u := stuck_at 1 2 Example.dirty (Example.stale_scene true) in
  (∀ rect, 2%nat ∈ Tiling.intersectedF (_tiling (Example.stale_scene true)) rect ->
     (ImageScene2D.drawBackground rect u).2 = Blocked) ∧
  (∀ rect, isValid rect = false ->
     (ImageScene2D._invalidateRect rect u).2 = Blocked).
Proof.
  apply (NameError_leaves_deadlock (Example.stale_scene true) 1 2 Example.dirty).
  - apply Example_stale_scene_wf.
  - reflexivity.
  - reflexivity.
Defined.

Lemma indicator_pies_witness :
  let s := Example.scene in
  let r := DirtyIndicator_paint s [] in
  let unfinished :=
    List.filter (fun '(p, v) => negb (Qc_eq_bool v 1%Qc))
      (zip (Tiling.rectF (_tiling s)) (_indicate s)) in
  r.2 = Return tt ∧
  ∃ drawn : list (QRectF * Z * Z),
    r.1 = [] ++
          [setOpacity (Q2Qc (1 # 2)); save; setBrush (255, 0, 0); setPen (255, 0, 0)] ++
          map (fun '(r, a, b) => drawPie r a b) drawn ++ [restore] ∧
    map (fun '(rectangle, _, _) => rectangle) drawn
      = map (fun '(p, _) => pie_rectangle p) unfinished ∧
    (∀ rectangle startAngle spanAngle,
       (rectangle, startAngle, spanAngle) ∈ drawn ->
       startAngle = 0 ∧ spanAngle ≤ 360 * 16) ∧
    (∀ tileId p,
       Tiling.rectF (_tiling s) !! tileId = Some p ->
       _indicate s !! tileId = Some 0%Qc ->
       (pie_rectangle p, 0, 360 * 16) ∈ drawn) ∧
    ((∀ v, v ∈ _indicate s -> v = 1%Qc) -> drawn = []) ∧
    (_indicate s = DirtyIndicator___init__ (_tiling s) ->
     drawn
     = map (fun p => (pie_rectangle p, 0, 360 * 16)) (Tiling.rectF (_tiling s))).
Proof.
  apply (indicator_pies Example.scene []). apply Example_scene_wf.
Defined.

Lemma pies_follow_progress_witness :
  let s := Example.stale_scene false in
  (∀ rect tileId p v,
     tileId ∈ Tiling.intersected (_tiling s) rect ->
     Tiling.rectF (_tiling s) !! tileId = Some p ->
     _indicate (ImageScene2D._invalidateRect rect s).1 !! tileId = Some v ->
     pie_of p v = []) ∧
  (∀ rect,
     (∀ tileId, (tileId < Tiling.len (_tiling s))%nat ->
        tileId ∈ Tiling.intersected (_tiling s) rect) ->
     tile_pies (ImageScene2D._invalidateRect rect s).1 = []) ∧
  (verboseRequests s = false -> _numLayers s ≠ 0%nat ->
   ∀ rect tileId p,
     tileId ∈ Tiling.intersectedF (_tiling s) rect ->
     Tiling.rectF (_tiling s) !! tileId = Some p ->
     ∃ v, _indicate (ImageScene2D.drawBackground rect s).1 !! tileId = Some v ∧
          (pie_of p v = [] <-> dirty_layers s tileId = 0%nat)).
Proof.
  apply (pies_follow_progress (Example.stale_scene false)).
  apply Example_stale_scene_wf.
Defined.

Lemma invalidateRect_full_progress_witness :
  let s := Example.scene in
  let s' := (ImageScene2D._invalidateRect QRect_null s).1 in
  (ImageScene2D._invalidateRect QRect_null s).2 = Return tt ∧
  (∀ tileId, (tileId < Tiling.len (_tiling s))%nat ->
     _indicate s' !! tileId = Some 1%Qc ∧ _indicate s' !! tileId ≠ Some 0%Qc) ∧
  (∀ layerNr tileId p, patchAt (ImageLayer layerNr, tileId) s' = Some p -> stale p) ∧
  (∀ tileId, (tileId < Tiling.len (_tiling s))%nat ->
     dirty_layers s' tileId = length (_imageLayers s')) ∧
  tile_pies s' = [] ∧
  (verboseRequests s = false -> _numLayers s ≠ 0%nat ->
   _numLayers s = length (_imageLayers s) ->
   ∀ rectF tileId, tileId ∈ Tiling.intersectedF (_tiling s) rectF ->
     (ImageScene2D.drawBackground rectF s').2 = Return tt ∧
     _indicate (ImageScene2D.drawBackground rectF s').1 !! tileId = Some 0%Qc).
Proof.
  apply (invalidateRect_full_progress Example.scene QRect_null).
  - apply Example_scene_wf.
  - reflexivity.
  - intros t Ht. simpl in Ht. unfold Example.scene, Example.tiling, Example.tiles.
    cbn [_tiling Tiling.intersected isValid QRect_null rect_width rect_height].
    simpl. apply list_elem_of_lookup. exists t.
    destruct t as [|[|[|[|t]]]]; try reflexivity. lia.
  - refine (patches_Forall versions_ok Example.scene _ _ _);
      repeat first [apply Forall_nil | apply Forall_cons; split];
      unfold versions_ok; simpl; lia.
Defined.

